(** * msal_extensions: the file lock and the persisted token cache

    A shallow embedding of [msal_extensions/filelock.py] and
    [msal_extensions/token_cache.py].

    The Python code is sequential and effectful: it reads clocks, sleeps,
    creates and removes a lock file, talks to a persistence backend and
    mutates the in-memory cache it inherits from [msal.SerializableTokenCache].
    The embedding is a state-and-exception monad over

    - the mutable fields of the [PersistedTokenCache] object, and
    - a [World]: the log of every external call made so far, together with
      how many times each external operation has been called.

    The environment is scripted the way a test double is: an [Env] gives,
    for every external operation, the outcome of its n-th call.  Every
    behaviour the environment can show during one sequential run is such a
    script, so a theorem quantified over all [Env] covers all of them.

    Timestamps and durations are Python floats, in seconds.  A finite
    binary64 float is a rational, and the code compares floats, which is
    exact, so they are kept as the rationals they denote.  The one
    arithmetic operation of the two modules, [current_time() + timeout] in
    [_create_lock_file], rounds: it is [float_add], the binary64 addition of
    the IEEE 754 specification of the Standard Library ([SpecFloat]).  The
    loop of [_create_lock_file] has no bound of its own (it ends when the
    clock passes the deadline), so its model takes a budget of iterations.

    Concurrent calls of [modify] are modelled twice.  [Module Concurrent]
    takes the logs of the calls from the sequential program and interleaves
    them over a shared file system; it is used for the mutual exclusion of
    [modify] calls.  [Module Interleaving] is a step relation over the
    statements of [modify], for several processes racing on the lock files;
    it is used for what happens to lock files that are left behind. *)

From Stdlib Require Import QArith Lqa ZArith Lia List String Ascii Bool DecimalString
  SpecFloat.
From stdpp Require Import gmap strings list.
Import ListNotations.

Local Open Scope string_scope.
Local Open Scope list_scope.

(** ** Python values *)

(** [bytes]: a sequence of 8-bit characters. *)
Definition bytes := string.

(** A JSON-like dictionary with string values: cache entries, search
    criteria ([**kwargs]) and [new_key_value_pairs]. *)
Definition dict := list (string * string).

(** ** Exceptions *)

(** The exception classes the two modules distinguish.  Python builds
    [FileExistsError] from an [OSError] whose errno is [EEXIST], so it is
    [OSError EEXIST] here.  [KeyboardInterrupt] stands for the exceptions
    that derive from [BaseException] but not from [Exception].
    [PersistenceNotFound] is the class [token_cache.py] imports from
    [persistence.py] and catches in [_reload_if_necessary]. *)
Inductive exn : Type :=
| PersistenceNotFound
| ValueError
| OSError (errno : Z)
| LockError (msg : string)
| Exception (name : string)
| KeyboardInterrupt.

Definition ENOENT : Z := 2.
Definition EACCES : Z := 13.
Definition EEXIST : Z := 17.

Definition FileExistsError : exn := OSError EEXIST.

(** [except Exception] *)
Definition is_Exception (e : exn) : bool :=
  match e with
  | KeyboardInterrupt => false
  | _ => true
  end.

(** [except ValueError] *)
Definition is_ValueError (e : exn) : bool :=
  match e with
  | ValueError => true
  | _ => false
  end.

(** [except FileExistsError] *)
Definition is_FileExistsError (e : exn) : bool :=
  match e with
  | OSError n => Z.eqb n EEXIST
  | _ => false
  end.

(** [except PersistenceNotFound] *)
Definition is_PersistenceNotFound (e : exn) : bool :=
  match e with
  | PersistenceNotFound => true
  | _ => false
  end.

(** ** Outcomes *)

Inductive outcome (A : Type) : Type :=
| Val (a : A)          (* normal return *)
| Raise (e : exn)      (* an exception propagates *)
| OutOfFuel.           (* the iteration budget of the model is used up *)
Arguments Val {A} a.
Arguments Raise {A} e.
Arguments OutOfFuel {A}.

(** ** The log of external calls *)

Inductive event : Type :=
| EvMonotonic (t : Q)                          (* time.monotonic() returned t *)
| EvTime (t : Q)                               (* time.time() returned t *)
| EvSleep (seconds : Q)                        (* time.sleep(seconds) *)
| EvDebug (fmt : string)                       (* logger.debug(fmt, ...) *)
| EvOpenX (path : string) (r : option exn)     (* open(path, 'xb') *)
| EvWrite (content : bytes) (r : option exn)   (* lock_file.write(content), close *)
| EvRemove (path : string) (r : option exn)    (* os.remove(path) *)
| EvMkdirP (path : string) (r : option exn)    (* _mkdir_p(path) *)
| EvTimeLastModified (r : exn + Q)             (* persistence.time_last_modified() *)
| EvLoad (r : exn + bytes)                     (* persistence.load() *)
| EvSave (data : bytes) (r : option exn)       (* persistence.save(data) *)
| EvDeserialize (data : bytes) (r : option exn)
| EvSerialize (r : exn + bytes)
| EvBaseModify (credential_type : string) (old_entry : option dict)
               (new_key_value_pairs : option dict) (r : option exn)
| EvBaseFind (credential_type : string) (kwargs : dict) (r : exn + list dict).

(** How often each scripted operation has been called, and the log. *)
Record World : Type := mkWorld {
  n_monotonic : nat;
  n_time : nat;
  n_open : nat;
  n_write : nat;
  n_remove : nat;
  n_mkdir : nat;
  n_tlm : nat;
  n_load : nat;
  n_save : nat;
  trace : list event
}.

Definition world0 : World := mkWorld 0 0 0 0 0 0 0 0 0 [].

Definition log (ev : event) (w : World) : World :=
  mkWorld (n_monotonic w) (n_time w) (n_open w) (n_write w) (n_remove w)
          (n_mkdir w) (n_tlm w) (n_load w) (n_save w) (trace w ++ [ev]).

Definition tick_monotonic (w : World) : World :=
  mkWorld (S (n_monotonic w)) (n_time w) (n_open w) (n_write w) (n_remove w)
          (n_mkdir w) (n_tlm w) (n_load w) (n_save w) (trace w).
Definition tick_time (w : World) : World :=
  mkWorld (n_monotonic w) (S (n_time w)) (n_open w) (n_write w) (n_remove w)
          (n_mkdir w) (n_tlm w) (n_load w) (n_save w) (trace w).
Definition tick_open (w : World) : World :=
  mkWorld (n_monotonic w) (n_time w) (S (n_open w)) (n_write w) (n_remove w)
          (n_mkdir w) (n_tlm w) (n_load w) (n_save w) (trace w).
Definition tick_write (w : World) : World :=
  mkWorld (n_monotonic w) (n_time w) (n_open w) (S (n_write w)) (n_remove w)
          (n_mkdir w) (n_tlm w) (n_load w) (n_save w) (trace w).
Definition tick_remove (w : World) : World :=
  mkWorld (n_monotonic w) (n_time w) (n_open w) (n_write w) (S (n_remove w))
          (n_mkdir w) (n_tlm w) (n_load w) (n_save w) (trace w).
Definition tick_mkdir (w : World) : World :=
  mkWorld (n_monotonic w) (n_time w) (n_open w) (n_write w) (n_remove w)
          (S (n_mkdir w)) (n_tlm w) (n_load w) (n_save w) (trace w).
Definition tick_tlm (w : World) : World :=
  mkWorld (n_monotonic w) (n_time w) (n_open w) (n_write w) (n_remove w)
          (n_mkdir w) (S (n_tlm w)) (n_load w) (n_save w) (trace w).
Definition tick_load (w : World) : World :=
  mkWorld (n_monotonic w) (n_time w) (n_open w) (n_write w) (n_remove w)
          (n_mkdir w) (n_tlm w) (S (n_load w)) (n_save w) (trace w).
Definition tick_save (w : World) : World :=
  mkWorld (n_monotonic w) (n_time w) (n_open w) (n_write w) (n_remove w)
          (n_mkdir w) (n_tlm w) (n_load w) (S (n_save w)) (trace w).

(** ** The environment *)

(** The outcome of the n-th call of every external operation, and the
    process constants.  [inl e] and [Some e] mean the call raised [e].
    The persistence backend is whatever object the caller passes to
    [__init__]; the code uses its [load], [save], [time_last_modified],
    [get_location] and [is_encrypted], which are the [p_] fields. *)
Record Env : Type := mkEnv {
  getpid : nat;                              (* os.getpid() *)
  argv0 : string;                            (* sys.argv[0] *)
  has_monotonic : bool;                      (* hasattr(time, "monotonic") *)
  monotonic : nat -> Q;
  time_time : nat -> Q;
  os_open_x : nat -> option exn;
  file_write : nat -> option exn;
  os_remove : nat -> option exn;
  expanduser : string -> string;             (* os.path.expanduser *)
  dirname : string -> string;                (* os.path.dirname *)
  mkdir_p : nat -> option exn;
  p_get_location : string;
  p_is_encrypted : bool;
  p_time_last_modified : nat -> exn + Q;
  p_load : nat -> exn + bytes;
  p_save : nat -> option exn
}.

(** The in-memory cache [msal.SerializableTokenCache], from which
    [PersistedTokenCache] inherits.  It is an external collaborator: each
    method is a function of the in-memory state, and may change it, return
    or raise. *)
Class SerializableTokenCache (C : Type) : Type := {
  base_init : C;
  base_deserialize : bytes -> C -> option exn * C;
  base_serialize : C -> (exn + bytes) * C;
  base_modify : string -> option dict -> option dict -> C -> option exn * C;
  base_find : string -> dict -> C -> (exn + list dict) * C
}.

(** ** The object and the monad *)

Record PersistedTokenCache (C : Type) : Type := mkCache {
  _lock_location : string;
  _last_sync : Q;
  is_encrypted : bool;
  _cache : C                                 (* state of the base class *)
}.
Arguments mkCache {C}.
Arguments _lock_location {C}.
Arguments _last_sync {C}.
Arguments is_encrypted {C}.
Arguments _cache {C}.

Record State (C : Type) : Type := mkState {
  self : PersistedTokenCache C;
  world : World
}.
Arguments mkState {C}.
Arguments self {C}.
Arguments world {C}.

Definition M (C A : Type) : Type := State C -> outcome A * State C.

Definition ret {C A} (a : A) : M C A := fun s => (Val a, s).

Definition raise {C A} (e : exn) : M C A := fun s => (Raise e, s).

Definition out_of_fuel {C A} : M C A := fun s => (OutOfFuel, s).

Definition bind {C A B} (m : M C A) (k : A -> M C B) : M C B :=
  fun s =>
    match m s with
    | (Val a, s') => k a s'
    | (Raise e, s') => (Raise e, s')
    | (OutOfFuel, s') => (OutOfFuel, s')
    end.

(** [try: m  except <any> as e: handler e] *)
Definition try_except {C A} (m : M C A) (handler : exn -> M C A) : M C A :=
  fun s =>
    match m s with
    | (Raise e, s') => handler e s'
    | r => r
    end.

Declare Scope py_scope.
Delimit Scope py_scope with py.
Notation "x <- m ;; k" := (bind m (fun x => k))
  (at level 100, m at next level, right associativity) : py_scope.
Notation "m ;; k" := (bind m (fun _ => k))
  (at level 100, right associativity) : py_scope.
Local Open Scope py_scope.

Definition of_sum {C A} (r : exn + A) : M C A :=
  match r with
  | inl e => raise e
  | inr a => ret a
  end.

Definition of_option {C} (r : option exn) : M C unit :=
  match r with
  | Some e => raise e
  | None => ret tt
  end.

Definition on_world {C} (f : World -> World) : M C unit :=
  fun s => (Val tt, mkState (self s) (f (world s))).

Definition get_self {C} : M C (PersistedTokenCache C) := fun s => (Val (self s), s).

Definition set_last_sync {C} (t : Q) : M C unit :=
  fun s =>
    (Val tt,
     mkState (mkCache (_lock_location (self s)) t (is_encrypted (self s))
                      (_cache (self s)))
             (world s)).

(** [a < b] on timestamps, as a boolean. *)
Definition Qltb (a b : Q) : bool := negb (Qle_bool b a).

(** ** Python floats *)

(** A Python [float] is an IEEE 754 binary64 number: 53 bits of mantissa,
    and 1024 as the exponent of the infinities. *)
Definition binary64_prec : Z := 53.
Definition binary64_emax : Z := 1024.

(** The float nearest to a rational (ties to even): the float itself when
    the rational is the value of one, which every clock reading is. *)
Definition binary64_of_Q (q : Q) : spec_float :=
  let nearest (negative : bool) (n : positive) :=
    let '(m, e, l) :=
      SFdiv_core_binary binary64_prec binary64_emax (Zpos n) 0 (Zpos (Qden q)) 0 in
    binary_round_aux binary64_prec binary64_emax negative m e l in
  match Qnum q with
  | Z0 => S754_zero false
  | Zpos n => nearest false n
  | Zneg n => nearest true n
  end.

(** The rational a finite float denotes. *)
Definition Q_of_binary64 (x : spec_float) : option Q :=
  match x with
  | S754_zero _ => Some 0%Q
  | S754_finite negative m e =>
      let n := if negative then Zneg m else Zpos m in
      Some (Qred match e with
                 | Zneg k => n # (2 ^ k)
                 | _ => inject_Z (n * 2 ^ e)
                 end)
  | S754_infinity _ | S754_nan => None
  end.

(** [a + b] on floats: the exact sum, rounded to the nearest float, ties to
    even.  The sum of a finite clock reading and 5 does not overflow; the
    last case is there to make the function total. *)
Definition float_add (a b : Q) : Q :=
  match Q_of_binary64
          (SFadd binary64_prec binary64_emax (binary64_of_Q a) (binary64_of_Q b)) with
  | Some sum => sum
  | None => (a + b)%Q
  end.

(** ** External calls *)

Section Program.

Context {C : Type} {base : SerializableTokenCache C}.
Variable env : Env.

Definition call_monotonic : M C Q :=
  fun s =>
    let t := monotonic env (n_monotonic (world s)) in
    (Val t, mkState (self s) (log (EvMonotonic t) (tick_monotonic (world s)))).

Definition call_time : M C Q :=
  fun s =>
    let t := time_time env (n_time (world s)) in
    (Val t, mkState (self s) (log (EvTime t) (tick_time (world s)))).

Definition sleep (seconds : Q) : M C unit := on_world (log (EvSleep seconds)).

Definition debug (fmt : string) : M C unit := on_world (log (EvDebug fmt)).

Definition call_open_x (path : string) : M C unit :=
  fun s =>
    let r := os_open_x env (n_open (world s)) in
    of_option r (mkState (self s) (log (EvOpenX path r) (tick_open (world s)))).

Definition call_write (content : bytes) : M C unit :=
  fun s =>
    let r := file_write env (n_write (world s)) in
    of_option r (mkState (self s) (log (EvWrite content r) (tick_write (world s)))).

Definition call_remove (path : string) : M C unit :=
  fun s =>
    let r := os_remove env (n_remove (world s)) in
    of_option r (mkState (self s) (log (EvRemove path r) (tick_remove (world s)))).

Definition call_mkdir_p (path : string) : M C unit :=
  fun s =>
    let r := mkdir_p env (n_mkdir (world s)) in
    of_option r (mkState (self s) (log (EvMkdirP path r) (tick_mkdir (world s)))).

Definition call_time_last_modified : M C Q :=
  fun s =>
    let r := p_time_last_modified env (n_tlm (world s)) in
    of_sum r (mkState (self s) (log (EvTimeLastModified r) (tick_tlm (world s)))).

Definition call_load : M C bytes :=
  fun s =>
    let r := p_load env (n_load (world s)) in
    of_sum r (mkState (self s) (log (EvLoad r) (tick_load (world s)))).

Definition call_save (data : bytes) : M C unit :=
  fun s =>
    let r := p_save env (n_save (world s)) in
    of_option r (mkState (self s) (log (EvSave data r) (tick_save (world s)))).

(** Methods of the base class, run on the [_cache] field. *)

Definition with_cache (c : C) (s : State C) : State C :=
  mkState (mkCache (_lock_location (self s)) (_last_sync (self s))
                   (is_encrypted (self s)) c)
          (world s).

Definition deserialize (data : bytes) : M C unit :=
  fun s =>
    let '(r, c) := base_deserialize data (_cache (self s)) in
    of_option r (mkState (self (with_cache c s)) (log (EvDeserialize data r) (world s))).

Definition serialize : M C bytes :=
  fun s =>
    let '(r, c) := base_serialize (_cache (self s)) in
    of_sum r (mkState (self (with_cache c s)) (log (EvSerialize r) (world s))).

Definition super_modify (credential_type : string) (old_entry : option dict)
    (new_key_value_pairs : option dict) : M C unit :=
  fun s =>
    let '(r, c) :=
      base_modify credential_type old_entry new_key_value_pairs (_cache (self s)) in
    of_option r
      (mkState (self (with_cache c s))
         (log (EvBaseModify credential_type old_entry new_key_value_pairs r) (world s))).

Definition super_find (credential_type : string) (kwargs : dict) : M C (list dict) :=
  fun s =>
    let '(r, c) := base_find credential_type kwargs (_cache (self s)) in
    of_sum r
      (mkState (self (with_cache c s))
         (log (EvBaseFind credential_type kwargs r) (world s))).

(** ** filelock.py *)

(** [timeout = 5] and [check_interval = 0.25], in seconds. *)
Definition timeout : Q := 5.
Definition check_interval : Q := 1 # 4.

(** [current_time = getattr(time, "monotonic", time.time)] *)
Definition current_time : M C Q :=
  if has_monotonic env then call_monotonic else call_time.

Definition python2_message : string :=
  "Python 2 does not support atomic creation of file".

Definition found_lock_fmt : string :=
  "Process %d found existing lock file, will retry after %f second".

(** ["Unable to obtain lock, despite trying for {} second(s). You may want
     to manually remove the stale lock file {}".format(timeout, lockpath)] *)
Definition stale_message (lockpath : string) : string :=
  ("Unable to obtain lock, despite trying for 5 second(s). " ++
   "You may want to manually remove the stale lock file " ++ lockpath)%string.

(** The [while timeout_end > current_time():] loop of [_create_lock_file].
    One unit of [fuel] pays for one evaluation of the loop condition. *)
Fixpoint lock_loop (fuel : nat) (lockpath : string) (content : bytes)
    (timeout_end : Q) : M C unit :=
  match fuel with
  | O => out_of_fuel
  | S fuel' =>
      now <- current_time ;;
      if Qltb now timeout_end then
        try_except
          (call_open_x lockpath ;; call_write content ;; ret tt)
          (fun ex =>
             if is_ValueError ex then raise (LockError python2_message)
             else if is_FileExistsError ex then
               debug found_lock_fmt ;;
               sleep check_interval ;;
               lock_loop fuel' lockpath content timeout_end
             else raise ex)
      else raise (LockError (stale_message lockpath))
  end.

(** [timeout_end = current_time() + timeout] is an addition of floats. *)
Definition _create_lock_file (fuel : nat) (lockpath : string) (content : bytes)
    : M C unit :=
  start <- current_time ;;
  lock_loop fuel lockpath content (float_add start timeout).

(** ['{} {}'.format(os.getpid(), sys.argv[0]).encode('utf-8')] *)
Definition lock_content : bytes :=
  (NilZero.string_of_uint (Nat.to_uint (getpid env)) ++ " " ++ argv0 env)%string.

(** [CrossPlatLock.__enter__] *)
Definition __enter__ (fuel : nat) (lockpath : string) : M C unit :=
  _create_lock_file fuel lockpath lock_content.

Definition unable_to_remove_fmt : string := "Unable to remove lock file".

(** [CrossPlatLock.__exit__] *)
Definition __exit__ (lockpath : string) : M C unit :=
  try_except
    (call_remove lockpath)
    (fun ex =>
       match ex with
       | OSError errno =>
           if Z.eqb errno ENOENT || Z.eqb errno EACCES
           then debug unable_to_remove_fmt
           else raise ex
       | _ => raise ex
       end).

(** [with CrossPlatLock(lockpath): body].  [__exit__] returns [None], so an
    exception of the body is not suppressed; an exception of [__exit__]
    itself replaces it. *)
Definition leave {A} (lockpath : string) (r : outcome A * State C)
    : outcome A * State C :=
  match r with
  | (Val a, s1) => (__exit__ lockpath ;; ret a) s1
  | (Raise e, s1) => (__exit__ lockpath ;; raise e) s1
  | (OutOfFuel, s1) => (OutOfFuel, s1)
  end.

Definition with_CrossPlatLock {A} (fuel : nat) (lockpath : string) (body : M C A)
    : M C A :=
  __enter__ fuel lockpath ;;
  fun s => leave lockpath (body s).

(** ** token_cache.py *)

(** [PersistedTokenCache.__init__].  A [lock_location] that is [None] or the
    empty string is falsy. *)
Definition __init__ (lock_location : option string) : World -> outcome unit * State C :=
  fun w =>
    let loc :=
      match lock_location with
      | Some l => if String.eqb l EmptyString
                  then (p_get_location env ++ ".lockfile")%string
                  else expanduser env l
      | None => (p_get_location env ++ ".lockfile")%string
      end in
    let s := mkState (mkCache loc 0 false base_init) w in
    match call_mkdir_p (dirname env loc) s with
    | (Val _, s1) =>
        (Val tt, mkState (mkCache loc 0 (p_is_encrypted env) base_init) (world s1))
    | r => r
    end.

Definition _reload_if_necessary : M C unit :=
  try_except
    (me <- get_self ;;
     modified <- call_time_last_modified ;;
     if Qltb (_last_sync me) modified then
       data <- call_load ;;
       deserialize data ;;
       now <- call_time ;;
       set_last_sync now
     else ret tt)
    (fun ex => if is_PersistenceNotFound ex then ret tt else raise ex).

(** The statements of [modify] after its reload: mutate, serialize, save,
    and record the time of the synchronisation. *)
Definition mutate_and_flush (credential_type : string) (old_entry : option dict)
    (new_key_value_pairs : option dict) : M C unit :=
  super_modify credential_type old_entry new_key_value_pairs ;;
  data <- serialize ;;
  call_save data ;;
  now <- call_time ;;
  set_last_sync now.

(** The body of the [with] statement of [modify]. *)
Definition modify_body (credential_type : string) (old_entry : option dict)
    (new_key_value_pairs : option dict) : M C unit :=
  _reload_if_necessary ;;
  mutate_and_flush credential_type old_entry new_key_value_pairs.

Definition modify (fuel : nat) (credential_type : string) (old_entry : option dict)
    (new_key_value_pairs : option dict) : M C unit :=
  me <- get_self ;;
  with_CrossPlatLock fuel (_lock_location me)
    (modify_body credential_type old_entry new_key_value_pairs).

Definition retry : nat := 3.

Definition unable_to_load_fmt : string :=
  "Unable to load token cache file in No. %d attempt".

(** [logger.debug("Unable to load ...", attempt)] and [time.sleep(0.5)]. *)
Definition after_pause (s : State C) : State C :=
  snd ((debug unable_to_load_fmt ;; sleep (1 # 2)) s).

(** Which [return] statement of [find] produced the result. *)
Inductive find_return : Type :=
| FromLookup (entries : list dict)   (* return super().find(...) *)
| Fallback.                          (* return [] after the loop *)

Definition find_value (r : find_return) : list dict :=
  match r with
  | FromLookup entries => entries
  | Fallback => []
  end.

(** The [for attempt in range(1, retry + 1):] loop of [find]. *)
Fixpoint find_loop (attempts : list nat) (credential_type : string) (kwargs : dict)
    : M C find_return :=
  match attempts with
  | [] => ret Fallback
  | attempt :: rest =>
      fun s =>
        match _reload_if_necessary s with
        | (Raise ex, s1) =>
            if is_Exception ex then
              if (attempt <? retry)%nat then
                find_loop rest credential_type kwargs (after_pause s1)
              else (Raise ex, s1)
            else (Raise ex, s1)
        | (Val _, s1) =>
            (entries <- super_find credential_type kwargs ;;
             ret (FromLookup entries)) s1
        | (OutOfFuel, s1) => (OutOfFuel, s1)
        end
  end.

Definition find_tagged (credential_type : string) (kwargs : dict) : M C find_return :=
  find_loop (seq 1 retry) credential_type kwargs.

Definition find (credential_type : string) (kwargs : dict) : M C (list dict) :=
  r <- find_tagged credential_type kwargs ;; ret (find_value r).

End Program.

(** ** Several processes racing on lock files *)

(** [modify] as seen by the other processes: a process is at a program
    point of [modify] (with [__enter__], [_create_lock_file] and [__exit__]
    inlined), and the only state the processes share is which lock files
    exist.  [open(path, 'xb')] is one indivisible step of the file system: it
    creates the file if and only if it does not exist.  Clock readings and
    failures of the backend are left open, so every branch the code can take
    is a step. *)
Module Interleaving.

Inductive pc : Type :=
| Outside (last : option exn)  (* not inside modify; outcome of the last call *)
| Enter                        (* filelock: timeout_end = current_time() + timeout *)
| LoopTest                     (* filelock: while timeout_end > current_time() *)
| Open                         (* filelock: open(self._lockpath, 'xb') *)
| Write                        (* filelock: lock_file.write(content) *)
| Sleep                        (* filelock: time.sleep(check_interval) *)
| Reload                       (* token_cache: self._reload_if_necessary() *)
| Mutate                       (* token_cache: super().modify(...) *)
| Serialize                    (* token_cache: self.serialize() *)
| Save                         (* token_cache: self._persistence.save(...) *)
| Sync                         (* token_cache: self._last_sync = time.time() *)
| Exit (pending : option exn). (* filelock: os.remove(self._lockpath) *)

Record proc : Type := mkProc {
  lockpath : string;           (* self._lock_location *)
  at_pc : pc
}.

Record system : Type := mkSystem {
  files : gset string;         (* the lock files that exist *)
  procs : gmap nat proc        (* process id -> process *)
}.

Definition move (i : nat) (p : proc) (to : pc) (sys : system) : system :=
  mkSystem (files sys) (<[i := mkProc (lockpath p) to]> (procs sys)).

Definition move_create (i : nat) (p : proc) (to : pc) (sys : system) : system :=
  mkSystem ({[lockpath p]} ∪ files sys) (<[i := mkProc (lockpath p) to]> (procs sys)).

Definition move_delete (i : nat) (p : proc) (to : pc) (sys : system) : system :=
  mkSystem (files sys ∖ {[lockpath p]}) (<[i := mkProc (lockpath p) to]> (procs sys)).

(** The body of the [with] statement raised [e], or completed. *)
Definition after_body (r : option exn) : pc := Exit r.

(** One step of process [i]: one statement of [modify], [__enter__],
    [_create_lock_file] or [__exit__], with one of its outcomes. *)
Inductive step (i : nat) : system -> system -> Prop :=
(* modify is called; __enter__ starts *)
| step_call sys p last :
    procs sys !! i = Some p -> at_pc p = Outside last ->
    step i sys (move i p Enter sys)
(* timeout_end = current_time() + timeout *)
| step_start sys p :
    procs sys !! i = Some p -> at_pc p = Enter ->
    step i sys (move i p LoopTest sys)
(* while timeout_end > current_time(): the deadline is ahead *)
| step_test_in_time sys p :
    procs sys !! i = Some p -> at_pc p = LoopTest ->
    step i sys (move i p Open sys)
(* the deadline has passed: raise LockError("Unable to obtain lock ...") *)
| step_test_expired sys p :
    procs sys !! i = Some p -> at_pc p = LoopTest ->
    step i sys (move i p (Outside (Some (LockError (stale_message (lockpath p))))) sys)
(* open(path, 'xb') on an existing file: FileExistsError, debug, then sleep *)
| step_open_exists sys p :
    procs sys !! i = Some p -> at_pc p = Open ->
    lockpath p ∈ files sys ->
    step i sys (move i p Sleep sys)
(* open(path, 'xb') creates the file *)
| step_open_created sys p :
    procs sys !! i = Some p -> at_pc p = Open ->
    lockpath p ∉ files sys ->
    step i sys (move_create i p Write sys)
(* open(path, 'xb') fails otherwise and creates nothing: [e] leaves
   _create_lock_file (a LockError for ValueError, else the error itself) *)
| step_open_failed sys p e :
    procs sys !! i = Some p -> at_pc p = Open ->
    is_FileExistsError e = false ->
    step i sys (move i p (Outside (Some e)) sys)
(* lock_file.write(content) returns; return None; the body starts *)
| step_write_ok sys p :
    procs sys !! i = Some p -> at_pc p = Write ->
    step i sys (move i p Reload sys)
(* lock_file.write(content) raises: __enter__ raises, __exit__ is not run
   and the file stays *)
| step_write_failed sys p e :
    procs sys !! i = Some p -> at_pc p = Write ->
    is_FileExistsError e = false ->
    step i sys (move i p (Outside (Some e)) sys)
(* lock_file.write(content) raises FileExistsError: caught, debug, sleep *)
| step_write_retry sys p :
    procs sys !! i = Some p -> at_pc p = Write ->
    step i sys (move i p Sleep sys)
(* time.sleep(check_interval) returns: back to the loop test *)
| step_sleep sys p :
    procs sys !! i = Some p -> at_pc p = Sleep ->
    step i sys (move i p LoopTest sys)
(* self._reload_if_necessary() returns *)
| step_reload sys p :
    procs sys !! i = Some p -> at_pc p = Reload ->
    step i sys (move i p Mutate sys)
(* super().modify(...) returns *)
| step_mutate sys p :
    procs sys !! i = Some p -> at_pc p = Mutate ->
    step i sys (move i p Serialize sys)
(* self.serialize() returns *)
| step_serialize sys p :
    procs sys !! i = Some p -> at_pc p = Serialize ->
    step i sys (move i p Save sys)
(* self._persistence.save(...) returns *)
| step_save sys p :
    procs sys !! i = Some p -> at_pc p = Save ->
    step i sys (move i p Sync sys)
(* self._last_sync = time.time(); the body is done, __exit__ starts *)
| step_sync sys p :
    procs sys !! i = Some p -> at_pc p = Sync ->
    step i sys (move i p (Exit None) sys)
(* a statement of the body raises [e]: __exit__ starts with [e] pending *)
| step_body_raises sys p e :
    procs sys !! i = Some p ->
    at_pc p = Reload \/ at_pc p = Mutate \/ at_pc p = Serialize \/ at_pc p = Save ->
    step i sys (move i p (after_body (Some e)) sys)
(* os.remove(path) removes the file; a pending exception propagates *)
| step_remove_ok sys p pending :
    procs sys !! i = Some p -> at_pc p = Exit pending ->
    lockpath p ∈ files sys ->
    step i sys (move_delete i p (Outside pending) sys)
(* os.remove(path) fails with ENOENT or EACCES: swallowed, nothing removed *)
| step_remove_swallowed sys p pending :
    procs sys !! i = Some p -> at_pc p = Exit pending ->
    step i sys (move i p (Outside pending) sys)
(* os.remove(path) fails with another errno: raised, nothing removed *)
| step_remove_failed sys p pending errno :
    procs sys !! i = Some p -> at_pc p = Exit pending ->
    errno <> ENOENT -> errno <> EACCES ->
    step i sys (move i p (Outside (Some (OSError errno))) sys).

(** Between creating its lock file and trying to remove it. *)
Definition owns_lock (c : pc) : bool :=
  match c with
  | Write | Reload | Mutate | Serialize | Save | Sync | Exit _ => true
  | _ => false
  end.

(** Inside the reload-mutate-save sequence of [modify]. *)
Definition in_sequence (c : pc) : bool :=
  match c with
  | Reload | Mutate | Serialize | Save | Sync => true
  | _ => false
  end.

(** Every process is outside [modify]; lock files left behind by earlier
    runs may exist. *)
Definition initial (sys : system) : Prop :=
  forall i p, procs sys !! i = Some p -> exists last, at_pc p = Outside last.

(** The statements of the reload-mutate-save sequence that come after its
    first one, and the statement each of them follows. *)
Definition continues (c : pc) : bool :=
  match c with
  | Mutate | Serialize | Save | Sync => true
  | _ => false
  end.

Definition pred_pc (c : pc) : pc :=
  match c with
  | Mutate => Reload
  | Serialize => Mutate
  | Save => Serialize
  | Sync => Save
  | _ => c
  end.

(** The history of an execution: which process executed which statement of
    its reload-mutate-save sequence, on which lock location, newest first. *)
Definition entry : Type := nat * string * pc.

Definition note (i : nat) (p : proc) (h : list entry) : list entry :=
  if in_sequence (at_pc p) then (i, lockpath p, at_pc p) :: h else h.

(** The executions: any interleaving of steps of the processes, from a state
    in which all of them are outside [modify]. *)
Inductive exec : list entry -> system -> Prop :=
| exec_initial sys : initial sys -> exec [] sys
| exec_step h sys sys' i p :
    exec h sys -> procs sys !! i = Some p -> step i sys sys' ->
    exec (note i p h) sys'.

(** The newest entry of the history for a lock location. *)
Fixpoint last_at (path : string) (h : list entry) : option (nat * pc) :=
  match h with
  | [] => None
  | (j, path', c) :: h' =>
      if String.eqb path path' then Some (j, c) else last_at path h'
  end.

(** In a history, the sequences on one lock location do not interleave:
    every statement after the first of a sequence comes, among the entries
    for its lock location, right after the statement before it of the same
    process. *)
Fixpoint contiguous (h : list entry) : Prop :=
  match h with
  | [] => True
  | (j, path, c) :: h' =>
      (continues c = true -> last_at path h' = Some (j, pred_pc c)) /\
      contiguous h'
  end.

(** What the lock protocol maintains: the lock file of every process that
    owns a lock exists, and no two processes own the lock of one location. *)
Definition lock_invariant (sys : system) : Prop :=
  (forall i p, procs sys !! i = Some p -> owns_lock (at_pc p) = true ->
               lockpath p ∈ files sys) /\
  (forall i j p q,
      procs sys !! i = Some p -> procs sys !! j = Some q ->
      owns_lock (at_pc p) = true -> owns_lock (at_pc q) = true ->
      lockpath p = lockpath q -> i = j).

(** A process in the middle of its sequence executed the statement before
    as the newest entry for its lock location. *)
Definition history_invariant (h : list entry) (sys : system) : Prop :=
  forall j q, procs sys !! j = Some q -> continues (at_pc q) = true ->
              last_at (lockpath q) h = Some (j, pred_pc (at_pc q)).

(** Any process takes a step. *)
Definition any_step (sys sys' : system) : Prop := exists i, step i sys sys'.

(** The lock file of a location exists and no process owns it: it was left
    behind. *)
Definition abandoned (path : string) (sys : system) : Prop :=
  path ∈ files sys /\
  forall i p, procs sys !! i = Some p -> lockpath p = path ->
              owns_lock (at_pc p) = false.

(** Two processes outside [modify], with the lock locations [a] and [b],
    and no lock file. *)
Definition two_outside (a b : string) : system :=
  mkSystem ∅
    (<[1%nat := mkProc b (Outside None)]> (<[0%nat := mkProc a (Outside None)]> ∅)).

End Interleaving.

(** ** Concrete environments *)

(** A small in-memory cache: its state is the serialized text itself, and
    the text ["corrupt"] cannot be deserialized. *)
Module Demo.

#[local] Open Scope Q_scope.

#[global] Instance text_cache : SerializableTokenCache bytes := {|
  base_init := EmptyString;
  base_deserialize data c :=
    if String.eqb data "corrupt" then (Some (Exception "JSONDecodeError"), c)
    else (None, data);
  base_serialize c := (inr c, c);
  base_modify credential_type old_entry new_key_value_pairs c :=
    (None, (c ++ credential_type)%string);
  base_find credential_type kwargs c := (inr [[(credential_type, c)]], c)
|}.

Definition Qnat (n : nat) : Q := inject_Z (Z.of_nat n).

(** A clock whose first two readings are 0 and on which 0.25 s pass
    between any two later readings, as they do while a process waits for a
    lock. *)
Definition sleeping_clock (k : nat) : Q := Qnat (Nat.pred k) * (1 # 4).

(** A clock on which 5 s pass between any two readings. *)
Definition jumping_clock (k : nat) : Q := Qnat k * 5.

(** A wall clock that runs forward, and one that is set back by 50 s between
    its first two readings. *)
Definition forward_wall (k : nat) : Q := 100 + Qnat k.
Definition backward_wall (k : nat) : Q := 100 - Qnat k * 50.

Definition make_env (mono wall : nat -> Q) (opens removes : nat -> option exn)
    (tlm : nat -> exn + Q) (loads : nat -> exn + bytes) (saves : nat -> option exn)
    : Env :=
  {| getpid := 4242;
     argv0 := "app.py";
     has_monotonic := true;
     monotonic := mono;
     time_time := wall;
     os_open_x := opens;
     file_write := fun _ => None;
     os_remove := removes;
     expanduser := fun path => path;
     dirname := fun _ => "/tmp"%string;
     mkdir_p := fun _ => None;
     p_get_location := "/tmp/cache.bin";
     p_is_encrypted := false;
     p_time_last_modified := tlm;
     p_load := loads;
     p_save := saves |}.

Definition always {A} (a : A) : nat -> A := fun _ => a.

(** Nobody else is around: the lock file can be created and removed, the
    backend was modified at time 50 and holds ["{}"]. *)
Definition quiet : Env :=
  make_env sleeping_clock forward_wall (always None) (always None)
           (always (inr 50)) (always (inr "{}"%string)) (always None).

(** A stale lock file sits at the lock location. *)
Definition stale : Env :=
  make_env sleeping_clock forward_wall (always (Some FileExistsError)) (always None)
           (always (inr 50)) (always (inr "{}"%string)) (always None).

(** The same, but the process is suspended for 5 s between clock readings. *)
Definition stale_suspended : Env :=
  make_env jumping_clock forward_wall (always (Some FileExistsError)) (always None)
           (always (inr 50)) (always (inr "{}"%string)) (always None).

(** The floats [0.1] and [5.1], and a clock that reads the one and then the
    other.  As rationals [0.1 + 5] is above [5.1]; as floats they are equal. *)
Definition float_0_1 : Q := 3602879701896397 # 36028797018963968.
Definition float_5_1 : Q := 2871044762448691 # 562949953421312.
Definition rounding_clock (k : nat) : Q :=
  match k with
  | O => float_0_1
  | _ => float_5_1
  end.

(** A stale lock file, and a process that starts at 0.1 s and makes its
    first loop test at 5.1 s. *)
Definition stale_rounding : Env :=
  make_env rounding_clock forward_wall (always (Some FileExistsError)) (always None)
           (always (inr 50)) (always (inr "{}"%string)) (always None).

(** The backend has never been created. *)
Definition missing : Env :=
  make_env sleeping_clock forward_wall (always None) (always None)
           (always (inl PersistenceNotFound)) (always (inl PersistenceNotFound))
           (always None).

(** The backend does not exist before the first save, which happens at
    time 100; after it the wall clock is set back by 50 s. *)
Definition clock_set_back : Env :=
  make_env sleeping_clock backward_wall (always None) (always None)
           (fun k => match k with O => inl PersistenceNotFound | _ => inr 100 end)
           (always (inr "RefreshToken"%string))
           (always None).

(** The backend cannot be written (ENOSPC). *)
Definition disk_full : Env :=
  make_env sleeping_clock forward_wall (always None) (always None)
           (always (inr 50)) (always (inr "{}"%string)) (always (Some (OSError 28))).

(** A writer is in the middle of a flush during the first [dirty] loads. *)
Definition dirty_reads (dirty : nat) : Env :=
  make_env sleeping_clock forward_wall (always None) (always None)
           (always (inr 50))
           (fun k => if (k <? dirty)%nat then inr "corrupt"%string else inr "{}"%string)
           (always None).

(** The lock file cannot be removed: the n-th removal fails with [r]. *)
Definition remove_fails (e : exn) : Env :=
  make_env sleeping_clock forward_wall (always None) (always (Some e))
           (always (inr 50)) (always (inr "{}"%string)) (always None).


(** An interpreter whose [open] does not know the mode ['x']. *)
Definition python2 : Env :=
  make_env sleeping_clock forward_wall (always (Some ValueError)) (always None)
           (always (inr 50)) (always (inr "{}"%string)) (always None).

(** The user interrupts the process while it asks the backend for its
    modification time. *)
Definition interrupted : Env :=
  make_env sleeping_clock forward_wall (always None) (always None)
           (always (inl KeyboardInterrupt)) (always (inr "{}"%string)) (always None).

(** The backend cannot be read (its data cannot be decrypted). *)
Definition unreadable : Env :=
  make_env sleeping_clock forward_wall (always None) (always None)
           (always (inr 50)) (always (inl (Exception "DecryptionError")))
           (always None).

(** A second process, started while [quiet] holds the lock: its first two
    creation attempts find the lock file, the third does not; by then the
    backend was modified at time 101 and holds ["{}RefreshToken"]. *)
Definition second_process : Env :=
  {| getpid := 4243;
     argv0 := "app.py";
     has_monotonic := true;
     monotonic := sleeping_clock;
     time_time := fun k => 102 + Qnat k;
     os_open_x := fun k => if (k <? 2)%nat then Some FileExistsError else None;
     file_write := fun _ => None;
     os_remove := fun _ => None;
     expanduser := fun path => path;
     dirname := fun _ => "/tmp"%string;
     mkdir_p := fun _ => None;
     p_get_location := "/tmp/cache.bin";
     p_is_encrypted := false;
     p_time_last_modified := fun _ => inr 101;
     p_load := fun _ => inr "{}RefreshToken"%string;
     p_save := fun _ => None |}.

(** A freshly constructed cache object in an untouched world. *)
Definition fresh (env : Env) : State bytes :=
  snd (__init__ env None world0).

(** The lock location the examples share. *)
Definition shared_lock : string := "/tmp/cache.bin.lockfile".

(** A system with one process outside [modify] and a lock file left behind
    at its lock location. *)
Definition left_behind : Interleaving.system :=
  Interleaving.mkSystem {[shared_lock]}
    (<[0%nat := Interleaving.mkProc shared_lock (Interleaving.Outside None)]> ∅).

End Demo.

(** ** Observations *)

(** The waits recorded in a log, in order. *)
Definition sleeps (tr : list event) : list Q :=
  flat_map (fun ev => match ev with EvSleep d => [d] | _ => [] end) tr.

(** The events [_reload_if_necessary] can produce. *)
Definition is_reload_event (ev : event) : bool :=
  match ev with
  | EvTimeLastModified _ | EvLoad _ | EvDeserialize _ _ | EvTime _ => true
  | _ => false
  end.

(** The events of acquiring the lock. *)
Definition is_acquire_event (ev : event) : bool :=
  match ev with
  | EvMonotonic _ | EvTime _ | EvOpenX _ _ | EvWrite _ _ | EvDebug _ | EvSleep _ => true
  | _ => false
  end.

(** The events of the statements of [modify] after its reload. *)
Definition is_flush_event (ev : event) : bool :=
  match ev with
  | EvBaseModify _ _ _ _ | EvSerialize _ | EvSave _ _ | EvTime _ => true
  | _ => false
  end.

(** How many reload attempts were made between two states: every call of
    [_reload_if_necessary] calls [time_last_modified] exactly once, and
    nothing else does. *)
Definition attempts_between {C : Type} (s s' : State C) : nat :=
  n_tlm (world s') - n_tlm (world s).

(** The clock [_create_lock_file] reads, the number of readings taken from
    it so far, and the event of a reading. *)
Definition clock (env : Env) (k : nat) : Q :=
  if has_monotonic env then monotonic env k else time_time env k.

Definition n_clock (env : Env) (w : World) : nat :=
  if has_monotonic env then n_monotonic w else n_time w.

Definition EvClock (env : Env) (t : Q) : event :=
  if has_monotonic env then EvMonotonic t else EvTime t.

(** The log of [rounds] failed attempts on an existing lock file followed by
    the loop test that finds the deadline passed; [k] is the index of the
    clock reading of the first loop test. *)
Fixpoint waiting_events (env : Env) (lockpath : string) (k rounds : nat)
    : list event :=
  match rounds with
  | O => [EvClock env (clock env k)]
  | S rounds' =>
      [EvClock env (clock env k);
       EvOpenX lockpath (Some FileExistsError);
       EvDebug found_lock_fmt;
       EvSleep check_interval]
      ++ waiting_events env lockpath (S k) rounds'
  end.

(** The state after the call of [time_last_modified] that opens a reload,
    and after the call of [load] that follows it. *)
Definition after_tlm {C : Type} (env : Env) (s : State C) : State C :=
  mkState (self s)
    (log (EvTimeLastModified (p_time_last_modified env (n_tlm (world s))))
         (tick_tlm (world s))).

Definition after_load {C : Type} (env : Env) (s : State C) : State C :=
  mkState (self s)
    (log (EvLoad (p_load env (n_load (world s))))
         (tick_load (world (after_tlm env s)))).

(** What a reload is expected to log, told from the answers of the
    environment alone: the backend is always asked for its modification
    time; it is loaded when that time is after [_last_sync]; what was loaded
    is deserialized; and the wall clock is read when that succeeded. *)
Definition reload_events {C : Type} {base : SerializableTokenCache C} (env : Env)
    (s : State C) : list event :=
  let modified := p_time_last_modified env (n_tlm (world s)) in
  EvTimeLastModified modified ::
  match modified with
  | inr t =>
      if Qltb (_last_sync (self s)) t then
        let loaded := p_load env (n_load (world s)) in
        EvLoad loaded ::
        match loaded with
        | inr data =>
            let r := fst (base_deserialize data (_cache (self s))) in
            EvDeserialize data r ::
            match r with
            | None => [EvTime (time_time env (n_time (world s)))]
            | Some _ => []
            end
        | inl _ => []
        end
      else []
  | inl _ => []
  end.

(** The in-memory cache a reload is expected to leave: what the base class
    made of the loaded data when the backend was newer and could be loaded,
    and the cache as it was otherwise. *)
Definition reloaded_cache {C : Type} {base : SerializableTokenCache C} (env : Env)
    (s : State C) : C :=
  match p_time_last_modified env (n_tlm (world s)) with
  | inr t =>
      if Qltb (_last_sync (self s)) t then
        match p_load env (n_load (world s)) with
        | inr data => snd (base_deserialize data (_cache (self s)))
        | inl _ => _cache (self s)
        end
      else _cache (self s)
  | inl _ => _cache (self s)
  end.

(** The operations a process performs on a cache object during its life. *)
Inductive operation : Type :=
| OpFind (credential_type : string) (kwargs : dict)
| OpModify (fuel : nat) (credential_type : string) (old_entry : option dict)
           (new_key_value_pairs : option dict)
| OpReload.

Definition run_operation {C : Type} {base : SerializableTokenCache C} (env : Env)
    (op : operation) (s : State C) : State C :=
  match op with
  | OpFind credential_type kwargs => snd (find env credential_type kwargs s)
  | OpModify fuel credential_type old_entry new_key_value_pairs =>
      snd (modify env fuel credential_type old_entry new_key_value_pairs s)
  | OpReload => snd (_reload_if_necessary env s)
  end.

Definition run_operations {C : Type} {base : SerializableTokenCache C} (env : Env)
    (ops : list operation) (s : State C) : State C :=
  fold_left (fun s op => run_operation env op s) ops s.

(** Between [s] and [s'] the wall clock was read zero or more times, and
    [_last_sync] is what it was or became one of these readings. *)
Definition synced_between {C : Type} (env : Env) (s s' : State C) : Prop :=
  (n_time (world s) <= n_time (world s'))%nat /\
  (_last_sync (self s') = _last_sync (self s) \/
   exists k, (n_time (world s) <= k < n_time (world s'))%nat /\
             _last_sync (self s') = time_time env k).

(** Every reading the wall clock will still give is at or after
    [_last_sync]. *)
Definition clock_ahead {C : Type} (env : Env) (s : State C) : Prop :=
  forall k, (n_time (world s) <= k)%nat -> (_last_sync (self s) <= time_time env k)%Q.

(** The state after one turn of the loop of [_create_lock_file] in which
    the creation fails with [FileExistsError]: the clock is read, the
    creation is attempted, a debug line is logged and the process sleeps for
    [check_interval].  [waited] is the state after [rounds] such turns. *)
Definition after_failed_attempt {C : Type} (env : Env) (lockpath : string)
    (s : State C) : State C :=
  mkState (self s)
    (log (EvSleep check_interval)
       (log (EvDebug found_lock_fmt)
          (log (EvOpenX lockpath (Some FileExistsError))
             (tick_open (world (snd (current_time env s))))))).

Fixpoint waited {C : Type} (env : Env) (lockpath : string) (rounds : nat)
    (s : State C) : State C :=
  match rounds with
  | O => s
  | S rounds' => waited env lockpath rounds' (after_failed_attempt env lockpath s)
  end.

(** The events [find] can produce. *)
Definition is_find_event (ev : event) : bool :=
  match ev with
  | EvTimeLastModified _ | EvLoad _ | EvDeserialize _ _ | EvTime _
  | EvDebug _ | EvSleep _ | EvBaseFind _ _ _ => true
  | _ => false
  end.

(** The lock location [__init__] chooses when the caller gives none. *)
Definition default_lock_location (env : Env) : string :=
  (p_get_location env ++ ".lockfile")%string.

(** An event that creates or removes no file but the one at [path]. *)
Definition locks_only_at (path : string) (ev : event) : bool :=
  match ev with
  | EvOpenX p _ | EvRemove p _ => String.eqb p path
  | _ => true
  end.

(** Between [s] and [s'] the lock location of the object stayed, and every
    event logged satisfies [P]. *)
Definition logs_only {C : Type} (P : event -> bool) (s s' : State C) : Prop :=
  _lock_location (self s') = _lock_location (self s) /\
  exists evs, trace (world s') = trace (world s) ++ evs /\ forallb P evs = true.

(** What the lock acquisition leaves alone, however it ends: the cache
    object, the backend and [os.remove]. *)
Definition untouched_by_lock {C : Type} (s s' : State C) : Prop :=
  self s' = self s /\
  n_tlm (world s') = n_tlm (world s) /\
  n_load (world s') = n_load (world s) /\
  n_save (world s') = n_save (world s) /\
  n_remove (world s') = n_remove (world s) /\
  exists evs, trace (world s') = trace (world s) ++ evs /\
              forallb is_acquire_event evs = true.

(** What a read leaves alone: the lock file, the monotonic clock, the
    directory of the lock file, the backend's [save], and the fields of the
    object that are set at construction. *)
Definition read_only_between {C : Type} (s s' : State C) : Prop :=
  n_monotonic (world s') = n_monotonic (world s) /\
  n_open (world s') = n_open (world s) /\
  n_write (world s') = n_write (world s) /\
  n_remove (world s') = n_remove (world s) /\
  n_mkdir (world s') = n_mkdir (world s) /\
  n_save (world s') = n_save (world s) /\
  _lock_location (self s') = _lock_location (self s) /\
  is_encrypted (self s') = is_encrypted (self s) /\
  exists evs, trace (world s') = trace (world s) ++ evs /\
              forallb is_find_event evs = true.

(** ** Concurrent calls of [modify] *)

(** Several calls of [modify] run at the same time, in different threads or
    processes, each on a cache object of its own.  What one call does is
    given by the sequential program: its log.  What the calls share is the
    file system with their lock files.  A schedule is an interleaving of
    the logs: the events of all the calls in the order in which they
    happened, each with the number of the call that caused it. *)
Module Concurrent.

Record call : Type := mkCall {
  call_path : string;          (* the lock location of the cache object *)
  call_log : list event        (* the events of the call, first to last *)
}.

(** The log of [c] is the log of a call of [modify], on some cache object
    with the lock location of [c], in some state and some environment. *)
Definition is_modify_call (c : call) : Prop :=
  exists (C : Type) (base : SerializableTokenCache C) (env : Env) (fuel : nat)
         (credential_type : string) (old_entry new_key_value_pairs : option dict)
         (s : State C),
    _lock_location (self s) = call_path c /\
    trace (world (snd (modify env fuel credential_type old_entry
                         new_key_value_pairs s)))
      = trace (world s) ++ call_log c.

Definition schedule : Type := list (nat * event).

(** The events of call [i] in a schedule. *)
Fixpoint project (i : nat) (g : schedule) : list event :=
  match g with
  | [] => []
  | (j, ev) :: g' => if Nat.eqb j i then ev :: project i g' else project i g'
  end.

(** Every call has got as far as some point of its log, and nothing else
    happened. *)
Definition interleaves (calls : list call) (g : schedule) : Prop :=
  forall i,
    match calls !! i with
    | Some c => exists rest, call_log c = project i g ++ rest
    | None => project i g = []
    end.

(** The file system, as far as lock files go: [open(path, 'xb')] returns
    only if there is no file at [path], and then there is one; after
    [os.remove(path)] returned there is none; nothing else creates or
    removes a lock file. *)
Definition file_effect (files : gset string) (ev : event) : option (gset string) :=
  match ev with
  | EvOpenX path None =>
      if decide (path ∈ files) then None else Some ({[path]} ∪ files)
  | EvRemove path None => Some (files ∖ {[path]})
  | _ => Some files
  end.

Fixpoint replay (files : gset string) (g : schedule) : option (gset string) :=
  match g with
  | [] => Some files
  | (_, ev) :: g' =>
      match file_effect files ev with
      | Some files' => replay files' g'
      | None => None
      end
  end.

(** The schedule is one the file system allows, from the lock files
    [files] that exist at its start. *)
Definition consistent (files : gset string) (g : schedule) : Prop :=
  is_Some (replay files g).

(** The steps of the reload-mutate-save sequence of [modify]: the calls of
    the backend and of the base class. *)
Definition is_sequence_event (ev : event) : bool :=
  match ev with
  | EvTimeLastModified _ | EvLoad _ | EvDeserialize _ _
  | EvBaseModify _ _ _ _ | EvSerialize _ | EvSave _ _ => true
  | _ => false
  end.

(** Where a call stands with respect to its lock file, told from its own
    log: it has not created the file (or has failed to write to it); it has
    created it; it has written to it, and runs the body of the [with]
    statement; it has called [os.remove]. *)
Inductive phase : Type :=
| Away
| Created
| Holding
| Released.

(** The phase after one more event; [None] for an event that a call of
    [modify] does not log in that phase. *)
Definition advance (path : string) (ph : phase) (ev : event) : option phase :=
  match ph, ev with
  | Away, (EvMonotonic _ | EvTime _ | EvDebug _ | EvSleep _) => Some Away
  | Away, EvOpenX p None => if String.eqb p path then Some Created else None
  | Away, EvOpenX p (Some _) => if String.eqb p path then Some Away else None
  | Created, EvWrite _ None => Some Holding
  | Created, EvWrite _ (Some _) => Some Away
  | Holding, (EvTimeLastModified _ | EvLoad _ | EvDeserialize _ _ | EvTime _
              | EvBaseModify _ _ _ _ | EvSerialize _ | EvSave _ _) => Some Holding
  | Holding, EvRemove p _ => if String.eqb p path then Some Released else None
  | Released, EvDebug _ => Some Released
  | _, _ => None
  end.

Fixpoint run_phase (path : string) (ph : phase) (evs : list event) : option phase :=
  match evs with
  | [] => Some ph
  | ev :: evs' =>
      match advance path ph ev with
      | Some ph' => run_phase path ph' evs'
      | None => None
      end
  end.

(** The call has the lock file: it created it and has not called
    [os.remove] since. *)
Definition has_lock_file (ph : phase) : bool :=
  match ph with
  | Created | Holding => true
  | Away | Released => false
  end.

(** Every call has logged what the phases allow, and nothing else
    happened. *)
Definition follows_phases (calls : list call) (g : schedule) : Prop :=
  forall i,
    match calls !! i with
    | Some c => is_Some (run_phase (call_path c) Away (project i g))
    | None => project i g = []
    end.

(** The invariant of the schedules of [modify] calls: a call that has its
    lock file finds it in the file system, and no two calls have the same
    lock file. *)
Definition exclusive (calls : list call) (files : gset string) (g : schedule)
    : Prop :=
  forall i c ph,
    calls !! i = Some c ->
    run_phase (call_path c) Away (project i g) = Some ph ->
    has_lock_file ph = true ->
    call_path c ∈ files /\
    forall j c' ph',
      calls !! j = Some c' ->
      run_phase (call_path c') Away (project j g) = Some ph' ->
      has_lock_file ph' = true ->
      call_path c' = call_path c -> j = i.

(** Call [j] takes a step of its sequence between two steps of the sequence
    of call [i]. *)
Definition overlap (i j : nat) (g : schedule) : Prop :=
  exists g1 e1 g2 e2 g3 e3 g4,
    g = g1 ++ (i, e1) :: g2 ++ (j, e2) :: g3 ++ (i, e3) :: g4 /\
    is_sequence_event e1 = true /\
    is_sequence_event e2 = true /\
    is_sequence_event e3 = true.

(** Call [i] has taken the last step of its sequence that it takes in the
    schedule before call [j] takes the first step of its own. *)
Definition precedes (i j : nat) (g : schedule) : Prop :=
  forall g1 ej g2 ei,
    g = g1 ++ (j, ej) :: g2 ->
    is_sequence_event ej = true ->
    In (i, ei) g2 ->
    is_sequence_event ei = false.

(** Two calls on the same lock location.  The first finds no lock file; the
    second starts while the first runs, finds the lock file of the first
    twice, and creates its own after the first removed its file. *)
Definition first_call : call :=
  mkCall Demo.shared_lock
    [EvMonotonic (0 # 4); EvMonotonic (0 # 4);
     EvOpenX Demo.shared_lock None; EvWrite "4242 app.py" None;
     EvTimeLastModified (inr 50%Q); EvLoad (inr "{}"); EvDeserialize "{}" None;
     EvTime 100;
     EvBaseModify "RefreshToken" None (Some [("secret", "x")]) None;
     EvSerialize (inr "{}RefreshToken"); EvSave "{}RefreshToken" None;
     EvTime 101; EvRemove Demo.shared_lock None].

Definition second_call : call :=
  mkCall Demo.shared_lock
    [EvMonotonic (0 # 4); EvMonotonic (0 # 4);
     EvOpenX Demo.shared_lock (Some FileExistsError);
     EvDebug found_lock_fmt; EvSleep check_interval;
     EvMonotonic (1 # 4);
     EvOpenX Demo.shared_lock (Some FileExistsError);
     EvDebug found_lock_fmt; EvSleep check_interval;
     EvMonotonic (2 # 4);
     EvOpenX Demo.shared_lock None; EvWrite "4243 app.py" None;
     EvTimeLastModified (inr 101%Q); EvLoad (inr "{}RefreshToken");
     EvDeserialize "{}RefreshToken" None; EvTime 102;
     EvBaseModify "IdToken" None (Some [("secret", "y")]) None;
     EvSerialize (inr "{}RefreshTokenIdToken");
     EvSave "{}RefreshTokenIdToken" None;
     EvTime 103; EvRemove Demo.shared_lock None].

(** The second call tries to create the lock file while the first is in its
    sequence, and runs its own sequence after the first removed the file. *)
Definition one_after_the_other : schedule :=
  [(0, EvMonotonic (0 # 4)); (1, EvMonotonic (0 # 4));
   (0, EvMonotonic (0 # 4)); (0, EvOpenX Demo.shared_lock None);
   (1, EvMonotonic (0 # 4));
   (1, EvOpenX Demo.shared_lock (Some FileExistsError));
   (0, EvWrite "4242 app.py" None);
   (1, EvDebug found_lock_fmt);
   (0, EvTimeLastModified (inr 50%Q));
   (1, EvSleep check_interval);
   (0, EvLoad (inr "{}")); (0, EvDeserialize "{}" None);
   (1, EvMonotonic (1 # 4));
   (1, EvOpenX Demo.shared_lock (Some FileExistsError));
   (0, EvTime 100);
   (0, EvBaseModify "RefreshToken" None (Some [("secret", "x")]) None);
   (1, EvDebug found_lock_fmt); (1, EvSleep check_interval);
   (0, EvSerialize (inr "{}RefreshToken")); (0, EvSave "{}RefreshToken" None);
   (0, EvTime 101); (0, EvRemove Demo.shared_lock None);
   (1, EvMonotonic (2 # 4));
   (1, EvOpenX Demo.shared_lock None); (1, EvWrite "4243 app.py" None);
   (1, EvTimeLastModified (inr 101%Q)); (1, EvLoad (inr "{}RefreshToken"));
   (1, EvDeserialize "{}RefreshToken" None); (1, EvTime 102);
   (1, EvBaseModify "IdToken" None (Some [("secret", "y")]) None);
   (1, EvSerialize (inr "{}RefreshTokenIdToken"));
   (1, EvSave "{}RefreshTokenIdToken" None);
   (1, EvTime 103); (1, EvRemove Demo.shared_lock None)]%nat.

(** A schedule of two calls that both log what [first_call] logs, in which
    the second would load between the load and the save of the first: it
    needs the second call to create the lock file while the first has it. *)
Definition overlapping : schedule :=
  [(0, EvMonotonic (0 # 4)); (0, EvMonotonic (0 # 4));
   (0, EvOpenX Demo.shared_lock None); (0, EvWrite "4242 app.py" None);
   (0, EvTimeLastModified (inr 50%Q)); (0, EvLoad (inr "{}"));
   (1, EvMonotonic (0 # 4)); (1, EvMonotonic (0 # 4));
   (1, EvOpenX Demo.shared_lock None); (1, EvWrite "4242 app.py" None);
   (1, EvTimeLastModified (inr 50%Q)); (1, EvLoad (inr "{}"));
   (0, EvDeserialize "{}" None); (0, EvTime 100);
   (0, EvBaseModify "RefreshToken" None (Some [("secret", "x")]) None);
   (0, EvSerialize (inr "{}RefreshToken")); (0, EvSave "{}RefreshToken" None)]%nat.

End Concurrent.

(** * Properties *)

Local Open Scope Q_scope.

(** ** Timestamps *)

Lemma Qltb_lt (a b : Q) : Qltb a b = true <-> a < b.
Proof.
  unfold Qltb. rewrite negb_true_iff.
  split; intros H.
  - apply Qnot_le_lt. intros Hle. apply Qle_bool_iff in Hle. congruence.
  - destruct (Qle_bool b a) eqn:E; [|reflexivity].
    apply Qle_bool_iff in E. exfalso. apply (Qlt_not_le _ _ H E).
Qed.

Lemma Qltb_ge (a b : Q) : Qltb a b = false <-> b <= a.
Proof.
  unfold Qltb. rewrite negb_false_iff. apply Qle_bool_iff.
Qed.

(** ** Unfolding the monad *)

Ltac unfold_calls :=
  unfold call_monotonic, call_time, sleep, debug, call_open_x, call_write,
    call_remove, call_mkdir_p, call_time_last_modified, call_load, call_save,
    deserialize, serialize, super_modify, super_find, with_cache,
    set_last_sync, get_self, on_world in *.

Ltac unfold_monad :=
  unfold bind, try_except, of_sum, of_option, ret, raise, out_of_fuel in *.

Ltac run := unfold_calls; unfold_monad; cbn [self world fst snd] in *.

(** ** CrossPlatLock.__exit__ *)

Section Release.

Context {C : Type} {base : SerializableTokenCache C}.
Variable env : Env.

(** What [__exit__] does, by the outcome of [os.remove]. *)
Lemma exit_cases (lockpath : string) (s : State C) :
  let r := os_remove env (n_remove (world s)) in
  let w1 := log (EvRemove lockpath r) (tick_remove (world s)) in
  __exit__ env lockpath s =
    match r with
    | None => (Val tt, mkState (self s) w1)
    | Some (OSError errno) =>
        if Z.eqb errno ENOENT || Z.eqb errno EACCES
        then (Val tt, mkState (self s) (log (EvDebug unable_to_remove_fmt) w1))
        else (Raise (OSError errno), mkState (self s) w1)
    | Some e => (Raise e, mkState (self s) w1)
    end.
Proof.
  cbv zeta. unfold __exit__. run.
  destruct (os_remove env (n_remove (world s))) as [[]|]; try reflexivity.
  destruct (_ || _); reflexivity.
Qed.

End Release.

(** C6. Releasing the lock always calls [os.remove] on the lock file, as the
    first thing it does, and leaves the cache object alone.  If the removal
    succeeds the release returns; if it fails with an [OSError] whose errno
    is ENOENT or EACCES the error is swallowed (only a debug line is logged)
    and the release returns; any other failure of the removal is raised to
    the caller unchanged. *)
Theorem release_removes_and_filters_errors :
  forall (C : Type) (base : SerializableTokenCache C) (env : Env)
         (lockpath : string) (s : State C),
    let r := os_remove env (n_remove (world s)) in
    let out := fst (__exit__ env lockpath s) in
    let s' := snd (__exit__ env lockpath s) in
    self s' = self s /\
    n_remove (world s') = S (n_remove (world s)) /\
    (exists rest, trace (world s') = trace (world s) ++ EvRemove lockpath r :: rest) /\
    (r = None -> out = Val tt) /\
    (r = Some (OSError ENOENT) -> out = Val tt) /\
    (r = Some (OSError EACCES) -> out = Val tt) /\
    (forall e, r = Some e -> e <> OSError ENOENT -> e <> OSError EACCES ->
               out = Raise e).
Proof.
  intros C base env lockpath s r out s'.
  subst out s'. rewrite exit_cases. fold r.
  destruct r as [e|] eqn:Er; cbn [fst snd self world].
  - destruct e as [| |errno| | |].
    3: destruct (Z.eqb errno ENOENT || Z.eqb errno EACCES) eqn:Ee.
    all: cbn [fst snd self world log tick_remove trace n_remove].
    all: repeat split; try (eexists; reflexivity);
      try (cbn; rewrite <- app_assoc; eexists; reflexivity);
      try (intros; congruence).
    + intros e' He' Hn1 Hn2. exfalso. injection He' as <-.
      apply orb_true_iff in Ee as [Ee|Ee]; apply Z.eqb_eq in Ee; subst errno;
        [apply Hn1 | apply Hn2]; reflexivity.
    + intros He. injection He as ->. cbn in Ee. discriminate.
    + intros He. injection He as ->. cbn in Ee. discriminate.
  - repeat split; try (eexists; reflexivity); try (intros; congruence).
Qed.

Lemma release_removes_and_filters_errors_witness :
  (let env := Demo.remove_fails (OSError ENOENT) in
   fst (__exit__ env Demo.shared_lock (Demo.fresh env)) = Val tt) /\
  (let env := Demo.remove_fails (OSError 16) in
   fst (__exit__ env Demo.shared_lock (Demo.fresh env)) = Raise (OSError 16)).
Proof.
  split; cbv zeta.
  - pose proof (release_removes_and_filters_errors bytes Demo.text_cache
                  (Demo.remove_fails (OSError ENOENT)) Demo.shared_lock
                  (Demo.fresh (Demo.remove_fails (OSError ENOENT)))) as H.
    cbv zeta in H. destruct H as (_ & _ & _ & _ & Hgone & _).
    apply Hgone. reflexivity.
  - pose proof (release_removes_and_filters_errors bytes Demo.text_cache
                  (Demo.remove_fails (OSError 16)) Demo.shared_lock
                  (Demo.fresh (Demo.remove_fails (OSError 16)))) as H.
    cbv zeta in H. destruct H as (_ & _ & _ & _ & _ & _ & Hother).
    apply Hother; [reflexivity | discriminate | discriminate].
Defined.

(** ** _reload_if_necessary *)

Section Reload.

Context {C : Type} {base : SerializableTokenCache C}.
Variable env : Env.

(** The backend is not newer than the snapshot: one call of
    [time_last_modified], nothing else. *)
Lemma reload_fresh (s : State C) (t : Q) :
  p_time_last_modified env (n_tlm (world s)) = inr t ->
  t <= _last_sync (self s) ->
  _reload_if_necessary env s = (Val tt, after_tlm env s).
Proof.
  intros Ht Hle. apply Qltb_ge in Hle.
  unfold _reload_if_necessary, after_tlm. run. rewrite Ht. cbn. rewrite Hle.
  reflexivity.
Qed.

(** The backend is newer and can be read and deserialized. *)
Lemma reload_stale (s : State C) (t : Q) (data : bytes) (c : C) :
  p_time_last_modified env (n_tlm (world s)) = inr t ->
  _last_sync (self s) < t ->
  p_load env (n_load (world s)) = inr data ->
  base_deserialize data (_cache (self s)) = (None, c) ->
  _reload_if_necessary env s =
    (Val tt,
     mkState
       (mkCache (_lock_location (self s)) (time_time env (n_time (world s)))
                (is_encrypted (self s)) c)
       (log (EvTime (time_time env (n_time (world s))))
          (tick_time
             (log (EvDeserialize data None) (world (after_load env s)))))).
Proof.
  intros Ht Hlt Hl Hd. apply Qltb_lt in Hlt.
  unfold _reload_if_necessary, after_load, after_tlm. run.
  rewrite Ht. cbn. rewrite Hlt. cbn. rewrite Hl. cbn. rewrite Hd. cbn.
  reflexivity.
Qed.

(** [time_last_modified] signals that there is no persisted store. *)
Lemma reload_not_found_tlm (s : State C) :
  p_time_last_modified env (n_tlm (world s)) = inl PersistenceNotFound ->
  _reload_if_necessary env s = (Val tt, after_tlm env s).
Proof.
  intros Ht. unfold _reload_if_necessary, after_tlm. run. rewrite Ht. reflexivity.
Qed.

(** [load] signals that there is no persisted store. *)
Lemma reload_not_found_load (s : State C) (t : Q) :
  p_time_last_modified env (n_tlm (world s)) = inr t ->
  _last_sync (self s) < t ->
  p_load env (n_load (world s)) = inl PersistenceNotFound ->
  _reload_if_necessary env s = (Val tt, after_load env s).
Proof.
  intros Ht Hlt Hl. apply Qltb_lt in Hlt.
  unfold _reload_if_necessary, after_load, after_tlm. run.
  rewrite Ht. cbn. rewrite Hlt. cbn. rewrite Hl. reflexivity.
Qed.

(** What every call of [_reload_if_necessary] does to the state: exactly
    one call of [time_last_modified]; only backend, deserialize and clock
    events; [_last_sync] either stays or, when the call returns, becomes the
    reading of the wall clock taken by this call; the other fields of the
    object that are not the in-memory cache stay; and the call never runs
    out of fuel. *)
Lemma reload_effect (s : State C) :
  let out := fst (_reload_if_necessary env s) in
  let s' := snd (_reload_if_necessary env s) in
  out <> OutOfFuel /\
  n_tlm (world s') = S (n_tlm (world s)) /\
  (exists evs, trace (world s') = trace (world s) ++ evs /\
               forallb is_reload_event evs = true /\ sleeps evs = []) /\
  _lock_location (self s') = _lock_location (self s) /\
  is_encrypted (self s') = is_encrypted (self s) /\
  n_monotonic (world s') = n_monotonic (world s) /\
  n_open (world s') = n_open (world s) /\
  n_remove (world s') = n_remove (world s) /\
  n_save (world s') = n_save (world s) /\
  ((_last_sync (self s') = _last_sync (self s) /\
    n_time (world s') = n_time (world s)) \/
   (out = Val tt /\
    _last_sync (self s') = time_time env (n_time (world s)) /\
    n_time (world s') = S (n_time (world s)))).
Proof.
  cbv zeta. unfold _reload_if_necessary. run.
  destruct (p_time_last_modified env (n_tlm (world s))) as [e|t]; cbn;
    [destruct (is_PersistenceNotFound e)
    |destruct (Qltb (_last_sync (self s)) t); cbn;
     [destruct (p_load env (n_load (world s))) as [e|data]; cbn;
      [destruct (is_PersistenceNotFound e)
      |destruct (base_deserialize data (_cache (self s))) as [[e|] c]; cbn;
       [destruct (is_PersistenceNotFound e)|]]
     |]];
    cbn;
    (repeat split; try discriminate;
     [eexists; split;
      [rewrite <- ?app_assoc; reflexivity | split; reflexivity]
     | first [left; split; reflexivity | right; repeat split; reflexivity]]).
Qed.

End Reload.

(** C4. When the backend reports a modification time [t]:
    if [t] is strictly greater than [_last_sync], [load] is called, and when
    it returns data that deserializes, the in-memory cache becomes the
    deserialized data and [_last_sync] becomes the reading of [time.time()];
    if [_last_sync] is greater than or equal to [t], [load] is not called
    and the object (in-memory cache and [_last_sync]) is unchanged. *)
Theorem reload_only_when_backend_newer :
  forall (C : Type) (base : SerializableTokenCache C) (env : Env)
         (s : State C) (t : Q),
    p_time_last_modified env (n_tlm (world s)) = inr t ->
    let out := fst (_reload_if_necessary env s) in
    let s' := snd (_reload_if_necessary env s) in
    (_last_sync (self s) < t ->
       n_load (world s') = S (n_load (world s)) /\
       forall data c,
         p_load env (n_load (world s)) = inr data ->
         base_deserialize data (_cache (self s)) = (None, c) ->
         out = Val tt /\
         _cache (self s') = c /\
         _last_sync (self s') = time_time env (n_time (world s)) /\
         trace (world s') =
           trace (world s) ++
             [EvTimeLastModified (inr t); EvLoad (inr data);
              EvDeserialize data None; EvTime (time_time env (n_time (world s)))])
    /\
    (t <= _last_sync (self s) ->
       out = Val tt /\
       self s' = self s /\
       n_load (world s') = n_load (world s) /\
       trace (world s') = trace (world s) ++ [EvTimeLastModified (inr t)]).
Proof.
  intros C base env s t Ht out s'. subst out s'. split.
  - intros Hlt. split.
    + pose proof Hlt as Hb. apply Qltb_lt in Hb.
      unfold _reload_if_necessary. run. rewrite Ht. cbn. rewrite Hb. cbn.
      destruct (p_load env (n_load (world s))) as [e|data]; cbn.
      * destruct (is_PersistenceNotFound e); reflexivity.
      * destruct (base_deserialize data (_cache (self s))) as [[e|] c]; cbn;
          [destruct (is_PersistenceNotFound e)|]; reflexivity.
    + intros data c Hl Hd.
      rewrite (reload_stale env s t data c Ht Hlt Hl Hd). cbn.
      rewrite Ht, Hl, <- !app_assoc. repeat split.
  - intros Hle. rewrite (reload_fresh env s t Ht Hle). cbn. rewrite Ht.
    repeat split.
Qed.

Lemma reload_only_when_backend_newer_witness :
  let s0 := Demo.fresh Demo.quiet in
  let s1 := snd (_reload_if_necessary Demo.quiet s0) in
  let s2 := snd (_reload_if_necessary Demo.quiet s1) in
  (_cache (self s1) = "{}"%string /\ n_load (world s1) = 1%nat) /\
  (self s2 = self s1 /\ n_load (world s2) = 1%nat).
Proof.
  cbv zeta.
  pose proof (reload_only_when_backend_newer bytes Demo.text_cache Demo.quiet
                (Demo.fresh Demo.quiet) 50 eq_refl) as H0.
  pose proof (reload_only_when_backend_newer bytes Demo.text_cache Demo.quiet
                (snd (_reload_if_necessary Demo.quiet (Demo.fresh Demo.quiet)))
                50 eq_refl) as H1.
  cbv zeta in H0, H1.
  destruct H0 as [Hnew _]. destruct H1 as [_ Hold].
  split.
  - destruct (Hnew eq_refl) as [_ Hload].
    destruct (Hload "{}"%string "{}"%string eq_refl eq_refl) as (_ & Hc & _).
    split; [exact Hc | reflexivity].
  - assert (Hle : 50 <= _last_sync
                    (self (snd (_reload_if_necessary Demo.quiet (Demo.fresh Demo.quiet))))).
    { vm_compute. discriminate. }
    destruct (Hold Hle) as (_ & Hs & Hn & _).
    split; [exact Hs | rewrite Hn; reflexivity].
Defined.

(** C7. When the backend signals [PersistenceNotFound], from
    [time_last_modified] or from [load], [_reload_if_necessary] returns
    normally and leaves the object as it was.  The signal does not reach the
    caller of [find], which gets the outcome of the in-memory lookup, nor the
    caller of [modify], which goes on with the in-memory mutation. *)
Theorem reload_ignores_missing_persistence :
  forall (C : Type) (base : SerializableTokenCache C) (env : Env) (s : State C),
    (p_time_last_modified env (n_tlm (world s)) = inl PersistenceNotFound \/
     exists t, p_time_last_modified env (n_tlm (world s)) = inr t /\
               _last_sync (self s) < t /\
               p_load env (n_load (world s)) = inl PersistenceNotFound) ->
    let s' := snd (_reload_if_necessary env s) in
    fst (_reload_if_necessary env s) = Val tt /\
    self s' = self s /\
    (forall credential_type kwargs,
        find env credential_type kwargs s = super_find credential_type kwargs s') /\
    (forall fuel credential_type old_entry new_key_value_pairs s0,
        __enter__ env fuel (_lock_location (self s0)) s0 = (Val tt, s) ->
        modify env fuel credential_type old_entry new_key_value_pairs s0 =
          leave env (_lock_location (self s0))
            (mutate_and_flush env credential_type old_entry new_key_value_pairs s')).
Proof.
  intros C base env s Hnf s'.
  assert (Hr : _reload_if_necessary env s = (Val tt, s') /\ self s' = self s).
  { subst s'. destruct Hnf as [Ht | (t & Ht & Hlt & Hl)].
    - rewrite (reload_not_found_tlm env s Ht). split; reflexivity.
    - rewrite (reload_not_found_load env s t Ht Hlt Hl). split; reflexivity. }
  destruct Hr as [Hr Hself]. rewrite Hr. cbn [fst snd].
  repeat split; try assumption.
  - intros ct kw. unfold find, find_tagged. cbn [seq retry find_loop].
    unfold bind at 1. rewrite Hr.
    unfold bind, ret. destruct (super_find ct kw s') as [[l|e|] s2]; reflexivity.
  - intros fuel ct old new s0 He.
    unfold modify, with_CrossPlatLock, get_self.
    unfold bind at 1 2. rewrite He.
    f_equal. unfold modify_body, bind at 1. rewrite Hr. reflexivity.
Qed.

Lemma reload_ignores_missing_persistence_witness :
  fst (_reload_if_necessary Demo.missing (Demo.fresh Demo.missing)) = Val tt /\
  find Demo.missing "RefreshToken" [] (Demo.fresh Demo.missing) =
    super_find "RefreshToken" []
      (snd (_reload_if_necessary Demo.missing (Demo.fresh Demo.missing))).
Proof.
  pose proof (reload_ignores_missing_persistence bytes Demo.text_cache Demo.missing
                (Demo.fresh Demo.missing) (or_introl eq_refl)) as H.
  cbv zeta in H. destruct H as (Hout & _ & Hfind & _).
  split; [exact Hout | apply Hfind].
Defined.

(** ** find *)

Lemma sleeps_app (a b : list event) : sleeps (a ++ b) = sleeps a ++ sleeps b.
Proof. unfold sleeps. apply flat_map_app. Qed.

Section Find.

Context {C : Type} {base : SerializableTokenCache C}.
Variable env : Env.
Variables (credential_type : string) (kwargs : dict).

Lemma super_find_effect (s : State C) :
  let out := fst (super_find credential_type kwargs s) in
  let s' := snd (super_find credential_type kwargs s) in
  out <> OutOfFuel /\
  n_tlm (world s') = n_tlm (world s) /\
  exists r, trace (world s') = trace (world s) ++ [EvBaseFind credential_type kwargs r].
Proof.
  cbv zeta. run.
  destruct (base_find credential_type kwargs (_cache (self s))) as [[e|l] c]; cbn;
    (repeat split; [discriminate | eexists; reflexivity]).
Qed.

(** One turn of the loop of [find], for the attempt numbered [attempt]. *)
Lemma find_loop_turn (attempt : nat) (rest : list nat) (s : State C) :
  find_loop env (attempt :: rest) credential_type kwargs s =
    match _reload_if_necessary env s with
    | (Val _, s1) =>
        (entries <- super_find credential_type kwargs ;; ret (FromLookup entries)) s1
    | (Raise ex, s1) =>
        if is_Exception ex && (attempt <? retry)%nat
        then find_loop env rest credential_type kwargs (after_pause s1)
        else (Raise ex, s1)
    | (OutOfFuel, s1) => (OutOfFuel, s1)
    end.
Proof.
  cbn [find_loop].
  destruct (_reload_if_necessary env s) as [[u|ex|] s1]; try reflexivity.
  destruct (is_Exception ex); reflexivity.
Qed.

(** The loop over the attempts [first], [first + 1], ..., [retry]: it makes
    between one and [retry + 1 - first] attempts, sleeps 0.5 s after every
    attempt but the last one it makes, and ends in a lookup or an exception,
    never in the fallback. *)
(** The turn in which the reload returns: the lookup ends the call. *)
Lemma find_lookup_ends (s s1 : State C) (evs : list event) (budget : nat) :
  n_tlm (world s1) = S (n_tlm (world s)) ->
  trace (world s1) = trace (world s) ++ evs ->
  sleeps evs = [] ->
  let run := (entries <- super_find credential_type kwargs ;;
              ret (FromLookup entries)) s1 in
  fst run <> Val Fallback /\ fst run <> OutOfFuel /\
  (1 <= attempts_between s (snd run) <= S budget)%nat /\
  (exists evs', trace (world (snd run)) = trace (world s) ++ evs' /\
                sleeps evs' = repeat (1 # 2) (attempts_between s (snd run) - 1)) /\
  (forall r, fst run = Val r ->
     exists entries s2,
       r = FromLookup entries /\
       super_find credential_type kwargs s2 = (Val entries, snd run)).
Proof.
  intros Htlm Htr Hsl. cbv zeta.
  pose proof (super_find_effect s1) as Hf. cbv zeta in Hf.
  destruct Hf as (Hfuel & Hn & (r & Hev)).
  unfold bind, ret, attempts_between.
  destruct (super_find credential_type kwargs s1) as [[l|e|] s2] eqn:Ef;
    cbn [fst snd] in *; try congruence.
  all: rewrite Hn, Htlm, Hev, Htr, <- app_assoc.
  all: replace (S (n_tlm (world s)) - n_tlm (world s))%nat with 1%nat by lia.
  all: split; [discriminate|]; split; [discriminate|]; split; [lia|]; split.
  all: try (eexists; split; [reflexivity | rewrite sleeps_app, Hsl; reflexivity]).
  - intros r0 Hr0. injection Hr0 as <-. exists l, s1. split; [reflexivity | exact Ef].
  - intros r0 Hr0. discriminate.
Qed.

(** The loop over the attempts [first], [first + 1], ..., [retry]: it makes
    between one and [retry + 1 - first] attempts, sleeps 0.5 s after every
    attempt but the last one it makes, and ends in a lookup or an exception,
    never in the fallback. *)
Lemma find_loop_bounded (k : nat) :
  forall (first : nat) (s : State C),
    (first + k = retry)%nat ->
    let out := fst (find_loop env (seq first (S k)) credential_type kwargs s) in
    let s' := snd (find_loop env (seq first (S k)) credential_type kwargs s) in
    out <> Val Fallback /\ out <> OutOfFuel /\
    (1 <= attempts_between s s' <= S k)%nat /\
    (exists evs, trace (world s') = trace (world s) ++ evs /\
                 sleeps evs = repeat (1 # 2) (attempts_between s s' - 1)) /\
    (forall r, out = Val r ->
       exists entries s1,
         r = FromLookup entries /\
         super_find credential_type kwargs s1 = (Val entries, s')).
Proof.
  induction k as [|k IH]; intros first s Hk; cbv zeta.
  all: match goal with
       | |- context [seq ?a (S ?n)] =>
           change (seq a (S n)) with (a :: seq (S a) n)
       end; rewrite find_loop_turn.
  all: pose proof (reload_effect env s) as Hre; cbv zeta in Hre.
  all: destruct Hre as (Hfuel & Htlm & (evs & Htr & _ & Hsl) & _).
  all: destruct (_reload_if_necessary env s) as [[[]|ex|] s1] eqn:Er;
    cbn [fst snd] in *; try congruence.
  - apply (find_lookup_ends s s1 evs 0 Htlm Htr Hsl).
  - assert (Hlast : (first <? retry)%nat = false) by (apply Nat.ltb_ge; lia).
    rewrite Hlast, andb_false_r. cbn [fst snd]. unfold attempts_between.
    rewrite Htlm.
    replace (S (n_tlm (world s)) - n_tlm (world s))%nat with 1%nat by lia.
    split; [discriminate|]; split; [discriminate|]; split; [lia|]; split;
      [|discriminate].
    exists evs. split; [exact Htr | exact Hsl].
  - apply (find_lookup_ends s s1 evs (S k) Htlm Htr Hsl).
  - assert (Hmore : (first <? retry)%nat = true) by (apply Nat.ltb_lt; lia).
    rewrite Hmore, andb_true_r.
    destruct (is_Exception ex).
    + specialize (IH (S first) (after_pause s1)). cbv zeta in IH.
      destruct IH as (Hfb & Hof & Hatt & (evs' & Htr' & Hsl') & Hval); [lia|].
      set (s' := snd (find_loop env (seq (S first) (S k)) credential_type kwargs
                        (after_pause s1))) in *.
      assert (Hcount : attempts_between s s' = S (attempts_between (after_pause s1) s')).
      { unfold attempts_between in *. cbn [after_pause] in *.
        change (n_tlm (world (after_pause s1))) with (n_tlm (world s1)) in *.
        rewrite Htlm in *. lia. }
      split; [exact Hfb|]; split; [exact Hof|]; split; [lia|]; split;
        [|exact Hval].
      exists (evs ++ [EvDebug unable_to_load_fmt; EvSleep (1 # 2)] ++ evs').
      split.
      * rewrite Htr'. cbn. rewrite Htr, <- !app_assoc. reflexivity.
      * rewrite !sleeps_app, Hsl, Hsl', Hcount.
        destruct (attempts_between (after_pause s1) s') as [|n]; [lia|].
        cbn. rewrite Nat.sub_0_r. reflexivity.
    + cbn [fst snd]. unfold attempts_between. rewrite Htlm.
      replace (S (n_tlm (world s)) - n_tlm (world s))%nat with 1%nat by lia.
      split; [discriminate|]; split; [discriminate|]; split; [lia|]; split;
        [|discriminate].
      exists evs. split; [exact Htr | exact Hsl].
Qed.

End Find.

Section FindClaims.

Context {C : Type} {base : SerializableTokenCache C}.
Variable env : Env.
Variables (credential_type : string) (kwargs : dict).

(** [find] is [find_tagged] with the tag dropped. *)
Lemma find_untagged (s : State C) :
  find env credential_type kwargs s =
    match find_tagged env credential_type kwargs s with
    | (Val r, s') => (Val (find_value r), s')
    | (Raise e, s') => (Raise e, s')
    | (OutOfFuel, s') => (OutOfFuel, s')
    end.
Proof. reflexivity. Qed.

Lemma find_state (s : State C) :
  snd (find env credential_type kwargs s) =
  snd (find_tagged env credential_type kwargs s).
Proof.
  rewrite find_untagged.
  destruct (find_tagged env credential_type kwargs s) as [[r|e|] s']; reflexivity.
Qed.

(** A reload that returns ends [find] with the lookup. *)
Lemma find_loop_success (attempt : nat) (rest : list nat) (s s1 : State C) :
  _reload_if_necessary env s = (Val tt, s1) ->
  (r <- find_loop env (attempt :: rest) credential_type kwargs ;;
   ret (find_value r)) s = super_find credential_type kwargs s1.
Proof.
  intros Hr. unfold bind at 1. rewrite find_loop_turn, Hr.
  unfold bind, ret.
  destruct (super_find credential_type kwargs s1) as [[l|e|] s2]; reflexivity.
Qed.

(** A reload that fails with an [Exception] before the last attempt leads
    to the pause and the next attempt. *)
Lemma find_loop_retry (attempt : nat) (rest : list nat) (s s1 : State C) (e : exn) :
  _reload_if_necessary env s = (Raise e, s1) ->
  is_Exception e = true ->
  (attempt < retry)%nat ->
  (r <- find_loop env (attempt :: rest) credential_type kwargs ;;
   ret (find_value r)) s =
  (r <- find_loop env rest credential_type kwargs ;;
   ret (find_value r)) (after_pause s1).
Proof.
  intros Hr He Hlt. apply Nat.ltb_lt in Hlt.
  unfold bind at 1. rewrite find_loop_turn, Hr, He, Hlt. reflexivity.
Qed.

End FindClaims.

(** C3. A call of [find] makes at least one and at most 3 reload attempts,
    and sleeps 0.5 s after every attempt that is followed by another one,
    and at no other time.  The first reload attempt that returns ends the
    call: [find] is then the in-memory lookup, run on the state that reload
    left.  If three attempts in a row fail, the exception of the third is
    raised. *)
Theorem find_retries_then_raises :
  forall (C : Type) (base : SerializableTokenCache C) (env : Env)
         (credential_type : string) (kwargs : dict) (s : State C),
    let reload := _reload_if_necessary env in
    let lookup := super_find credential_type kwargs in
    let s' := snd (find env credential_type kwargs s) in
    (1 <= attempts_between s s' <= 3)%nat /\
    (exists evs, trace (world s') = trace (world s) ++ evs /\
                 sleeps evs = repeat (1 # 2) (attempts_between s s' - 1)) /\
    (forall s1,
        reload s = (Val tt, s1) ->
        find env credential_type kwargs s = lookup s1) /\
    (forall e1 s1 s2,
        reload s = (Raise e1, s1) -> is_Exception e1 = true ->
        reload (after_pause s1) = (Val tt, s2) ->
        find env credential_type kwargs s = lookup s2) /\
    (forall e1 e2 s1 s2 s3,
        reload s = (Raise e1, s1) -> is_Exception e1 = true ->
        reload (after_pause s1) = (Raise e2, s2) -> is_Exception e2 = true ->
        reload (after_pause s2) = (Val tt, s3) ->
        find env credential_type kwargs s = lookup s3) /\
    (forall e1 e2 e3 s1 s2 s3,
        reload s = (Raise e1, s1) -> is_Exception e1 = true ->
        reload (after_pause s1) = (Raise e2, s2) -> is_Exception e2 = true ->
        reload (after_pause s2) = (Raise e3, s3) ->
        find env credential_type kwargs s = (Raise e3, s3)).
Proof.
  intros C base env ct kw s reload lookup s'. subst reload lookup s'.
  rewrite find_state. unfold find_tagged.
  pose proof (find_loop_bounded env ct kw 2 1 s eq_refl) as Hb. cbv zeta in Hb.
  destruct Hb as (_ & _ & Hatt & Hev & _).
  split; [exact Hatt|]. split; [exact Hev|].
  unfold find, find_tagged. change (seq 1 retry) with [1; 2; 3]%nat.
  split; [|split; [|split]].
  - intros s1 H1. apply find_loop_success. exact H1.
  - intros e1 s1 s2 H1 E1 H2.
    rewrite (find_loop_retry env ct kw _ _ s s1 e1 H1 E1) by (unfold retry; lia).
    apply find_loop_success. exact H2.
  - intros e1 e2 s1 s2 s3 H1 E1 H2 E2 H3.
    rewrite (find_loop_retry env ct kw _ _ s s1 e1 H1 E1) by (unfold retry; lia).
    rewrite (find_loop_retry env ct kw _ _ _ s2 e2 H2 E2) by (unfold retry; lia).
    apply find_loop_success. exact H3.
  - intros e1 e2 e3 s1 s2 s3 H1 E1 H2 E2 H3.
    rewrite (find_loop_retry env ct kw _ _ s s1 e1 H1 E1) by (unfold retry; lia).
    rewrite (find_loop_retry env ct kw _ _ _ s2 e2 H2 E2) by (unfold retry; lia).
    unfold bind at 1. rewrite find_loop_turn, H3.
    change (3 <? retry)%nat with false. rewrite andb_false_r. reflexivity.
Qed.

Lemma find_retries_then_raises_witness :
  (let env := Demo.dirty_reads 2 in
   let s := Demo.fresh env in
   fst (find env "RefreshToken" [] s) = Val [[("RefreshToken", "{}")]]%string /\
   attempts_between s (snd (find env "RefreshToken" [] s)) = 3%nat) /\
  (let env := Demo.dirty_reads 3 in
   let s := Demo.fresh env in
   fst (find env "RefreshToken" [] s) = Raise (Exception "JSONDecodeError") /\
   sleeps (trace (world (snd (find env "RefreshToken" [] s)))) = [1 # 2; 1 # 2]).
Proof.
  split; cbv zeta.
  - pose proof (find_retries_then_raises bytes Demo.text_cache (Demo.dirty_reads 2)
                  "RefreshToken" [] (Demo.fresh (Demo.dirty_reads 2))) as H.
    cbv zeta in H. destruct H as (_ & _ & _ & _ & H3 & _).
    set (env := Demo.dirty_reads 2) in *. set (s := Demo.fresh env) in *.
    set (s1 := snd (_reload_if_necessary env s)).
    set (s2 := snd (_reload_if_necessary env (after_pause s1))).
    set (s3 := snd (_reload_if_necessary env (after_pause s2))).
    assert (E1 : _reload_if_necessary env s = (Raise (Exception "JSONDecodeError"), s1))
      by (vm_compute; reflexivity).
    assert (E2 : _reload_if_necessary env (after_pause s1)
                 = (Raise (Exception "JSONDecodeError"), s2))
      by (vm_compute; reflexivity).
    assert (E3 : _reload_if_necessary env (after_pause s2) = (Val tt, s3))
      by (vm_compute; reflexivity).
    rewrite (H3 _ _ s1 s2 s3 E1 eq_refl E2 eq_refl E3).
    split; vm_compute; reflexivity.
  - pose proof (find_retries_then_raises bytes Demo.text_cache (Demo.dirty_reads 3)
                  "RefreshToken" [] (Demo.fresh (Demo.dirty_reads 3))) as H.
    cbv zeta in H. destruct H as (_ & _ & _ & _ & _ & H4).
    set (env := Demo.dirty_reads 3) in *. set (s := Demo.fresh env) in *.
    set (s1 := snd (_reload_if_necessary env s)).
    set (s2 := snd (_reload_if_necessary env (after_pause s1))).
    set (s3 := snd (_reload_if_necessary env (after_pause s2))).
    assert (E1 : _reload_if_necessary env s = (Raise (Exception "JSONDecodeError"), s1))
      by (vm_compute; reflexivity).
    assert (E2 : _reload_if_necessary env (after_pause s1)
                 = (Raise (Exception "JSONDecodeError"), s2))
      by (vm_compute; reflexivity).
    assert (E3 : _reload_if_necessary env (after_pause s2)
                 = (Raise (Exception "JSONDecodeError"), s3))
      by (vm_compute; reflexivity).
    rewrite (H4 _ _ _ s1 s2 s3 E1 eq_refl E2 eq_refl E3).
    split; vm_compute; reflexivity.
Defined.

(** C10. [find] never takes the [return []] after its loop.  Every call
    either raises, or returns the list that the in-memory lookup returned,
    that lookup being the last thing the call did; the model never runs out
    of fuel on it. *)
Theorem find_fallback_is_unreachable :
  forall (C : Type) (base : SerializableTokenCache C) (env : Env)
         (credential_type : string) (kwargs : dict) (s : State C),
    let tagged := find_tagged env credential_type kwargs s in
    let result := find env credential_type kwargs s in
    fst tagged <> Val Fallback /\
    fst result <> OutOfFuel /\
    (forall entries,
        fst result = Val entries ->
        fst tagged = Val (FromLookup entries) /\
        exists s1, super_find credential_type kwargs s1 = (Val entries, snd result)).
Proof.
  intros C base env ct kw s tagged result. subst tagged result.
  rewrite find_untagged. unfold find_tagged.
  pose proof (find_loop_bounded env ct kw 2 1 s eq_refl) as Hb. cbv zeta in Hb.
  destruct Hb as (Hfb & Hof & _ & _ & Hval).
  change (seq 1 retry) with (seq 1 3).
  destruct (find_loop env (seq 1 3) ct kw s) as [[r|e|] s'] eqn:E;
    cbn [fst snd] in *.
  - split; [exact Hfb|]. split; [discriminate|].
    intros entries Hent. injection Hent as <-.
    destruct (Hval r eq_refl) as (entries & s1 & -> & Hlook).
    split; [reflexivity|]. exists s1. exact Hlook.
  - split; [discriminate|]. split; [discriminate|]. intros entries Hent. discriminate.
  - congruence.
Qed.

Lemma find_fallback_is_unreachable_witness :
  let s := Demo.fresh Demo.quiet in
  fst (find Demo.quiet "RefreshToken" [] s) = Val [[("RefreshToken", "{}")]]%string /\
  fst (find_tagged Demo.quiet "RefreshToken" [] s)
  = Val (FromLookup [[("RefreshToken", "{}")]]%string).
Proof.
  cbv zeta.
  pose proof (find_fallback_is_unreachable bytes Demo.text_cache Demo.quiet
                "RefreshToken" [] (Demo.fresh Demo.quiet)) as H.
  cbv zeta in H. destruct H as (_ & _ & Hval).
  assert (Hfind : fst (find Demo.quiet "RefreshToken" [] (Demo.fresh Demo.quiet))
                  = Val [[("RefreshToken", "{}")]]%string)
    by (vm_compute; reflexivity).
  split; [exact Hfind | exact (proj1 (Hval _ Hfind))].
Defined.

(** ** CrossPlatLock._create_lock_file *)

Lemma sleeps_waiting_events (env : Env) (lockpath : string) (rounds : nat) :
  forall k, sleeps (waiting_events env lockpath k rounds) = repeat check_interval rounds.
Proof.
  induction rounds as [|n IH]; intros k; cbn [waiting_events].
  - unfold EvClock. destruct (has_monotonic env); reflexivity.
  - rewrite sleeps_app, IH. unfold EvClock. destruct (has_monotonic env); reflexivity.
Qed.

Section Acquire.

Context {C : Type} {base : SerializableTokenCache C}.
Variable env : Env.
Variables (lockpath : string) (content : bytes).

(** Reading the clock. *)
Lemma current_time_effect (s : State C) :
  current_time env s =
    (Val (clock env (n_clock env (world s))),
     mkState (self s)
       (log (EvClock env (clock env (n_clock env (world s))))
            (if has_monotonic env then tick_monotonic (world s)
             else tick_time (world s)))).
Proof.
  unfold current_time, clock, n_clock, EvClock.
  destruct (has_monotonic env); reflexivity.
Qed.

(** The loop on a lock file that stays in place: [rounds] tests find the
    deadline ahead and are followed by a failed attempt and a wait of
    [check_interval]; the next test finds the deadline passed. *)
Lemma lock_loop_waits (deadline : Q) (rounds : nat) :
  forall (fuel : nat) (s : State C),
    (forall i, (i < rounds)%nat ->
               os_open_x env (n_open (world s) + i) = Some FileExistsError) ->
    (forall i, (i < rounds)%nat ->
               clock env (n_clock env (world s) + i) < deadline) ->
    deadline <= clock env (n_clock env (world s) + rounds) ->
    (rounds < fuel)%nat ->
    exists s',
      lock_loop env fuel lockpath content deadline s
        = (Raise (LockError (stale_message lockpath)), s') /\
      self s' = self s /\
      n_open (world s') = (n_open (world s) + rounds)%nat /\
      n_write (world s') = n_write (world s) /\
      n_remove (world s') = n_remove (world s) /\
      trace (world s') =
        trace (world s) ++
          waiting_events env lockpath (n_clock env (world s)) rounds.
Proof.
  induction rounds as [|n IH]; intros fuel s Hopen Hbefore Hreach Hfuel.
  - destruct fuel as [|fuel]; [lia|].
    cbn [lock_loop]. unfold bind at 1. rewrite current_time_effect.
    rewrite Nat.add_0_r in Hreach. apply Qltb_ge in Hreach. rewrite Hreach.
    eexists. split; [reflexivity|]. cbn.
    rewrite Nat.add_0_r.
    destruct (has_monotonic env); repeat split; reflexivity.
  - destruct fuel as [|fuel]; [lia|].
    cbn [lock_loop]. unfold bind at 1. rewrite current_time_effect.
    pose proof (Hbefore 0%nat ltac:(lia)) as H0. rewrite Nat.add_0_r in H0.
    apply Qltb_lt in H0. rewrite H0.
    pose proof (Hopen 0%nat ltac:(lia)) as Ho. rewrite Nat.add_0_r in Ho.
    set (s1 := mkState (self s)
                 (log (EvSleep check_interval)
                    (log (EvDebug found_lock_fmt)
                       (log (EvOpenX lockpath (Some FileExistsError))
                          (tick_open
                             (log (EvClock env (clock env (n_clock env (world s))))
                                (if has_monotonic env then tick_monotonic (world s)
                                 else tick_time (world s)))))))).
    assert (Hstep :
      try_except
        (call_open_x env lockpath;; call_write env content;; ret ())
        (fun ex : exn =>
           if is_ValueError ex
           then raise (LockError python2_message)
           else
             if is_FileExistsError ex
             then
               debug found_lock_fmt;;
               sleep check_interval;; lock_loop env fuel lockpath content deadline
             else raise ex)
        (mkState (self s)
           (log (EvClock env (clock env (n_clock env (world s))))
              (if has_monotonic env then tick_monotonic (world s)
               else tick_time (world s))))
      = lock_loop env fuel lockpath content deadline s1).
    { unfold s1. destruct (has_monotonic env); run; cbn; rewrite Ho; reflexivity. }
    rewrite Hstep.
    assert (Hk : n_clock env (world s1) = S (n_clock env (world s))).
    { unfold s1, n_clock. destruct (has_monotonic env); reflexivity. }
    assert (Hno : n_open (world s1) = S (n_open (world s))).
    { unfold s1. destruct (has_monotonic env); reflexivity. }
    destruct (IH fuel s1) as (s' & Hrun & Hself & Hn & Hw & Hr & Htr).
    + intros i Hi. rewrite Hno. rewrite <- (Hopen (S i)) by lia. f_equal. lia.
    + intros i Hi. rewrite Hk.
      replace (S (n_clock env (world s)) + i)%nat
        with (n_clock env (world s) + S i)%nat by lia.
      apply Hbefore. lia.
    + rewrite Hk.
      replace (S (n_clock env (world s)) + n)%nat
        with (n_clock env (world s) + S n)%nat by lia.
      exact Hreach.
    + lia.
    + exists s'. split; [exact Hrun|].
      split; [rewrite Hself; reflexivity|].
      split; [rewrite Hn, Hno; lia|].
      split; [rewrite Hw; unfold s1; destruct (has_monotonic env); reflexivity|].
      split; [rewrite Hr; unfold s1; destruct (has_monotonic env); reflexivity|].
      rewrite Htr, Hk. cbn [waiting_events].
      unfold s1. cbn. 
      destruct (has_monotonic env); cbn; rewrite <- !app_assoc; reflexivity.
Qed.

End Acquire.

(** A clock that ever reaches the deadline has a first loop test at which
    it does. *)
Lemma deadline_first_reached (env : Env) (deadline : Q) (k later : nat) :
  deadline <= clock env (k + later) ->
  exists rounds,
    (rounds <= later)%nat /\
    (forall i, (i < rounds)%nat -> clock env (k + i) < deadline) /\
    deadline <= clock env (k + rounds).
Proof.
  revert k. induction later as [|m IH]; intros k Hreach.
  - exists 0%nat. split; [lia|]. split; [intros i Hi; lia | exact Hreach].
  - destruct (Qlt_le_dec (clock env k) deadline) as [Hlt|Hge].
    + destruct (IH (S k)) as (r & Hr & Hbefore & Hat).
      { replace (S k + m)%nat with (k + S m)%nat by lia. exact Hreach. }
      exists (S r). split; [lia|]. split.
      * intros i Hi. destruct i as [|i].
        -- rewrite Nat.add_0_r. exact Hlt.
        -- replace (k + S i)%nat with (S k + i)%nat by lia. apply Hbefore. lia.
      * replace (k + S r)%nat with (S k + r)%nat by lia. exact Hat.
    + exists 0%nat. split; [lia|]. split; [intros i Hi; lia|].
      rewrite Nat.add_0_r. exact Hge.
Qed.

(** C5, as the code has it.  Let the clock read [t0] when
    [_create_lock_file] starts, let the deadline be [timeout_end], the float
    sum [t0 + 5] as binary64 addition rounds it, and let [rounds] be the
    number of loop tests that read the clock before the deadline, the test
    after them reading it at or past the deadline.  If every creation
    attempt of the call fails with [FileExistsError], the call makes exactly
    [rounds] attempts, sleeps 0.25 s after each of them, and then raises the
    [LockError] that suggests removing the stale lock file.  At least one
    attempt is made if the first loop test reads the clock before the
    deadline. *)
Theorem lock_acquisition_times_out :
  forall (C : Type) (base : SerializableTokenCache C) (env : Env)
         (lockpath : string) (content : bytes) (s : State C) (rounds fuel : nat),
    let k0 := n_clock env (world s) in
    let deadline := float_add (clock env k0) timeout in
    (forall i, (i < rounds)%nat ->
               os_open_x env (n_open (world s) + i) = Some FileExistsError) ->
    (forall i, (i < rounds)%nat -> clock env (S k0 + i) < deadline) ->
    deadline <= clock env (S k0 + rounds) ->
    (rounds < fuel)%nat ->
    let out := fst (_create_lock_file env fuel lockpath content s) in
    let s' := snd (_create_lock_file env fuel lockpath content s) in
    out = Raise (LockError (stale_message lockpath)) /\
    n_open (world s') = (n_open (world s) + rounds)%nat /\
    trace (world s') =
      trace (world s) ++
        EvClock env (clock env k0) :: waiting_events env lockpath (S k0) rounds /\
    sleeps (EvClock env (clock env k0) :: waiting_events env lockpath (S k0) rounds)
      = repeat check_interval rounds /\
    (clock env (S k0) < deadline -> (1 <= rounds)%nat).
Proof.
  intros C base env lockpath content s rounds fuel k0 deadline
         Hopen Hbefore Hreach Hfuel out s'.
  subst out s'.
  set (s1 := mkState (self s)
               (log (EvClock env (clock env k0))
                  (if has_monotonic env then tick_monotonic (world s)
                   else tick_time (world s)))).
  assert (Hstart : _create_lock_file env fuel lockpath content s
                   = lock_loop env fuel lockpath content deadline s1).
  { unfold _create_lock_file, bind. rewrite current_time_effect. reflexivity. }
  rewrite Hstart.
  assert (Hk : n_clock env (world s1) = S k0).
  { unfold s1, k0, n_clock. destruct (has_monotonic env); reflexivity. }
  assert (Hno : n_open (world s1) = n_open (world s)).
  { unfold s1. destruct (has_monotonic env); reflexivity. }
  destruct (lock_loop_waits env lockpath content deadline rounds fuel s1)
    as (s' & Hrun & _ & Hn & _ & _ & Htr).
  - intros i Hi. rewrite Hno. apply Hopen. exact Hi.
  - intros i Hi. rewrite Hk. apply Hbefore. exact Hi.
  - rewrite Hk. exact Hreach.
  - exact Hfuel.
  - rewrite Hrun. cbn [fst snd].
    split; [reflexivity|]. split; [rewrite Hn, Hno; reflexivity|].
    split; [|split].
    + rewrite Htr, Hk. unfold s1. cbn. rewrite <- app_assoc.
      destruct (has_monotonic env); reflexivity.
    + change (EvClock env (clock env k0) :: waiting_events env lockpath (S k0) rounds)
        with ([EvClock env (clock env k0)] ++ waiting_events env lockpath (S k0) rounds).
      rewrite sleeps_app, sleeps_waiting_events.
      unfold EvClock. destruct (has_monotonic env); reflexivity.
    + intros Hfirst. destruct rounds as [|r]; [|lia].
      exfalso. rewrite Nat.add_0_r in Hreach. apply (Qlt_not_le _ _ Hfirst Hreach).
Qed.

Lemma lock_acquisition_times_out_witness :
  let s := Demo.fresh Demo.stale in
  let run := _create_lock_file Demo.stale 30 "/tmp/cache.bin.lockfile" "4242 app.py" s in
  fst run = Raise (LockError (stale_message "/tmp/cache.bin.lockfile")) /\
  n_open (world (snd run)) = 20%nat /\
  sleeps (trace (world (snd run))) = repeat (1 # 4) 20.
Proof.
  cbv zeta.
  assert (Hopen : forall i, (i < 20)%nat ->
            os_open_x Demo.stale (n_open (world (Demo.fresh Demo.stale)) + i)
            = Some FileExistsError) by (intros; reflexivity).
  assert (Hbefore : forall i, (i < 20)%nat ->
            clock Demo.stale (S (n_clock Demo.stale (world (Demo.fresh Demo.stale))) + i)
            < float_add
                (clock Demo.stale (n_clock Demo.stale (world (Demo.fresh Demo.stale))))
                timeout).
  { intros i Hi.
    do 20 (destruct i as [|i]; [vm_compute; reflexivity|]). lia. }
  assert (Hreach :
            float_add
              (clock Demo.stale (n_clock Demo.stale (world (Demo.fresh Demo.stale))))
              timeout
            <= clock Demo.stale
                 (S (n_clock Demo.stale (world (Demo.fresh Demo.stale))) + 20)).
  { vm_compute. discriminate. }
  pose proof (lock_acquisition_times_out bytes Demo.text_cache Demo.stale
                "/tmp/cache.bin.lockfile" "4242 app.py" (Demo.fresh Demo.stale)
                20 30 Hopen Hbefore Hreach ltac:(lia)) as H.
  cbv zeta in H. destruct H as (Hout & Hn & Htr & Hsl & _).
  split; [exact Hout|]. split; [rewrite Hn; reflexivity|].
  rewrite Htr, sleeps_app. rewrite Hsl. reflexivity.
Defined.

(** C5 as stated fails: on a stale lock file, with 5 s passing between the
    first two readings of the clock, the acquisition raises [LockError]
    without having made a single creation attempt. *)
Lemma lock_acquisition_without_attempt :
  let s := Demo.fresh Demo.stale_suspended in
  let run := _create_lock_file Demo.stale_suspended 30
               "/tmp/cache.bin.lockfile" "4242 app.py" s in
  (forall i, os_open_x Demo.stale_suspended i = Some FileExistsError) /\
  fst run = Raise (LockError (stale_message "/tmp/cache.bin.lockfile")) /\
  n_open (world (snd run)) = n_open (world s) /\
  trace (world (snd run)) = trace (world s) ++ [EvMonotonic 0; EvMonotonic 5].
Proof.
  cbv zeta. split; [intros i; reflexivity|].
  split; [vm_compute; reflexivity|]. split; vm_compute; reflexivity.
Qed.

(** The deadline is the rounded sum.  The clock reads the float 0.1 when
    [_create_lock_file] starts and the float 5.1 at the first loop test:
    the exact sum of 0.1 and 5 is above 5.1, the float sum is 5.1, and the
    acquisition gives up without an attempt, as [0.1 + 5 > 5.1] is [False]
    in Python. *)
Lemma lock_deadline_is_rounded :
  let s := Demo.fresh Demo.stale_rounding in
  let run := _create_lock_file Demo.stale_rounding 30
               "/tmp/cache.bin.lockfile" "4242 app.py" s in
  Demo.float_5_1 < Demo.float_0_1 + timeout /\
  float_add Demo.float_0_1 timeout = Demo.float_5_1 /\
  fst run = Raise (LockError (stale_message "/tmp/cache.bin.lockfile")) /\
  trace (world (snd run)) =
    trace (world s) ++ [EvMonotonic Demo.float_0_1; EvMonotonic Demo.float_5_1].
Proof.
  cbv zeta. split; [reflexivity|]. split; [vm_compute; reflexivity|].
  split; vm_compute; reflexivity.
Qed.

(** ** modify *)

Section Modify.

Context {C : Type} {base : SerializableTokenCache C}.
Variable env : Env.

(** One turn of the loop of [_create_lock_file]. *)
Lemma lock_loop_turn (fuel : nat) (lockpath : string) (content : bytes)
    (deadline : Q) (s : State C) :
  let t := clock env (n_clock env (world s)) in
  let s0 := snd (current_time env s) in
  let r := os_open_x env (n_open (world s)) in
  let s1 := mkState (self s) (log (EvOpenX lockpath r) (tick_open (world s0))) in
  let r2 := file_write env (n_write (world s)) in
  let s2 := mkState (self s) (log (EvWrite content r2) (tick_write (world s1))) in
  let handle ex s3 :=
    if is_ValueError ex then (Raise (LockError python2_message), s3)
    else if is_FileExistsError ex then
      lock_loop env fuel lockpath content deadline
        (mkState (self s)
           (log (EvSleep check_interval) (log (EvDebug found_lock_fmt) (world s3))))
    else (Raise ex, s3) in
  lock_loop env (S fuel) lockpath content deadline s =
    if Qltb t deadline then
      match r with
      | Some ex => handle ex s1
      | None =>
          match r2 with
          | Some ex => handle ex s2
          | None => (Val tt, s2)
          end
      end
    else (Raise (LockError (stale_message lockpath)), s0).
Proof.
  cbv zeta. cbn [lock_loop]. unfold bind at 1. rewrite current_time_effect.
  cbn [snd]. unfold clock, n_clock, EvClock.
  destruct (has_monotonic env);
    (destruct (Qltb _ deadline); [|reflexivity]);
    run; cbn;
    (destruct (os_open_x env (n_open (world s))) as [ex|]; cbn;
     [|destruct (file_write env (n_write (world s))) as [ex|]; cbn; [|reflexivity]]);
    (destruct (is_ValueError ex); [reflexivity|]);
    destruct (is_FileExistsError ex); reflexivity.
Qed.

(** A successful acquisition ends with the creation of the lock file and
    the write of its content; before that there are only clock readings,
    failed attempts, debug lines and waits.  The cache object is not
    touched, and neither are the backend and [os.remove]. *)
Lemma lock_loop_acquired (lockpath : string) (content : bytes) (deadline : Q)
    (fuel : nat) :
  forall (s s1 : State C),
    lock_loop env fuel lockpath content deadline s = (Val tt, s1) ->
    self s1 = self s /\
    (n_time (world s) <= n_time (world s1))%nat /\
    n_remove (world s1) = n_remove (world s) /\
    n_tlm (world s1) = n_tlm (world s) /\
    exists acq,
      trace (world s1) =
        trace (world s) ++ acq ++ [EvOpenX lockpath None; EvWrite content None] /\
      forallb is_acquire_event acq = true.
Proof.
  induction fuel as [|fuel IH]; intros s s1 Hrun; [discriminate|].
  rewrite lock_loop_turn in Hrun. cbv zeta in Hrun.
  rewrite current_time_effect in Hrun. cbn [snd world self] in Hrun.
  destruct (Qltb _ deadline); [|discriminate].
  set (w0 := if has_monotonic env then tick_monotonic (world s)
             else tick_time (world s)) in *.
  assert (Hw0 : (n_time (world s) <= n_time w0)%nat /\ n_remove w0 = n_remove (world s) /\
                n_tlm w0 = n_tlm (world s) /\ trace w0 = trace (world s)).
  { unfold w0. destruct (has_monotonic env); cbn; repeat split; lia. }
  destruct Hw0 as (Ht0 & Hr0 & Htl0 & Htr0).
  assert (Hclock : is_acquire_event (EvClock env (clock env (n_clock env (world s))))
                   = true).
  { unfold EvClock. destruct (has_monotonic env); reflexivity. }
  destruct (os_open_x env (n_open (world s))) as [ex|] eqn:Eo.
  - destruct (is_ValueError ex); [discriminate|].
    destruct (is_FileExistsError ex); [|discriminate].
    apply IH in Hrun. cbn in Hrun.
    destruct Hrun as (Hs & Ht & Hr & Htl & acq & Htr & Hacq).
    split; [exact Hs|]. split; [lia|]. split; [congruence|]. split; [congruence|].
    exists ([EvClock env (clock env (n_clock env (world s)));
             EvOpenX lockpath (Some ex); EvDebug found_lock_fmt;
             EvSleep check_interval] ++ acq).
    split.
    + rewrite Htr, Htr0, <- !app_assoc. reflexivity.
    + cbn. rewrite Hclock, Hacq. reflexivity.
  - destruct (file_write env (n_write (world s))) as [ex|] eqn:Ew.
    + destruct (is_ValueError ex); [discriminate|].
      destruct (is_FileExistsError ex); [|discriminate].
      apply IH in Hrun. cbn in Hrun.
      destruct Hrun as (Hs & Ht & Hr & Htl & acq & Htr & Hacq).
      split; [exact Hs|]. split; [lia|]. split; [congruence|]. split; [congruence|].
      exists ([EvClock env (clock env (n_clock env (world s)));
               EvOpenX lockpath None; EvWrite content (Some ex);
               EvDebug found_lock_fmt; EvSleep check_interval] ++ acq).
      split.
      * rewrite Htr, Htr0, <- !app_assoc. reflexivity.
      * cbn. rewrite Hclock, Hacq. reflexivity.
    + injection Hrun as <-. cbn.
      split; [reflexivity|]. split; [lia|]. split; [congruence|]. split; [congruence|].
      exists [EvClock env (clock env (n_clock env (world s)))]. split.
      * rewrite Htr0, <- !app_assoc. reflexivity.
      * cbn. rewrite Hclock. reflexivity.
Qed.

Lemma enter_acquired (fuel : nat) (lockpath : string) (s s1 : State C) :
  __enter__ env fuel lockpath s = (Val tt, s1) ->
  self s1 = self s /\
  (n_time (world s) <= n_time (world s1))%nat /\
  n_remove (world s1) = n_remove (world s) /\
  n_tlm (world s1) = n_tlm (world s) /\
  exists acq,
    trace (world s1) =
      trace (world s) ++ acq ++ [EvOpenX lockpath None; EvWrite (lock_content env) None] /\
    forallb is_acquire_event acq = true.
Proof.
  unfold __enter__, _create_lock_file, bind. rewrite current_time_effect.
  intros Hrun. apply lock_loop_acquired in Hrun. cbn [self world] in Hrun.
  destruct Hrun as (Hs & Ht & Hr & Htl & acq & Htr & Hacq).
  assert (Hclock : is_acquire_event (EvClock env (clock env (n_clock env (world s))))
                   = true).
  { unfold EvClock. destruct (has_monotonic env); reflexivity. }
  split; [exact Hs|].
  split; [destruct (has_monotonic env); cbn in *; lia|].
  split; [destruct (has_monotonic env); cbn in *; lia|].
  split; [destruct (has_monotonic env); cbn in *; lia|].
  exists (EvClock env (clock env (n_clock env (world s))) :: acq). split.
  - rewrite Htr. cbn. rewrite <- !app_assoc.
    destruct (has_monotonic env); reflexivity.
  - cbn. rewrite Hclock, Hacq. reflexivity.
Qed.

(** [modify], once the lock is acquired, is the body followed by the
    release; without the lock nothing else happens. *)
Lemma modify_unfold (fuel : nat) (credential_type : string) (old_entry : option dict)
    (new_key_value_pairs : option dict) (s : State C) :
  modify env fuel credential_type old_entry new_key_value_pairs s =
    match __enter__ env fuel (_lock_location (self s)) s with
    | (Val _, s1) =>
        leave env (_lock_location (self s))
          (modify_body env credential_type old_entry new_key_value_pairs s1)
    | (Raise e, s1) => (Raise e, s1)
    | (OutOfFuel, s1) => (OutOfFuel, s1)
    end.
Proof. reflexivity. Qed.

(** Leaving the [with] statement: the removal of the lock file is the next
    external call, whatever the body did, and only a debug line can follow
    it. *)
Lemma leave_removes {A} (lockpath : string) (out : outcome A) (s2 : State C) :
  out <> OutOfFuel ->
  let r := os_remove env (n_remove (world s2)) in
  let s' := snd (leave env lockpath (out, s2)) in
  self s' = self s2 /\
  n_remove (world s') = S (n_remove (world s2)) /\
  n_time (world s') = n_time (world s2) /\
  (trace (world s') = trace (world s2) ++ [EvRemove lockpath r] \/
   trace (world s') =
     trace (world s2) ++ [EvRemove lockpath r; EvDebug unable_to_remove_fmt]) /\
  (forall e, out = Raise e -> exists e', fst (leave env lockpath (out, s2)) = Raise e').
Proof.
  intros Hfuel. cbv zeta. unfold leave.
  destruct out as [a|e|]; [| |congruence]; unfold bind; rewrite exit_cases;
    cbv zeta.
  all: destruct (os_remove env (n_remove (world s2))) as [[| |errno| | |]|];
    try (destruct (Z.eqb errno ENOENT || Z.eqb errno EACCES)); cbn.
  all: split; [reflexivity|]; split; [reflexivity|]; split; [reflexivity|].
  all: split; [first [left; reflexivity
                     | right; rewrite <- app_assoc; reflexivity]|].
  all: intros e0 He0; try discriminate; eexists; reflexivity.
Qed.

(** The statements after the reload.  Either one of the mutation, the
    serialization and the save raises, and then [time.time()] is not called
    and [_last_sync] is not assigned; or all of them return, and then
    [_last_sync] is the reading of the wall clock taken after the save. *)
Lemma mutate_and_flush_effect (credential_type : string) (old_entry : option dict)
    (new_key_value_pairs : option dict) (t : State C) :
  let run := mutate_and_flush env credential_type old_entry new_key_value_pairs t in
  let now := time_time env (n_time (world t)) in
  _lock_location (self (snd run)) = _lock_location (self t) /\
  n_remove (world (snd run)) = n_remove (world t) /\
  (exists evs, trace (world (snd run)) = trace (world t) ++ evs /\
               forallb is_flush_event evs = true) /\
  ((exists e, fst run = Raise e /\
              _last_sync (self (snd run)) = _last_sync (self t) /\
              n_time (world (snd run)) = n_time (world t)) \/
   (fst run = Val tt /\
    _last_sync (self (snd run)) = now /\
    n_time (world (snd run)) = S (n_time (world t)) /\
    exists data,
      trace (world (snd run)) =
        trace (world t) ++
          [EvBaseModify credential_type old_entry new_key_value_pairs None;
           EvSerialize (inr data); EvSave data None; EvTime now])).
Proof.
  cbv zeta. unfold mutate_and_flush. run.
  destruct (base_modify credential_type old_entry new_key_value_pairs
              (_cache (self t))) as [[e|] c]; cbn;
    [|destruct (base_serialize c) as [[e|data] c']; cbn;
      [|destruct (p_save env (n_save (world t))) as [e|]; cbn]].
  all: split; [reflexivity|]; split; [reflexivity|]; split;
    [eexists; split; [rewrite <- ?app_assoc; reflexivity | reflexivity]|].
  1-3: left; eexists; repeat split; reflexivity.
  right. split; [reflexivity|]. split; [reflexivity|]. split; [reflexivity|].
  exists data. rewrite <- !app_assoc. reflexivity.
Qed.

(** The log and the in-memory cache of a reload are the expected ones,
    whatever its outcome. *)
Lemma reload_log (s : State C) :
  let s' := snd (_reload_if_necessary env s) in
  trace (world s') = trace (world s) ++ reload_events env s /\
  _cache (self s') = reloaded_cache env s.
Proof.
  cbv zeta. unfold _reload_if_necessary, reload_events, reloaded_cache. run.
  destruct (p_time_last_modified env (n_tlm (world s))) as [e|t]; cbn;
    [destruct (is_PersistenceNotFound e)
    |destruct (Qltb (_last_sync (self s)) t); cbn;
     [destruct (p_load env (n_load (world s))) as [e|data]; cbn;
      [destruct (is_PersistenceNotFound e)
      |destruct (base_deserialize data (_cache (self s))) as [[e|] c]; cbn;
       [destruct (is_PersistenceNotFound e)|]]
     |]];
    cbn; (split; [rewrite <- ?app_assoc; reflexivity | reflexivity]).
Qed.

(** The statements after the reload, when all of them return: the base
    class mutated the cache it was given and serialized the result, the
    backend saved these data, and the wall clock was read after the save. *)
Lemma mutate_and_flush_returns (credential_type : string) (old_entry : option dict)
    (new_key_value_pairs : option dict) (t : State C) :
  let run := mutate_and_flush env credential_type old_entry new_key_value_pairs t in
  let mutation :=
    base_modify credential_type old_entry new_key_value_pairs (_cache (self t)) in
  let now := time_time env (n_time (world t)) in
  fst run = Val tt ->
  fst mutation = None /\
  exists data,
    fst (base_serialize (snd mutation)) = inr data /\
    trace (world (snd run)) =
      trace (world t) ++
        [EvBaseModify credential_type old_entry new_key_value_pairs None;
         EvSerialize (inr data); EvSave data None; EvTime now] /\
    _cache (self (snd run)) = snd (base_serialize (snd mutation)) /\
    _last_sync (self (snd run)) = now /\
    n_time (world (snd run)) = S (n_time (world t)).
Proof.
  cbv zeta. unfold mutate_and_flush. run.
  destruct (base_modify credential_type old_entry new_key_value_pairs
              (_cache (self t))) as [[e|] c]; cbn;
    [discriminate|destruct (base_serialize c) as [[e|data] c']; cbn;
      [discriminate|destruct (p_save env (n_save (world t))) as [e|]; cbn;
                    [discriminate|]]].
  intros _. split; [reflexivity|]. exists data.
  split; [reflexivity|]. split; [rewrite <- !app_assoc; reflexivity|].
  split; [reflexivity|]. split; reflexivity.
Qed.

(** The body of the [with] statement of [modify] logs only events of the
    reload and of the statements after it, and does not run out of fuel. *)
Lemma modify_body_events (credential_type : string) (old_entry : option dict)
    (new_key_value_pairs : option dict) (s1 : State C) :
  let body := modify_body env credential_type old_entry new_key_value_pairs s1 in
  fst body <> OutOfFuel /\
  exists body_evs,
    trace (world (snd body)) = trace (world s1) ++ body_evs /\
    forallb (fun ev => is_reload_event ev || is_flush_event ev) body_evs = true.
Proof.
  cbv zeta. unfold modify_body, bind.
  pose proof (reload_effect env s1) as Hre. cbv zeta in Hre.
  destruct Hre as (Hfuel & _ & (revs & Hrtr & Hrevs & _) & _).
  assert (Hweak : forallb (fun ev => is_reload_event ev || is_flush_event ev) revs
                  = true).
  { apply forallb_forall. intros ev Hin.
    rewrite forallb_forall in Hrevs. rewrite (Hrevs ev Hin). reflexivity. }
  destruct (_reload_if_necessary env s1) as [[[]|e|] s2] eqn:Er;
    cbn [fst snd] in *; [| |congruence].
  - pose proof (mutate_and_flush_effect credential_type old_entry
                  new_key_value_pairs s2) as Hmf.
    cbv zeta in Hmf.
    destruct Hmf as (_ & _ & (fevs & Hftr & Hfevs) & Hcase).
    split.
    { destruct Hcase as [(e & He & _) | (Hv & _)]; rewrite ?He, ?Hv; discriminate. }
    exists (revs ++ fevs). split.
    + rewrite Hftr, Hrtr, <- app_assoc. reflexivity.
    + rewrite forallb_app, Hweak. cbn. apply forallb_forall. intros ev Hin.
      rewrite forallb_forall in Hfevs. rewrite (Hfevs ev Hin). apply orb_true_r.
  - split; [discriminate|]. exists revs. split; [exact Hrtr | exact Hweak].
Qed.

End Modify.

(** C2. In a call of [modify] that acquires the lock, the external calls
    happen in this order: the acquisition, which ends with the creation of
    the lock file and the write of its content; the body of the [with]
    statement; the removal of the lock file, which is attempted whatever the
    body did, also when it raised.  When every step of the body returns, the
    body is, in this order: the reload, which asks the backend for its
    modification time and loads and deserializes it when it is newer than
    [_last_sync]; the mutation by the base class of the cache the reload
    left; the serialization of the mutated cache; the save of exactly these
    data; and the reading of the wall clock that becomes [_last_sync]. *)
Theorem modify_runs_in_order :
  forall (C : Type) (base : SerializableTokenCache C) (env : Env) (fuel : nat)
         (credential_type : string) (old_entry : option dict)
         (new_key_value_pairs : option dict) (s s1 : State C),
    let path := _lock_location (self s) in
    __enter__ env fuel path s = (Val tt, s1) ->
    let body := modify_body env credential_type old_entry new_key_value_pairs s1 in
    let s' := snd (modify env fuel credential_type old_entry new_key_value_pairs s) in
    let removal := os_remove env (n_remove (world s)) in
    (exists acq,
        trace (world s1) =
          trace (world s) ++ acq ++ [EvOpenX path None; EvWrite (lock_content env) None] /\
        forallb is_acquire_event acq = true) /\
    (exists body_evs,
        trace (world (snd body)) =
          trace (world s1) ++
            EvTimeLastModified (p_time_last_modified env (n_tlm (world s1))) :: body_evs /\
        forallb (fun ev => is_reload_event ev || is_flush_event ev) body_evs = true) /\
    (exists rest,
        trace (world s') = trace (world (snd body)) ++ EvRemove path removal :: rest /\
        (rest = [] \/ rest = [EvDebug unable_to_remove_fmt])) /\
    n_remove (world s') = S (n_remove (world s)) /\
    (fst body = Val tt ->
     let mutation :=
       base_modify credential_type old_entry new_key_value_pairs
         (reloaded_cache env s1) in
     let now := time_time env (Nat.pred (n_time (world s'))) in
     exists data rest,
       (rest = [] \/ rest = [EvDebug unable_to_remove_fmt]) /\
       fst mutation = None /\
       fst (base_serialize (snd mutation)) = inr data /\
       trace (world s') =
         trace (world s1) ++ reload_events env s1 ++
           [EvBaseModify credential_type old_entry new_key_value_pairs None;
            EvSerialize (inr data); EvSave data None; EvTime now;
            EvRemove path removal] ++ rest /\
       _cache (self s') = snd (base_serialize (snd mutation)) /\
       _last_sync (self s') = now).
Proof.
  intros C base env fuel ct old new s s1 path Henter body s' removal.
  pose proof (enter_acquired env fuel path s s1 Henter)
    as (Hself1 & _ & Hrem1 & _ & Hacq).
  subst s'. rewrite modify_unfold. fold path. rewrite Henter. fold body.
  (* the body *)
  pose proof (reload_effect env s1) as Hre. cbv zeta in Hre.
  destruct Hre as (Hfuel & _ & (revs & Hrtr & Hrevs & _) & Hloc & _ & _ & _ & Hrrem & _ & _).
  pose proof (reload_log env s1) as Hlog. cbv zeta in Hlog.
  destruct Hlog as (Hlogtr & Hlogc).
  assert (Hrevs' : exists tail,
            reload_events env s1 =
              EvTimeLastModified (p_time_last_modified env (n_tlm (world s1))) :: tail /\
            forallb is_reload_event tail = true).
  { rewrite Hlogtr in Hrtr. apply app_inv_head in Hrtr.
    rewrite Hrtr in *. unfold reload_events in Hrtr. cbv zeta in Hrtr.
    destruct revs as [|ev tail]; [discriminate|].
    injection Hrtr as Hev Htail. exists tail. split; [rewrite Hev; reflexivity|].
    cbn in Hrevs. apply andb_true_iff in Hrevs. apply Hrevs. }
  destruct Hrevs' as (tail & Htail & Htailok).
  assert (Hbody :
    fst body <> OutOfFuel /\
    n_remove (world (snd body)) = n_remove (world s1) /\
    (exists body_evs,
        trace (world (snd body)) =
          trace (world s1) ++
            EvTimeLastModified (p_time_last_modified env (n_tlm (world s1))) :: body_evs /\
        forallb (fun ev => is_reload_event ev || is_flush_event ev) body_evs = true) /\
    (fst body = Val tt ->
     exists data,
       fst (base_modify ct old new (reloaded_cache env s1)) = None /\
       fst (base_serialize (snd (base_modify ct old new (reloaded_cache env s1))))
         = inr data /\
       trace (world (snd body)) =
         trace (world s1) ++ reload_events env s1 ++
           [EvBaseModify ct old new None; EvSerialize (inr data);
            EvSave data None;
            EvTime (time_time env (Nat.pred (n_time (world (snd body)))))] /\
       _cache (self (snd body)) =
         snd (base_serialize (snd (base_modify ct old new (reloaded_cache env s1)))) /\
       _last_sync (self (snd body)) =
         time_time env (Nat.pred (n_time (world (snd body)))))).
  { subst body. unfold modify_body, bind.
    destruct (_reload_if_necessary env s1) as [[[]|e|] s2] eqn:Er;
      cbn [fst snd] in *; [| |congruence].
    - pose proof (mutate_and_flush_effect env ct old new s2) as Hmf.
      cbv zeta in Hmf.
      destruct Hmf as (_ & Hmrem & (fevs & Hftr & Hfevs) & Hcase).
      split.
      { destruct Hcase as [(e & He & _) | (Hv & _)]; rewrite ?He, ?Hv; discriminate. }
      split; [congruence|]. split.
      + exists (tail ++ fevs). split.
        * rewrite Hftr, Hlogtr, Htail, <- app_assoc. reflexivity.
        * rewrite forallb_app. apply andb_true_iff. split.
          -- apply forallb_forall. intros ev Hin.
             rewrite forallb_forall in Htailok. rewrite (Htailok ev Hin). reflexivity.
          -- apply forallb_forall. intros ev Hin.
             rewrite forallb_forall in Hfevs. rewrite (Hfevs ev Hin).
             apply orb_true_r.
      + intros Hval.
        pose proof (mutate_and_flush_returns env ct old new s2 Hval) as Hret.
        rewrite Hlogc in Hret.
        destruct Hret as (Hmod & data & Hser & Htr & Hcache & Hsync & Hnt).
        exists data. rewrite Hnt. cbn [Nat.pred].
        split; [exact Hmod|]. split; [exact Hser|].
        split; [rewrite Htr, Hlogtr, <- app_assoc; reflexivity|].
        split; [exact Hcache | exact Hsync].
    - split; [discriminate|]. split; [exact Hrrem|]. split.
      + exists tail. split; [rewrite Hlogtr, Htail; reflexivity|].
        apply forallb_forall. intros ev Hin.
        rewrite forallb_forall in Htailok. rewrite (Htailok ev Hin). reflexivity.
      + intros Hval. discriminate. }
  destruct Hbody as (Hbfuel & Hbrem & Hbevs & Hbok).
  (* the release *)
  pose proof (leave_removes env path (fst body) (snd body) Hbfuel) as Hl.
  cbv zeta in Hl. rewrite <- surjective_pairing in Hl.
  destruct Hl as (Hlself & Hlrem & Hltime & Hltr & _).
  assert (Hremoval : os_remove env (n_remove (world (snd body))) = removal).
  { unfold removal. rewrite Hbrem, Hrem1. reflexivity. }
  rewrite Hremoval in Hltr.
  split; [exact Hacq|]. split; [exact Hbevs|].
  split.
  { destruct Hltr as [Hltr|Hltr]; rewrite Hltr; eexists;
      (split; [reflexivity|]); [left|right]; reflexivity. }
  split; [congruence|].
  intros Hval. cbv zeta.
  destruct (Hbok Hval) as (data & Hmod & Hser & Htr' & Hcache & Hsync).
  rewrite Hltime, Hlself.
  destruct Hltr as [Hltr|Hltr].
  - exists data, [].
    split; [left; reflexivity|]. split; [exact Hmod|]. split; [exact Hser|].
    split; [rewrite Hltr, Htr', <- !app_assoc; reflexivity|].
    split; [exact Hcache | exact Hsync].
  - exists data, [EvDebug unable_to_remove_fmt].
    split; [right; reflexivity|]. split; [exact Hmod|]. split; [exact Hser|].
    split; [rewrite Hltr, Htr', <- !app_assoc; reflexivity|].
    split; [exact Hcache | exact Hsync].
Qed.

Lemma modify_runs_in_order_witness :
  let s := Demo.fresh Demo.quiet in
  let run := modify Demo.quiet 30 "RefreshToken" None (Some [("secret", "x")]%string) s in
  fst run = Val tt /\
  n_remove (world (snd run)) = 1%nat /\
  trace (world (snd run)) =
    trace (world s) ++
      [EvMonotonic (0 # 4); EvMonotonic (0 # 4);
       EvOpenX "/tmp/cache.bin.lockfile" None; EvWrite "4242 app.py" None;
       EvTimeLastModified (inr 50); EvLoad (inr "{}"%string);
       EvDeserialize "{}" None; EvTime 100;
       EvBaseModify "RefreshToken" None (Some [("secret", "x")]%string) None;
       EvSerialize (inr "{}RefreshToken"%string); EvSave "{}RefreshToken" None;
       EvTime 101; EvRemove "/tmp/cache.bin.lockfile" None] /\
  _cache (self (snd run)) = "{}RefreshToken"%string /\
  _last_sync (self (snd run)) = 101.
Proof.
  cbv zeta.
  set (s := Demo.fresh Demo.quiet).
  set (s1 := snd (__enter__ Demo.quiet 30 (_lock_location (self s)) s)).
  assert (Henter : __enter__ Demo.quiet 30 (_lock_location (self s)) s = (Val tt, s1))
    by (vm_compute; reflexivity).
  pose proof (modify_runs_in_order bytes Demo.text_cache Demo.quiet 30
                "RefreshToken" None (Some [("secret", "x")]%string) s s1 Henter) as H.
  cbv zeta in H. destruct H as (_ & _ & _ & Hrem & Hok).
  split; [vm_compute; reflexivity|]. split; [rewrite Hrem; reflexivity|].
  destruct (Hok ltac:(vm_compute; reflexivity))
    as (data & rest & Hrest & _ & Hser & Htr & Hcache & Hsync).
  assert (Hdata : data = "{}RefreshToken"%string).
  { vm_compute in Hser. injection Hser as <-. reflexivity. }
  assert (Hnone : rest = []).
  { destruct Hrest as [->| ->]; [reflexivity|].
    apply (f_equal (@List.length event)) in Htr. vm_compute in Htr.
    discriminate Htr. }
  subst data rest.
  split; [|split].
  - rewrite Htr. vm_compute. reflexivity.
  - rewrite Hcache. vm_compute. reflexivity.
  - rewrite Hsync. vm_compute. reflexivity.
Defined.

(** C9, as the code has it.  In a call of [modify] that acquires the lock
    and in whose body the reload, the mutation, the serialization or the
    save raises, an exception reaches the caller, the assignment
    [self._last_sync = time.time()] that ends the body is not executed, and
    the removal of the lock file is still attempted.  [_last_sync] is left
    as the reload step left it: at its value from before the call if the
    reload raised or did not load, and at the wall-clock reading taken by
    the reload if the reload loaded the backend. *)
Theorem modify_failure_skips_final_sync :
  forall (C : Type) (base : SerializableTokenCache C) (env : Env) (fuel : nat)
         (credential_type : string) (old_entry : option dict)
         (new_key_value_pairs : option dict) (s s1 : State C) (e : exn),
    __enter__ env fuel (_lock_location (self s)) s = (Val tt, s1) ->
    fst (modify_body env credential_type old_entry new_key_value_pairs s1) = Raise e ->
    let run := modify env fuel credential_type old_entry new_key_value_pairs s in
    let reload := _reload_if_necessary env s1 in
    (exists e', fst run = Raise e') /\
    _last_sync (self (snd run)) = _last_sync (self (snd reload)) /\
    n_time (world (snd run)) = n_time (world (snd reload)) /\
    (fst reload <> Val tt -> _last_sync (self (snd run)) = _last_sync (self s)) /\
    (n_load (world (snd reload)) = n_load (world s1) ->
     _last_sync (self (snd run)) = _last_sync (self s)) /\
    (_last_sync (self (snd run)) = _last_sync (self s) \/
     _last_sync (self (snd run)) = time_time env (n_time (world s1))) /\
    n_remove (world (snd run)) = S (n_remove (world s)) /\
    (exists pre r rest,
        trace (world (snd run)) = pre ++ EvRemove (_lock_location (self s)) r :: rest /\
        (rest = [] \/ rest = [EvDebug unable_to_remove_fmt])).
Proof.
  intros C base env fuel ct old new s s1 e Henter Hraise run reload.
  pose proof (enter_acquired env fuel _ s s1 Henter)
    as (Hself1 & _ & Hrem1 & _ & _).
  subst run reload. rewrite modify_unfold, Henter.
  set (body := modify_body env ct old new s1) in *.
  pose proof (reload_effect env s1) as Hre. cbv zeta in Hre.
  destruct Hre as (Hfuel & _ & _ & _ & _ & _ & _ & Hrrem & _ & Hsync).
  (* the state the body ends in *)
  assert (Hbody :
    _last_sync (self (snd body)) = _last_sync (self (snd (_reload_if_necessary env s1))) /\
    n_time (world (snd body)) = n_time (world (snd (_reload_if_necessary env s1))) /\
    n_remove (world (snd body)) = n_remove (world s1)).
  { subst body. unfold modify_body, bind in *.
    destruct (_reload_if_necessary env s1) as [[[]|e1|] s2] eqn:Er;
      cbn [fst snd] in *; [| |congruence].
    - pose proof (mutate_and_flush_effect env ct old new s2) as Hmf.
      cbv zeta in Hmf. destruct Hmf as (_ & Hmrem & _ & Hcase).
      destruct Hcase as [(e2 & _ & Hls & Hnt) | (Hv & _)]; [|congruence].
      split; [exact Hls|]. split; [exact Hnt|]. congruence.
    - split; [reflexivity|]. split; [reflexivity|]. exact Hrrem. }
  destruct Hbody as (Hbls & Hbnt & Hbrem).
  assert (Hbfuel : fst body <> OutOfFuel) by (rewrite Hraise; discriminate).
  pose proof (leave_removes env (_lock_location (self s)) (fst body) (snd body) Hbfuel)
    as Hl.
  cbv zeta in Hl. rewrite <- surjective_pairing in Hl.
  destruct Hl as (Hlself & Hlrem & Hlnt & Hltr & Hlraise).
  split; [exact (Hlraise e Hraise)|].
  split; [rewrite Hlself; exact Hbls|].
  split; [rewrite Hlnt; exact Hbnt|].
  assert (Hload : n_load (world (snd (_reload_if_necessary env s1))) = n_load (world s1) ->
                  _last_sync (self (snd (_reload_if_necessary env s1)))
                  = _last_sync (self s1)).
  { clear. unfold _reload_if_necessary. run.
    destruct (p_time_last_modified env (n_tlm (world s1))) as [e|t]; cbn;
      [destruct (is_PersistenceNotFound e); reflexivity|].
    destruct (Qltb (_last_sync (self s1)) t); cbn; [|reflexivity].
    destruct (p_load env (n_load (world s1))) as [e|data]; cbn;
      [destruct (is_PersistenceNotFound e); cbn; intros; lia|].
    destruct (base_deserialize data (_cache (self s1))) as [[e|] c]; cbn;
      [destruct (is_PersistenceNotFound e)|]; cbn; intros; lia. }
  split.
  { intros Hnot. rewrite Hlself, Hbls.
    destruct Hsync as [(Hsame & _) | (Hval & _)]; [|contradiction].
    rewrite Hsame, Hself1. reflexivity. }
  split.
  { intros Hnl. rewrite Hlself, Hbls, (Hload Hnl), Hself1. reflexivity. }
  split.
  { rewrite Hlself, Hbls.
    destruct Hsync as [(Hsame & _) | (_ & Hnow & _)].
    - left. rewrite Hsame, Hself1. reflexivity.
    - right. exact Hnow. }
  split; [congruence|].
  destruct Hltr as [Hltr|Hltr]; rewrite Hltr; eexists; eexists; eexists;
    (split; [reflexivity|]); [left|right]; reflexivity.
Qed.

Lemma modify_failure_skips_final_sync_witness :
  let s := Demo.fresh Demo.disk_full in
  let run := modify Demo.disk_full 30 "RefreshToken" None None s in
  (exists e', fst run = Raise e') /\
  n_time (world (snd run)) = 1%nat /\
  n_remove (world (snd run)) = 1%nat.
Proof.
  cbv zeta.
  set (s := Demo.fresh Demo.disk_full).
  set (s1 := snd (__enter__ Demo.disk_full 30 (_lock_location (self s)) s)).
  assert (Henter : __enter__ Demo.disk_full 30 (_lock_location (self s)) s = (Val tt, s1))
    by (vm_compute; reflexivity).
  assert (Hraise : fst (modify_body Demo.disk_full "RefreshToken" None None s1)
                   = Raise (OSError 28))
    by (vm_compute; reflexivity).
  pose proof (modify_failure_skips_final_sync bytes Demo.text_cache Demo.disk_full 30
                "RefreshToken" None None s s1 (OSError 28) Henter Hraise) as H.
  cbv zeta in H. destruct H as (Hex & _ & Hnt & _ & _ & _ & Hrem & _).
  split; [exact Hex|]. split; [rewrite Hnt; reflexivity | rewrite Hrem; reflexivity].
Defined.

(** C9 as stated fails: the backend is newer than the snapshot and cannot
    be written.  The reload inside [modify] loads it and sets [_last_sync]
    to the time of the reload; the save then raises, and [modify] leaves
    [_last_sync] changed, from 0 to 100. *)
Lemma modify_failed_save_moves_last_sync :
  let s := Demo.fresh Demo.disk_full in
  let run := modify Demo.disk_full 30 "RefreshToken" None None s in
  fst run = Raise (OSError 28) /\
  _last_sync (self s) = 0 /\
  _last_sync (self (snd run)) = 100 /\
  ~ _last_sync (self (snd run)) == _last_sync (self s).
Proof.
  cbv zeta. split; [vm_compute; reflexivity|].
  split; [vm_compute; reflexivity|]. split; [vm_compute; reflexivity|].
  vm_compute. discriminate.
Qed.

(** ** _last_sync over the life of the object *)

Section LastSync.

Context {C : Type} {base : SerializableTokenCache C}.
Variable env : Env.

Lemma synced_refl (s : State C) : synced_between env s s.
Proof. split; [lia | left; reflexivity]. Qed.

Lemma synced_trans (s s' s'' : State C) :
  synced_between env s s' -> synced_between env s' s'' -> synced_between env s s''.
Proof.
  intros [Hn1 H1] [Hn2 H2]. split; [lia|].
  destruct H2 as [H2 | (k & Hk & H2)].
  - destruct H1 as [H1 | (k & Hk & H1)].
    + left. congruence.
    + right. exists k. split; [lia | congruence].
  - right. exists k. split; [lia | exact H2].
Qed.

(** A step that keeps [_last_sync] and does not turn the wall clock back. *)
Lemma synced_same (s s' : State C) :
  _last_sync (self s') = _last_sync (self s) ->
  (n_time (world s) <= n_time (world s'))%nat ->
  synced_between env s s'.
Proof. intros Hs Hn. split; [exact Hn | left; exact Hs]. Qed.

Lemma reload_synced (s : State C) :
  synced_between env s (snd (_reload_if_necessary env s)).
Proof.
  pose proof (reload_effect env s) as H. cbv zeta in H.
  destruct H as (_ & _ & _ & _ & _ & _ & _ & _ & _ & [(Hs & Hn) | (_ & Hs & Hn)]).
  - apply synced_same; [exact Hs | lia].
  - split; [lia|]. right. exists (n_time (world s)). split; [lia | exact Hs].
Qed.

Lemma super_find_synced (credential_type : string) (kwargs : dict) (s : State C) :
  synced_between env s (snd (super_find credential_type kwargs s)).
Proof.
  apply synced_same; run;
    destruct (base_find credential_type kwargs (_cache (self s))) as [[e|l] c];
    cbn; reflexivity || lia.
Qed.

Lemma find_loop_synced (credential_type : string) (kwargs : dict)
    (attempts : list nat) :
  forall s : State C,
    synced_between env s (snd (find_loop env attempts credential_type kwargs s)).
Proof.
  induction attempts as [|attempt rest IH]; intros s.
  - apply synced_refl.
  - rewrite find_loop_turn.
    pose proof (reload_synced s) as Hr.
    destruct (_reload_if_necessary env s) as [[[]|ex|] s1]; cbn [snd] in *.
    + apply (synced_trans _ _ _ Hr).
      pose proof (super_find_synced credential_type kwargs s1) as Hf.
      unfold bind, ret.
      destruct (super_find credential_type kwargs s1) as [[l|e|] s2]; exact Hf.
    + destruct (is_Exception ex && (attempt <? retry)%nat); [|exact Hr].
      apply (synced_trans _ _ _ Hr).
      apply (synced_trans _ (after_pause s1)); [|apply IH].
      apply synced_same; reflexivity.
    + exact Hr.
Qed.

Lemma find_synced (credential_type : string) (kwargs : dict) (s : State C) :
  synced_between env s (snd (find env credential_type kwargs s)).
Proof.
  rewrite find_state. apply find_loop_synced.
Qed.

(** The loop of [_create_lock_file] never touches the cache object. *)
Lemma lock_loop_synced (lockpath : string) (content : bytes) (deadline : Q)
    (fuel : nat) :
  forall s : State C,
    synced_between env s (snd (lock_loop env fuel lockpath content deadline s)).
Proof.
  induction fuel as [|fuel IH]; intros s; [apply synced_refl|].
  rewrite lock_loop_turn. cbv zeta. rewrite current_time_effect. cbn [snd world self].
  set (w0 := if has_monotonic env then tick_monotonic (world s)
             else tick_time (world s)).
  assert (Hw0 : (n_time (world s) <= n_time w0)%nat)
    by (unfold w0; destruct (has_monotonic env); cbn; lia).
  assert (Hnext : forall w, (n_time w0 <= n_time w)%nat ->
            synced_between env s
              (snd (lock_loop env fuel lockpath content deadline (mkState (self s) w)))).
  { intros w Hw. eapply synced_trans; [|apply IH].
    apply synced_same; [reflexivity | cbn; lia]. }
  destruct (Qltb _ deadline); [|apply synced_same; [reflexivity | exact Hw0]].
  destruct (os_open_x env (n_open (world s))) as [ex|].
  - destruct (is_ValueError ex); [apply synced_same; [reflexivity | exact Hw0]|].
    destruct (is_FileExistsError ex);
      [apply Hnext; cbn; lia | apply synced_same; [reflexivity | exact Hw0]].
  - destruct (file_write env (n_write (world s))) as [ex|];
      [|apply synced_same; [reflexivity | exact Hw0]].
    destruct (is_ValueError ex); [apply synced_same; [reflexivity | exact Hw0]|].
    destruct (is_FileExistsError ex);
      [apply Hnext; cbn; lia | apply synced_same; [reflexivity | exact Hw0]].
Qed.

Lemma enter_synced (fuel : nat) (lockpath : string) (s : State C) :
  synced_between env s (snd (__enter__ env fuel lockpath s)).
Proof.
  unfold __enter__, _create_lock_file, bind. rewrite current_time_effect.
  match goal with
  | |- context [lock_loop env fuel lockpath ?c ?d ?s1] =>
      pose proof (lock_loop_synced lockpath c d fuel s1) as Hl;
      destruct (lock_loop env fuel lockpath c d s1) as [[u|e|] s2]
  end; cbn [snd] in *.
  all: eapply synced_trans; [|exact Hl].
  all: apply synced_same; [reflexivity | destruct (has_monotonic env); cbn; lia].
Qed.

Lemma modify_body_synced (credential_type : string) (old_entry : option dict)
    (new_key_value_pairs : option dict) (s : State C) :
  fst (modify_body env credential_type old_entry new_key_value_pairs s) <> OutOfFuel /\
  synced_between env s
    (snd (modify_body env credential_type old_entry new_key_value_pairs s)).
Proof.
  unfold modify_body, bind.
  pose proof (reload_synced s) as Hr.
  pose proof (reload_effect env s) as (Hfuel & _).
  destruct (_reload_if_necessary env s) as [[[]|e|] s1]; cbn [fst snd] in *;
    [| split; [discriminate | exact Hr] | congruence].
  pose proof (mutate_and_flush_effect env credential_type old_entry
                new_key_value_pairs s1) as Hmf.
  cbv zeta in Hmf. destruct Hmf as (_ & _ & _ & Hcase).
  destruct Hcase as [(e & He & Hs & Hn) | (Hv & Hs & Hn & _)].
  - split; [rewrite He; discriminate|].
    apply (synced_trans _ _ _ Hr). apply synced_same; [exact Hs | lia].
  - split; [rewrite Hv; discriminate|].
    apply (synced_trans _ _ _ Hr). split; [lia|].
    right. exists (n_time (world s1)). split; [lia | exact Hs].
Qed.

Lemma modify_synced (fuel : nat) (credential_type : string) (old_entry : option dict)
    (new_key_value_pairs : option dict) (s : State C) :
  synced_between env s
    (snd (modify env fuel credential_type old_entry new_key_value_pairs s)).
Proof.
  rewrite modify_unfold.
  pose proof (enter_synced fuel (_lock_location (self s)) s) as He.
  destruct (__enter__ env fuel (_lock_location (self s)) s) as [[u|e|] s1];
    cbn [snd] in *; [|exact He|exact He].
  apply (synced_trans _ _ _ He).
  pose proof (modify_body_synced credential_type old_entry new_key_value_pairs s1)
    as (Hfuel & Hb).
  apply (synced_trans _ _ _ Hb).
  pose proof (leave_removes env (_lock_location (self s))
                (fst (modify_body env credential_type old_entry new_key_value_pairs s1))
                (snd (modify_body env credential_type old_entry new_key_value_pairs s1))
                Hfuel) as Hl.
  cbv zeta in Hl. rewrite <- surjective_pairing in Hl.
  destruct Hl as (Hself & _ & Hnt & _).
  apply synced_same; [rewrite Hself; reflexivity | lia].
Qed.

Lemma operation_synced (op : operation) (s : State C) :
  synced_between env s (run_operation env op s).
Proof.
  destruct op; cbn [run_operation].
  - apply find_synced.
  - apply modify_synced.
  - apply reload_synced.
Qed.

(** With a wall clock that does not run backwards, a step of
    [synced_between] does not decrease [_last_sync]. *)
Lemma synced_monotone (s s' : State C) :
  (forall i j, (i <= j)%nat -> time_time env i <= time_time env j) ->
  clock_ahead env s ->
  synced_between env s s' ->
  _last_sync (self s) <= _last_sync (self s') /\ clock_ahead env s'.
Proof.
  intros Hmono Hahead [Hn Hs]. destruct Hs as [Hs | (k & Hk & Hs)].
  - split; [rewrite Hs; apply Qle_refl|].
    intros k Hk. rewrite Hs. apply Hahead. lia.
  - split; [rewrite Hs; apply Hahead; lia|].
    intros j Hj. rewrite Hs. apply Hmono. lia.
Qed.

Lemma operations_ahead (ops : list operation) :
  (forall i j, (i <= j)%nat -> time_time env i <= time_time env j) ->
  forall s : State C, clock_ahead env s -> clock_ahead env (run_operations env ops s).
Proof.
  intros Hmono. induction ops as [|op ops IH]; intros s Hahead; [exact Hahead|].
  cbn [run_operations fold_left]. apply IH.
  apply (synced_monotone s _ Hmono Hahead (operation_synced op s)).
Qed.

End LastSync.

Lemma init_last_sync {C : Type} {base : SerializableTokenCache C} (env : Env)
    (lock_location : option string) (w : World) (s0 : State C) :
  __init__ env lock_location w = (Val tt, s0) ->
  _last_sync (self s0) = 0 /\ n_time (world s0) = n_time w.
Proof.
  unfold __init__. run.
  destruct (mkdir_p env (n_mkdir w)); [discriminate|].
  intros H. injection H as <-. split; reflexivity.
Qed.

(** C8, as the code has it.  [_last_sync] is 0 after construction, and
    every operation ([find], [modify], [_reload_if_necessary]) either leaves
    it unchanged or sets it to a reading of [time.time()] taken during the
    operation.  If the readings of [time.time()] are never negative and
    never decrease, [_last_sync] never decreases. *)
Theorem last_sync_never_decreases :
  forall (C : Type) (base : SerializableTokenCache C) (env : Env)
         (lock_location : option string) (w : World) (s0 : State C),
    __init__ env lock_location w = (Val tt, s0) ->
    _last_sync (self s0) = 0 /\
    forall (ops : list operation) (op : operation),
      let s := run_operations env ops s0 in
      let s' := run_operation env op s in
      (_last_sync (self s') = _last_sync (self s) \/
       exists k, (n_time (world s) <= k < n_time (world s'))%nat /\
                 _last_sync (self s') = time_time env k) /\
      ((forall i, 0 <= time_time env i) ->
       (forall i j, (i <= j)%nat -> time_time env i <= time_time env j) ->
       _last_sync (self s) <= _last_sync (self s')).
Proof.
  intros C base env lock_location w s0 Hinit.
  destruct (init_last_sync env lock_location w s0 Hinit) as [H0 _].
  split; [exact H0|].
  intros ops op s s'.
  pose proof (operation_synced env op s) as Hstep. fold s' in Hstep.
  split; [exact (proj2 Hstep)|].
  intros Hpos Hmono.
  assert (Hahead : clock_ahead env s).
  { apply operations_ahead; [exact Hmono|].
    intros k _. rewrite H0. apply Hpos. }
  exact (proj1 (synced_monotone env s s' Hmono Hahead Hstep)).
Qed.

Lemma forward_wall_monotone :
  (forall i, 0 <= Demo.forward_wall i) /\
  (forall i j, (i <= j)%nat -> Demo.forward_wall i <= Demo.forward_wall j).
Proof.
  unfold Demo.forward_wall, Demo.Qnat. split.
  - intros i. unfold Qle. cbn. lia.
  - intros i j Hij. unfold Qle. cbn. lia.
Qed.

Lemma last_sync_never_decreases_witness :
  let s0 := Demo.fresh Demo.quiet in
  let s1 := run_operations Demo.quiet [OpFind "RefreshToken" []] s0 in
  let s2 := run_operation Demo.quiet (OpModify 30 "RefreshToken" None None) s1 in
  _last_sync (self s0) = 0 /\ _last_sync (self s1) <= _last_sync (self s2).
Proof.
  cbv zeta.
  assert (Hinit : __init__ Demo.quiet None world0 = (Val tt, Demo.fresh Demo.quiet))
    by (vm_compute; reflexivity).
  pose proof (last_sync_never_decreases bytes Demo.text_cache Demo.quiet None world0
                (Demo.fresh Demo.quiet) Hinit) as [H0 Hops].
  split; [exact H0|].
  destruct (Hops [OpFind "RefreshToken" []] (OpModify 30 "RefreshToken" None None))
    as [_ Hle].
  apply Hle; apply forward_wall_monotone.
Defined.

(** C8 as stated fails when the wall clock is set back: two calls of
    [modify], the wall clock reading 100 during the first and 50 during the
    second, take [_last_sync] from 100 down to 50. *)
Lemma last_sync_decreases_when_clock_set_back :
  let env := Demo.clock_set_back in
  let s0 := Demo.fresh env in
  let s1 := run_operation env (OpModify 30 "RefreshToken" None None) s0 in
  let s2 := run_operation env (OpModify 30 "RefreshToken" None None) s1 in
  _last_sync (self s1) = 100 /\
  _last_sync (self s2) = 50 /\
  _last_sync (self s2) < _last_sync (self s1).
Proof.
  cbv zeta. split; [vm_compute; reflexivity|]. split; vm_compute; reflexivity.
Qed.

(** ** Mutual exclusion of concurrent [modify] calls *)

Module MutualExclusion.

Import Interleaving.

Lemma in_sequence_owns (c : pc) : in_sequence c = true -> owns_lock c = true.
Proof. destruct c; cbn; congruence. Qed.

Lemma initial_invariant (sys : system) : initial sys -> lock_invariant sys.
Proof.
  intros Hinit. split.
  - intros i p Hp Hown. destruct (Hinit i p Hp) as [last Hlast].
    rewrite Hlast in Hown. discriminate.
  - intros i j p q Hp _ Hown. destruct (Hinit i p Hp) as [last Hlast].
    rewrite Hlast in Hown. discriminate.
Qed.

(** A step that creates and removes no file, and does not make its process
    an owner. *)
Lemma move_invariant (i : nat) (p : proc) (to : pc) (sys : system) :
  procs sys !! i = Some p ->
  (owns_lock to = true -> owns_lock (at_pc p) = true) ->
  lock_invariant sys -> lock_invariant (move i p to sys).
Proof.
  intros Hp Hto [Hfile Hexcl]. split.
  - intros j q Hq Hown. cbn in *.
    destruct (decide (i = j)) as [<-|Hne].
    + rewrite lookup_insert_eq in Hq. injection Hq as <-. cbn in *.
      apply (Hfile i p Hp). auto.
    + rewrite lookup_insert_ne in Hq by exact Hne. eauto.
  - intros j k q r Hq Hr Hownq Hownr Hpath. cbn in *.
    destruct (decide (i = j)) as [<-|Hnej]; destruct (decide (i = k)) as [<-|Hnek].
    + reflexivity.
    + rewrite lookup_insert_eq in Hq. injection Hq as <-. cbn in *.
      rewrite lookup_insert_ne in Hr by exact Hnek.
      apply (Hexcl i k p r); auto.
    + rewrite lookup_insert_eq in Hr. injection Hr as <-. cbn in *.
      rewrite lookup_insert_ne in Hq by exact Hnej.
      apply (Hexcl j i q p); auto.
    + rewrite lookup_insert_ne in Hq by exact Hnej.
      rewrite lookup_insert_ne in Hr by exact Hnek.
      apply (Hexcl j k q r); auto.
Qed.

(** The exclusive creation: the file was not there, so nobody owned the
    lock of this location. *)
Lemma create_invariant (i : nat) (p : proc) (to : pc) (sys : system) :
  procs sys !! i = Some p ->
  lockpath p ∉ files sys ->
  lock_invariant sys -> lock_invariant (move_create i p to sys).
Proof.
  intros Hp Hfresh [Hfile Hexcl].
  assert (Hnone : forall j q, procs sys !! j = Some q -> owns_lock (at_pc q) = true ->
                              lockpath q <> lockpath p).
  { intros j q Hq Hown Heq. apply Hfresh. rewrite <- Heq. eauto. }
  split.
  - intros j q Hq Hown. cbn in *.
    destruct (decide (i = j)) as [<-|Hne].
    + rewrite lookup_insert_eq in Hq. injection Hq as <-. cbn. set_solver.
    + rewrite lookup_insert_ne in Hq by exact Hne.
      apply elem_of_union_r. eauto.
  - intros j k q r Hq Hr Hownq Hownr Hpath. cbn in *.
    destruct (decide (i = j)) as [<-|Hnej]; destruct (decide (i = k)) as [<-|Hnek].
    + reflexivity.
    + rewrite lookup_insert_eq in Hq. injection Hq as <-. cbn in *.
      rewrite lookup_insert_ne in Hr by exact Hnek.
      exfalso. apply (Hnone k r Hr Hownr). congruence.
    + rewrite lookup_insert_eq in Hr. injection Hr as <-. cbn in *.
      rewrite lookup_insert_ne in Hq by exact Hnej.
      exfalso. apply (Hnone j q Hq Hownq). congruence.
    + rewrite lookup_insert_ne in Hq by exact Hnej.
      rewrite lookup_insert_ne in Hr by exact Hnek.
      apply (Hexcl j k q r); auto.
Qed.

(** The removal by the owner: no other process owned the lock of this
    location, so no owner loses its file. *)
Lemma delete_invariant (i : nat) (p : proc) (to : pc) (sys : system) :
  procs sys !! i = Some p ->
  owns_lock (at_pc p) = true ->
  owns_lock to = false ->
  lock_invariant sys -> lock_invariant (move_delete i p to sys).
Proof.
  intros Hp Hown Hto [Hfile Hexcl]. split.
  - intros j q Hq Hownq. cbn in *.
    destruct (decide (i = j)) as [<-|Hne].
    + rewrite lookup_insert_eq in Hq. injection Hq as <-. cbn in *. congruence.
    + rewrite lookup_insert_ne in Hq by exact Hne.
      apply elem_of_difference. split; [eauto|].
      intros Hin. apply elem_of_singleton in Hin.
      apply Hne. apply (Hexcl i j p q); auto.
  - intros j k q r Hq Hr Hownq Hownr Hpath. cbn in *.
    destruct (decide (i = j)) as [<-|Hnej]; destruct (decide (i = k)) as [<-|Hnek].
    + reflexivity.
    + rewrite lookup_insert_eq in Hq. injection Hq as <-. cbn in *. congruence.
    + rewrite lookup_insert_eq in Hr. injection Hr as <-. cbn in *. congruence.
    + rewrite lookup_insert_ne in Hq by exact Hnej.
      rewrite lookup_insert_ne in Hr by exact Hnek.
      apply (Hexcl j k q r); auto.
Qed.

Lemma step_invariant (i : nat) (sys sys' : system) :
  step i sys sys' -> lock_invariant sys -> lock_invariant sys'.
Proof.
  intros Hstep Hinv.
  destruct Hstep;
    try (apply move_invariant; [assumption | | assumption];
         cbn; intros Hown;
         repeat match goal with
                | H : at_pc _ = _ |- _ => rewrite H
                | H : _ \/ _ |- _ => destruct H
                end;
         cbn; congruence).
  - apply create_invariant; assumption.
  - apply delete_invariant; try assumption; [|reflexivity].
    match goal with H : at_pc _ = _ |- _ => rewrite H end. reflexivity.
Qed.

Lemma exec_lock_invariant (h : list entry) (sys : system) :
  exec h sys -> lock_invariant sys.
Proof.
  induction 1 as [sys Hinit | h sys sys' i p _ IH _ Hstep].
  - apply initial_invariant. exact Hinit.
  - apply (step_invariant i sys sys' Hstep IH).
Qed.

(** What a step does to the table of processes: the stepping process moves
    to a new program point, and it is in the middle of the sequence
    afterwards only if it has just executed the statement before. *)
Lemma step_procs (i : nat) (sys sys' : system) (p : proc) :
  step i sys sys' -> procs sys !! i = Some p ->
  exists to,
    procs sys' = <[i := mkProc (lockpath p) to]> (procs sys) /\
    (continues to = true -> in_sequence (at_pc p) = true /\ pred_pc to = at_pc p).
Proof.
  intros Hstep Hp.
  destruct Hstep as
    [sys p' last Hp' Hat | sys p' Hp' Hat | sys p' Hp' Hat | sys p' Hp' Hat
    | sys p' Hp' Hat Hin | sys p' Hp' Hat Hnotin | sys p' e Hp' Hat He
    | sys p' Hp' Hat | sys p' e Hp' Hat He | sys p' Hp' Hat | sys p' Hp' Hat
    | sys p' Hp' Hat | sys p' Hp' Hat | sys p' Hp' Hat | sys p' Hp' Hat
    | sys p' Hp' Hat | sys p' e Hp' Hat
    | sys p' pending Hp' Hat Hin | sys p' pending Hp' Hat
    | sys p' pending errno Hp' Hat Hn1 Hn2];
    rewrite Hp in Hp'; injection Hp' as <-;
    eexists; (split; [reflexivity|]); cbn; try discriminate;
    intros _; rewrite Hat; split; reflexivity.
Qed.

Lemma last_at_other (path path' : string) (j : nat) (c : pc) (h : list entry) :
  path <> path' -> last_at path ((j, path', c) :: h) = last_at path h.
Proof.
  intros Hne. cbn. apply String.eqb_neq in Hne. rewrite Hne. reflexivity.
Qed.

Lemma last_at_same (path : string) (j : nat) (c : pc) (h : list entry) :
  last_at path ((j, path, c) :: h) = Some (j, c).
Proof. cbn. rewrite String.eqb_refl. reflexivity. Qed.

Lemma exec_history_invariant (h : list entry) (sys : system) :
  exec h sys -> contiguous h /\ history_invariant h sys.
Proof.
  induction 1 as [sys Hinit | h sys sys' i p Hexec [Hcont Hhist] Hp Hstep].
  - split; [exact I|]. intros j q Hq Hc.
    destruct (Hinit j q Hq) as [last Hlast]. rewrite Hlast in Hc. discriminate.
  - pose proof (exec_lock_invariant h sys Hexec) as [_ Hexcl].
    destruct (step_procs i sys sys' p Hstep Hp) as (to & Hprocs & Hto).
    unfold note. destruct (in_sequence (at_pc p)) eqn:Hseq.
    + (* the step executes a statement of the sequence *)
      split.
      * cbn [contiguous]. split; [|exact Hcont].
        intros Hc. apply (Hhist i p Hp Hc).
      * intros j q Hq Hc. rewrite Hprocs in Hq.
        destruct (decide (i = j)) as [<-|Hne].
        -- rewrite lookup_insert_eq in Hq. injection Hq as <-. cbn in *.
           destruct (Hto Hc) as [_ Hpred]. rewrite Hpred. apply last_at_same.
        -- rewrite lookup_insert_ne in Hq by exact Hne.
           rewrite last_at_other; [apply Hhist; assumption|].
           intros Hpath. apply Hne.
           apply (Hexcl i j p q Hp Hq); [apply in_sequence_owns; exact Hseq | | ].
           ++ destruct (at_pc q); cbn in Hc; try discriminate; reflexivity.
           ++ symmetry. exact Hpath.
    + (* the step is outside the sequence *)
      split; [exact Hcont|].
      intros j q Hq Hc. rewrite Hprocs in Hq.
      destruct (decide (i = j)) as [<-|Hne].
      * rewrite lookup_insert_eq in Hq. injection Hq as <-. cbn in *.
        destruct (Hto Hc) as [Hin _]. congruence.
      * rewrite lookup_insert_ne in Hq by exact Hne. apply Hhist; assumption.
Qed.

(** The exclusion on the step relation of [Interleaving], statement by
    statement: several processes call [modify] concurrently, in any
    interleaving of their steps, with any clock readings and any failures.
    In every execution, the history of the statements of the reload-mutate-save
    sequences is contiguous on every lock location: a process mutates,
    serializes, saves and records the time right after its own previous
    statement, with no statement of another process on that location in
    between.  And in every state reached, if a process is inside its
    sequence, no other process with the same lock location is between the
    creation and the removal of the lock file. *)
Lemma statements_never_interleave :
  forall (h : list entry) (sys : system),
    exec h sys ->
    contiguous h /\
    forall (i j : nat) (p q : proc),
      procs sys !! i = Some p ->
      procs sys !! j = Some q ->
      lockpath p = lockpath q ->
      in_sequence (at_pc p) = true ->
      (owns_lock (at_pc q) = true -> i = j) /\
      (in_sequence (at_pc q) = true -> i = j).
Proof.
  intros h sys Hexec.
  split; [exact (proj1 (exec_history_invariant h sys Hexec))|].
  intros i j p q Hp Hq Hpath Hseq.
  destruct (exec_lock_invariant h sys Hexec) as [_ Hexcl].
  assert (Hown : owns_lock (at_pc q) = true -> i = j).
  { intros Hq'. apply (Hexcl i j p q Hp Hq); [|exact Hq'|exact Hpath].
    apply in_sequence_owns. exact Hseq. }
  split; [exact Hown|].
  intros Hq'. apply Hown. apply in_sequence_owns. exact Hq'.
Qed.

End MutualExclusion.

(** ** Concurrent calls of [modify], by their logs *)

Module Exclusion.

Import Concurrent.

Lemma run_phase_app (path : string) (ph : phase) (a b : list event) :
  run_phase path ph (a ++ b) =
    match run_phase path ph a with
    | Some ph' => run_phase path ph' b
    | None => None
    end.
Proof.
  revert ph. induction a as [|ev a IH]; intros ph; cbn; [reflexivity|].
  destruct (advance path ph ev); [apply IH | reflexivity].
Qed.

Lemma project_app (i : nat) (g g' : schedule) :
  project i (g ++ g') = project i g ++ project i g'.
Proof.
  induction g as [|[j ev] g IH]; cbn; [reflexivity|].
  destruct (Nat.eqb j i); cbn; rewrite IH; reflexivity.
Qed.

Lemma replay_app (files : gset string) (g g' : schedule) :
  replay files (g ++ g') =
    match replay files g with
    | Some files' => replay files' g'
    | None => None
    end.
Proof.
  revert files. induction g as [|[j ev] g IH]; intros files; cbn; [reflexivity|].
  destruct (file_effect files ev); [apply IH | reflexivity].
Qed.

Section Acquisition.

Context {C : Type} {base : SerializableTokenCache C}.
Variable env : Env.

Lemma clock_event_away (path : string) (t : Q) :
  advance path Away (EvClock env t) = Some Away.
Proof. unfold EvClock. destruct (has_monotonic env); reflexivity. Qed.

(** The loop of [_create_lock_file], from a call that does not have the
    lock file: it ends with the call holding the lock if it returns, and
    without the lock file otherwise. *)
Lemma lock_loop_phase (path : string) (content : bytes) (deadline : Q) (fuel : nat) :
  forall (s : State C),
    let r := lock_loop env fuel path content deadline s in
    self (snd r) = self s /\
    exists evs,
      trace (world (snd r)) = trace (world s) ++ evs /\
      run_phase path Away evs =
        Some (match fst r with Val _ => Holding | _ => Away end).
Proof.
  induction fuel as [|fuel IH]; intros s; cbv zeta.
  { cbn. split; [reflexivity|]. exists []. rewrite app_nil_r. split; reflexivity. }
  rewrite lock_loop_turn. cbv zeta. rewrite current_time_effect.
  cbn [snd world self].
  set (t := clock env (n_clock env (world s))).
  set (w0 := if has_monotonic env then tick_monotonic (world s)
             else tick_time (world s)).
  assert (Htr0 : trace w0 = trace (world s)).
  { unfold w0. destruct (has_monotonic env); reflexivity. }
  pose proof (String.eqb_refl path) as Hpath.
  assert (Hclock : forall evs,
            run_phase path Away (EvClock env t :: evs) = run_phase path Away evs).
  { intros evs. cbn [run_phase]. rewrite clock_event_away. reflexivity. }
  destruct (Qltb t deadline).
  2: { cbn. split; [reflexivity|]. exists [EvClock env t]. rewrite Htr0.
       split; [reflexivity|]. rewrite Hclock. reflexivity. }
  destruct (os_open_x env (n_open (world s))) as [ex|] eqn:Eo.
  - destruct (is_ValueError ex).
    { cbn. split; [reflexivity|].
      exists [EvClock env t; EvOpenX path (Some ex)]. rewrite Htr0, <- app_assoc.
      split; [reflexivity|]. rewrite Hclock. cbn. rewrite Hpath. reflexivity. }
    destruct (is_FileExistsError ex).
    + match goal with
      | |- context [lock_loop env fuel path content deadline ?s1] =>
          destruct (IH s1) as (Hs & evs & Htr & Hph)
      end.
      cbn [self world trace log tick_open tick_write] in Hs, Htr.
      split; [exact Hs|].
      exists ([EvClock env t; EvOpenX path (Some ex); EvDebug found_lock_fmt;
               EvSleep check_interval] ++ evs).
      split; [rewrite Htr, Htr0, <- !app_assoc; reflexivity|].
      cbn [app]. rewrite Hclock. cbn. rewrite Hpath. exact Hph.
    + cbn. split; [reflexivity|].
      exists [EvClock env t; EvOpenX path (Some ex)]. rewrite Htr0, <- app_assoc.
      split; [reflexivity|]. rewrite Hclock. cbn. rewrite Hpath. reflexivity.
  - destruct (file_write env (n_write (world s))) as [ex|] eqn:Ew.
    + destruct (is_ValueError ex).
      { cbn. split; [reflexivity|].
        exists [EvClock env t; EvOpenX path None; EvWrite content (Some ex)].
        rewrite Htr0, <- !app_assoc.
        split; [reflexivity|]. rewrite Hclock. cbn. rewrite Hpath. reflexivity. }
      destruct (is_FileExistsError ex).
      * match goal with
        | |- context [lock_loop env fuel path content deadline ?s1] =>
            destruct (IH s1) as (Hs & evs & Htr & Hph)
        end.
        cbn [self world trace log tick_open tick_write] in Hs, Htr.
        split; [exact Hs|].
        exists ([EvClock env t; EvOpenX path None; EvWrite content (Some ex);
                 EvDebug found_lock_fmt; EvSleep check_interval] ++ evs).
        split; [rewrite Htr, Htr0, <- !app_assoc; reflexivity|].
        cbn [app]. rewrite Hclock. cbn. rewrite Hpath. exact Hph.
      * cbn. split; [reflexivity|].
        exists [EvClock env t; EvOpenX path None; EvWrite content (Some ex)].
        rewrite Htr0, <- !app_assoc.
        split; [reflexivity|]. rewrite Hclock. cbn. rewrite Hpath. reflexivity.
    + cbn. split; [reflexivity|].
      exists [EvClock env t; EvOpenX path None; EvWrite content None].
      rewrite Htr0, <- !app_assoc.
      split; [reflexivity|]. rewrite Hclock. cbn. rewrite Hpath. reflexivity.
Qed.

Lemma enter_phase (fuel : nat) (path : string) (s : State C) :
  let r := __enter__ env fuel path s in
  self (snd r) = self s /\
  exists evs,
    trace (world (snd r)) = trace (world s) ++ evs /\
    run_phase path Away evs =
      Some (match fst r with Val _ => Holding | _ => Away end).
Proof.
  cbv zeta. unfold __enter__, _create_lock_file, bind.
  rewrite current_time_effect.
  match goal with
  | |- context [lock_loop env fuel path ?content ?deadline ?s1] =>
      destruct (lock_loop_phase path content deadline fuel s1) as (Hs & evs & Htr & Hph)
  end.
  cbv zeta in Hs, Htr, Hph. cbn [self world] in Hs, Htr.
  split; [exact Hs|].
  exists (EvClock env (clock env (n_clock env (world s))) :: evs).
  split.
  - rewrite Htr. cbn. rewrite <- app_assoc.
    destruct (has_monotonic env); reflexivity.
  - cbn [run_phase]. rewrite clock_event_away. exact Hph.
Qed.

Lemma body_event_holding (path : string) (evs : list event) :
  forallb (fun ev => is_reload_event ev || is_flush_event ev) evs = true ->
  run_phase path Holding evs = Some Holding.
Proof.
  induction evs as [|ev evs IH]; cbn; [reflexivity|].
  intros H. apply andb_true_iff in H. destruct H as [Hev Hevs].
  destruct ev; cbn in Hev; try discriminate; cbn; apply IH; exact Hevs.
Qed.

(** A call of [modify] logs what the phases allow. *)
Lemma modify_phase (fuel : nat) (credential_type : string)
    (old_entry new_key_value_pairs : option dict) (s : State C) :
  exists evs ph,
    trace (world (snd (modify env fuel credential_type old_entry
                         new_key_value_pairs s)))
      = trace (world s) ++ evs /\
    run_phase (_lock_location (self s)) Away evs = Some ph.
Proof.
  rewrite modify_unfold.
  set (path := _lock_location (self s)).
  pose proof (enter_phase fuel path s) as He. cbv zeta in He.
  destruct He as (Hs1 & acq & Hacq & Hph).
  destruct (__enter__ env fuel path s) as [[[]|e|] s1] eqn:Henter;
    cbn [fst snd] in *.
  2,3: exists acq, Away; split; [exact Hacq | exact Hph].
  set (body := modify_body env credential_type old_entry new_key_value_pairs s1).
  pose proof (modify_body_events env credential_type old_entry
                new_key_value_pairs s1) as Hbody.
  cbv zeta in Hbody. fold body in Hbody.
  destruct Hbody as (Hfuel & body_evs & Hbtr & Hbevs).
  pose proof (leave_removes env path (fst body) (snd body) Hfuel) as Hl.
  cbv zeta in Hl. rewrite <- surjective_pairing in Hl.
  destruct Hl as (_ & _ & _ & Hltr & _).
  pose proof (body_event_holding path body_evs Hbevs) as Hhold.
  pose proof (String.eqb_refl path) as Hpath.
  destruct Hltr as [Hltr|Hltr]; rewrite Hltr, Hbtr, Hacq, <- !app_assoc;
    eexists; exists Released; (split; [reflexivity|]);
    rewrite run_phase_app, Hph; rewrite run_phase_app, Hhold;
    cbn; rewrite Hpath; reflexivity.
Qed.

End Acquisition.

Lemma modify_call_phase (c : call) :
  is_modify_call c -> is_Some (run_phase (call_path c) Away (call_log c)).
Proof.
  intros (C & base & env & fuel & ct & old & new & s & Hpath & Htr).
  destruct (modify_phase env fuel ct old new s) as (evs & ph & Htr' & Hph).
  rewrite Htr' in Htr. apply app_inv_head in Htr. subst evs.
  rewrite Hpath in Hph. exists ph. exact Hph.
Qed.

Lemma run_phase_prefix (path : string) (ph : phase) (a b : list event) :
  is_Some (run_phase path ph (a ++ b)) -> is_Some (run_phase path ph a).
Proof.
  rewrite run_phase_app. destruct (run_phase path ph a) as [ph'|].
  - intros _. exists ph'. reflexivity.
  - intros [x Hx]. discriminate.
Qed.

Lemma interleaves_follows_phases (calls : list call) (g : schedule) :
  Forall is_modify_call calls -> interleaves calls g -> follows_phases calls g.
Proof.
  intros Hcalls Hg i. specialize (Hg i).
  destruct (calls !! i) as [c|] eqn:Hc; [|exact Hg].
  destruct Hg as [rest Hrest].
  apply (run_phase_prefix _ _ _ rest). rewrite <- Hrest.
  apply modify_call_phase. exact (Forall_lookup_1 _ _ _ _ Hcalls Hc).
Qed.

Lemma follows_phases_prefix (calls : list call) (g g' : schedule) :
  follows_phases calls (g ++ g') -> follows_phases calls g.
Proof.
  intros H i. specialize (H i). rewrite project_app in H.
  destruct (calls !! i) as [c|].
  - apply (run_phase_prefix _ _ _ _ H).
  - apply app_eq_nil in H. apply H.
Qed.

(** What the event of a step does to the lock file of its call. *)
Lemma advance_keeps (path : string) (ph ph' : phase) (ev : event)
    (files : gset string) :
  advance path ph ev = Some ph' ->
  has_lock_file ph = true ->
  has_lock_file ph' = true ->
  file_effect files ev = Some files.
Proof.
  destruct ph, ev; cbn; try discriminate; try reflexivity.
  all: try (destruct r; cbn; try discriminate; reflexivity).
  destruct (String.eqb path0 path); cbn; intros H; inversion H; subst; discriminate.
Qed.

Lemma advance_creates (path : string) (ph ph' : phase) (ev : event) :
  advance path ph ev = Some ph' ->
  has_lock_file ph = false ->
  has_lock_file ph' = true ->
  ev = EvOpenX path None.
Proof.
  destruct ph, ev; cbn; try discriminate.
  all: try (intros H; inversion H; subst; discriminate).
  - destruct r as [e|]; destruct (String.eqb path0 path) eqn:Hp; cbn;
      try discriminate; try (intros H; inversion H; subst; discriminate).
    apply String.eqb_eq in Hp. subst. reflexivity.
Qed.

Lemma advance_removes (path : string) (ph ph' : phase) (ev : event)
    (files files' : gset string) :
  advance path ph ev = Some ph' ->
  file_effect files ev = Some files' ->
  files ⊆ files' \/ (ph = Holding /\ files' = files ∖ {[path]}).
Proof.
  destruct ph, ev; cbn; try discriminate.
  all: try (intros _ H; injection H as <-; left; reflexivity).
  all: try (destruct r as [e|]); try discriminate.
  all: try (intros _ H; injection H as <-; left; reflexivity).
  - destruct (String.eqb path0 path); [|discriminate]. intros _.
    destruct (decide (path0 ∈ files)); [discriminate|].
    intros H; injection H as <-. left. set_solver.
  - destruct (String.eqb path0 path) eqn:Hp; [|discriminate].
    apply String.eqb_eq in Hp. subst. intros _ H. injection H as <-.
    right. split; reflexivity.
Qed.

Lemma advance_sequence (path : string) (ph ph' : phase) (ev : event) :
  advance path ph ev = Some ph' ->
  is_sequence_event ev = true ->
  ph = Holding /\ ph' = Holding.
Proof.
  destruct ph, ev; cbn; try discriminate;
    intros H _; injection H as <-; split; reflexivity.
Qed.

Lemma released_stays (path : string) (evs : list event) (ph : phase) :
  run_phase path Released evs = Some ph -> ph = Released.
Proof.
  induction evs as [|ev evs IH]; cbn.
  - intros H. injection H as <-. reflexivity.
  - destruct ev; try discriminate. exact IH.
Qed.

Lemma holding_between (path : string) (a b : list event) :
  run_phase path Holding (a ++ b) = Some Holding ->
  run_phase path Holding a = Some Holding.
Proof.
  induction a as [|ev a IH]; [reflexivity|].
  cbn [app run_phase].
  destruct (advance path Holding ev) as [ph|] eqn:Hadv; [|discriminate].
  assert (Hph : ph = Holding \/ ph = Released).
  { destruct ev; cbn in Hadv; try discriminate;
      try (injection Hadv as <-; left; reflexivity).
    destruct (String.eqb path0 path); [|discriminate].
    injection Hadv as <-. right. reflexivity. }
  destruct Hph as [-> | ->]; [exact IH|].
  intros H. rewrite run_phase_app in H.
  destruct (run_phase path Released a) as [ph|] eqn:Ha; [|discriminate].
  apply released_stays in Ha. subst ph.
  apply released_stays in H. discriminate.
Qed.

(** The phase of a call before and after the last event of a schedule. *)
Lemma phase_last (calls : list call) (g : schedule) (k : nat) (ev : event) :
  follows_phases calls (g ++ [(k, ev)]) ->
  exists c ph ph',
    calls !! k = Some c /\
    run_phase (call_path c) Away (project k g) = Some ph /\
    advance (call_path c) ph ev = Some ph' /\
    run_phase (call_path c) Away (project k (g ++ [(k, ev)])) = Some ph'.
Proof.
  intros H. specialize (H k). rewrite project_app in H. cbn [project] in H.
  rewrite Nat.eqb_refl in H.
  destruct (calls !! k) as [c|].
  2: { apply app_eq_nil in H. destruct H as [_ H]. discriminate. }
  exists c. rewrite project_app. cbn [project]. rewrite Nat.eqb_refl.
  rewrite run_phase_app in *.
  destruct (run_phase (call_path c) Away (project k g)) as [ph|];
    [|destruct H; discriminate].
  cbn [run_phase] in *.
  destruct (advance (call_path c) ph ev) as [ph'|] eqn:Hadv;
    [|destruct H; discriminate].
  exists ph, ph'. split; [reflexivity|]. split; [reflexivity|].
  split; [exact Hadv | reflexivity].
Qed.

Lemma phase_other (path : string) (g : schedule) (k i : nat) (ev : event) :
  Nat.eqb k i = false ->
  project i (g ++ [(k, ev)]) = project i g.
Proof.
  intros H. rewrite project_app. cbn [project]. rewrite H. apply app_nil_r.
Qed.

(** No two calls have the same lock file, in any schedule the file system
    allows. *)
Lemma exclusive_schedule (calls : list call) (files0 : gset string) :
  forall (g : schedule) (files : gset string),
    follows_phases calls g ->
    replay files0 g = Some files ->
    exclusive calls files g.
Proof.
  induction g as [|[k ev] g IH] using rev_ind; intros files' Hacc Hrep.
  { intros i c ph _ Hph Hlock. cbn in Hph. injection Hph as <-. discriminate. }
  rewrite replay_app in Hrep.
  destruct (replay files0 g) as [files|] eqn:Hfiles; [|discriminate].
  cbn [replay] in Hrep.
  destruct (file_effect files ev) as [files''|] eqn:Heff; [|discriminate].
  injection Hrep as ->.
  specialize (IH files (follows_phases_prefix _ _ _ Hacc) eq_refl).
  destruct (phase_last calls g k ev Hacc) as (ck & phk & phk' & Hck & Hphk & Hadv & Hphk').
  assert (Hnew : forall x c ph,
            calls !! x = Some c ->
            run_phase (call_path c) Away (project x (g ++ [(k, ev)])) = Some ph ->
            has_lock_file ph = true ->
            (x <> k /\ run_phase (call_path c) Away (project x g) = Some ph) \/
            (x = k /\ c = ck /\ ph = phk')).
  { intros x c ph Hc Hph Hlock. destruct (Nat.eqb k x) eqn:Hkx.
    - apply Nat.eqb_eq in Hkx. subst x. right.
      rewrite Hck in Hc. injection Hc as <-. rewrite Hphk' in Hph.
      injection Hph as <-. repeat split; reflexivity.
    - left. rewrite (phase_other (call_path c) g k x ev Hkx) in Hph.
      apply Nat.eqb_neq in Hkx. split; [congruence | exact Hph]. }
  intros i c ph Hc Hph Hlock.
  destruct (Hnew i c ph Hc Hph Hlock) as [[Hik Hold] | (-> & -> & ->)].
  - (* another call took the step *)
    destruct (IH i c ph Hc Hold Hlock) as [Hin Hexcl].
    split.
    + destruct (advance_removes _ _ _ _ _ _ Hadv Heff) as [Hsub | [-> ->]].
      * set_solver.
      * assert (call_path ck <> call_path c).
        { intros Heq. apply Hik. symmetry.
          apply (Hexcl k ck Holding Hck Hphk eq_refl Heq). }
        set_solver.
    + intros j c' ph' Hc' Hph' Hlock' Hpath.
      destruct (Hnew j c' ph' Hc' Hph' Hlock') as [[Hjk Hold'] | (-> & -> & ->)].
      * apply (Hexcl j c' ph' Hc' Hold' Hlock' Hpath).
      * destruct (has_lock_file phk) eqn:Hlk.
        -- apply (Hexcl k ck phk Hck Hphk Hlk Hpath).
        -- pose proof (advance_creates _ _ _ _ Hadv Hlk Hlock') as ->.
           cbn in Heff. rewrite Hpath in Heff.
           destruct (decide (call_path c ∈ files)); [discriminate|contradiction].
  - (* the call itself took the step *)
    destruct (has_lock_file phk) eqn:Hlk.
    + destruct (IH k ck phk Hck Hphk Hlk) as [Hin Hexcl].
      rewrite (advance_keeps _ _ _ _ files Hadv Hlk Hlock) in Heff.
      injection Heff as <-.
      split; [exact Hin|].
      intros j c' ph' Hc' Hph' Hlock' Hpath.
      destruct (Hnew j c' ph' Hc' Hph' Hlock') as [[Hjk Hold'] | (-> & _)];
        [|reflexivity].
      apply (Hexcl j c' ph' Hc' Hold' Hlock' Hpath).
    + pose proof (advance_creates _ _ _ _ Hadv Hlk Hlock) as ->.
      cbn in Heff.
      destruct (decide (call_path ck ∈ files)) as [|Hnot]; [discriminate|].
      injection Heff as <-.
      split; [set_solver|].
      intros j c' ph' Hc' Hph' Hlock' Hpath.
      destruct (Hnew j c' ph' Hc' Hph' Hlock') as [[Hjk Hold'] | (-> & _)];
        [|reflexivity].
      exfalso. apply Hnot. rewrite <- Hpath.
      apply (IH j c' ph' Hc' Hold' Hlock').
Qed.


(** In a schedule of calls that log what the phases allow, a call never
    takes a step of its sequence between two steps of the sequence of
    another call on the same lock location. *)
Lemma no_overlap (calls : list call) (files : gset string) (g : schedule)
    (i j : nat) (c c' : call) :
  follows_phases calls g ->
  consistent files g ->
  calls !! i = Some c ->
  calls !! j = Some c' ->
  call_path c = call_path c' ->
  i <> j ->
  ~ overlap i j g.
Proof.
  intros Hacc Hcons Hc Hc' Hpath Hij
         (g1 & e1 & g2 & e2 & g3 & e3 & g4 & -> & He1 & He2 & He3).
  assert (Hji : Nat.eqb j i = false) by (apply Nat.eqb_neq; congruence).
  (* the schedule up to the step of [j], and up to the second step of [i] *)
  set (before_j := g1 ++ (i, e1) :: g2).
  assert (Hsplit_j : g1 ++ (i, e1) :: g2 ++ (j, e2) :: g3 ++ (i, e3) :: g4
                     = (before_j ++ [(j, e2)]) ++ g3 ++ (i, e3) :: g4).
  { unfold before_j. rewrite <- ?app_assoc. cbn [app]. rewrite <- ?app_assoc.
    reflexivity. }
  assert (Hsplit_i : g1 ++ (i, e1) :: g2 ++ (j, e2) :: g3 ++ (i, e3) :: g4
                     = ((before_j ++ (j, e2) :: g3) ++ [(i, e3)]) ++ g4).
  { unfold before_j. rewrite <- ?app_assoc. cbn [app]. rewrite <- ?app_assoc.
    reflexivity. }
  assert (Hsplit_1 : g1 ++ (i, e1) :: g2 ++ (j, e2) :: g3 ++ (i, e3) :: g4
                     = (g1 ++ [(i, e1)]) ++ g2 ++ (j, e2) :: g3 ++ (i, e3) :: g4).
  { rewrite <- ?app_assoc. reflexivity. }
  (* [j] holds the lock when it takes its step *)
  assert (Hj : run_phase (call_path c') Away (project j before_j) = Some Holding).
  { pose proof Hacc as H. rewrite Hsplit_j in H.
    apply follows_phases_prefix in H.
    destruct (phase_last calls before_j j e2 H) as (cj & ph & ph' & Hcj & Hph & Hadv & _).
    rewrite Hc' in Hcj. injection Hcj as <-.
    destruct (advance_sequence _ _ _ _ Hadv He2) as [-> _]. exact Hph. }
  (* [i] holds the lock from its first step to its second *)
  assert (Hi1 : run_phase (call_path c) Away (project i (g1 ++ [(i, e1)]))
                = Some Holding).
  { pose proof Hacc as H. rewrite Hsplit_1 in H.
    apply follows_phases_prefix in H.
    destruct (phase_last calls g1 i e1 H) as (ci & ph & ph' & Hci & Hph & Hadv & Hph').
    rewrite Hc in Hci. injection Hci as <-.
    destruct (advance_sequence _ _ _ _ Hadv He1) as [_ ->]. exact Hph'. }
  assert (Hi3 : run_phase (call_path c) Away (project i (before_j ++ (j, e2) :: g3))
                = Some Holding).
  { pose proof Hacc as H. rewrite Hsplit_i in H.
    apply follows_phases_prefix in H.
    destruct (phase_last calls _ i e3 H) as (ci & ph & ph' & Hci & Hph & Hadv & _).
    rewrite Hc in Hci. injection Hci as <-.
    destruct (advance_sequence _ _ _ _ Hadv He3) as [-> _]. exact Hph. }
  assert (Hi : run_phase (call_path c) Away (project i before_j) = Some Holding).
  { unfold before_j in *.
    change (g1 ++ (i, e1) :: g2) with (g1 ++ [(i, e1)] ++ g2) in *.
    rewrite app_assoc in *.
    rewrite <- app_assoc, project_app, run_phase_app, Hi1 in Hi3.
    rewrite project_app in Hi3.
    rewrite project_app, run_phase_app, Hi1.
    apply (holding_between _ _ _ Hi3). }
  (* but no two calls have the same lock file *)
  destruct Hcons as [files' Hrep]. rewrite Hsplit_j, <- app_assoc, replay_app in Hrep.
  destruct (replay files before_j) as [files_j|] eqn:Hfiles; [|discriminate].
  pose proof Hacc as H. rewrite Hsplit_j, <- app_assoc in H.
  apply follows_phases_prefix in H.
  destruct (exclusive_schedule calls files before_j files_j H Hfiles
              i c Holding Hc Hi eq_refl) as [_ Hexcl].
  apply Hij. symmetry.
  apply (Hexcl j c' Holding Hc' Hj eq_refl). symmetry. exact Hpath.
Qed.

(** The first step of a sequence that one of two calls takes. *)
Lemma first_sequence_step (i j : nat) (g : schedule) :
  (forall x e, In (x, e) g -> x = i \/ x = j -> is_sequence_event e = false) \/
  exists g1 x e g2,
    g = g1 ++ (x, e) :: g2 /\ (x = i \/ x = j) /\ is_sequence_event e = true /\
    forall y e', In (y, e') g1 -> y = i \/ y = j -> is_sequence_event e' = false.
Proof.
  induction g as [|[x e] g IH].
  - left. intros x e [].
  - assert (Hhead : (x = i \/ x = j) /\ is_sequence_event e = true \/
                    ((x = i \/ x = j) -> is_sequence_event e = false)).
    { destruct (is_sequence_event e); [|right; reflexivity].
      destruct (Nat.eq_dec x i) as [->|Hi]; [left; split; [left|]; reflexivity|].
      destruct (Nat.eq_dec x j) as [->|Hj]; [left; split; [right|]; reflexivity|].
      right. intros [H|H]; contradiction. }
    destruct Hhead as [[Hx He] | Hhead].
    + right. exists [], x, e, g. split; [reflexivity|]. split; [exact Hx|].
      split; [exact He|]. intros y e' [].
    + destruct IH as [Hnone | (g1 & y & e' & g2 & -> & Hy & He' & Hg1)].
      * left. intros y e' [Heq | Hin] Hy.
        -- injection Heq as <- <-. apply Hhead. exact Hy.
        -- apply (Hnone y e' Hin Hy).
      * right. exists ((x, e) :: g1), y, e', g2. split; [reflexivity|].
        split; [exact Hy|]. split; [exact He'|].
        intros z e'' [Heq | Hin] Hz.
        -- injection Heq as <- <-. apply Hhead. exact Hz.
        -- apply (Hg1 z e'' Hin Hz).
Qed.

(** Without overlap, the call that takes the first step of a sequence takes
    the last step of its sequence before the other call takes its first. *)
Lemma first_precedes (i j : nat) (g g1 g2 : schedule) (e : event) :
  i <> j ->
  ~ overlap i j g ->
  g = g1 ++ (i, e) :: g2 ->
  is_sequence_event e = true ->
  (forall y e', In (y, e') g1 -> y = i \/ y = j -> is_sequence_event e' = false) ->
  precedes i j g.
Proof.
  intros Hij Hno -> He Hg1 h1 ej h2 ei Hsplit Hej Hin.
  destruct (is_sequence_event ei) eqn:Hei; [|reflexivity].
  exfalso. apply Hno.
  apply in_split in Hin. destruct Hin as (m1 & m2 & ->).
  apply app_eq_app in Hsplit.
  destruct Hsplit as (l & [[-> Hl] | [-> Hl]]).
  - (* the step of [j] would be before the first step *)
    destruct l as [|[y e'] l].
    + cbn in Hl. injection Hl as Heq _. congruence.
    + cbn in Hl. injection Hl as <- <- _.
      rewrite (Hg1 j ej) in Hej; [discriminate| |right; reflexivity].
      apply in_or_app. right. left. reflexivity.
  - destruct l as [|[y e'] l].
    + cbn in Hl. injection Hl as Heq _. congruence.
    + cbn in Hl. injection Hl as <- <- ->.
      exists g1, e, l, ej, m1, ei, m2.
      split; [rewrite <- ?app_assoc; reflexivity|]. repeat split; assumption.
Qed.

(** C1. Any number of calls of [modify] run concurrently, each on a cache
    object of its own, in any environment and from any state; the schedule
    is any interleaving of what the calls log that the file system allows
    (exclusive creation returns only if the lock file is not there, and only
    [os.remove] takes it away), from any set of lock files left behind
    before.  For every two calls on the same lock location, the reload,
    mutation, serialization and save steps do not interleave: neither call
    takes such a step between two such steps of the other, and one of the
    calls has taken its last such step before the other takes its first. *)
Theorem modify_sequences_never_interleave :
  forall (calls : list call) (files : gset string) (g : schedule)
         (i j : nat) (c c' : call),
    Forall is_modify_call calls ->
    interleaves calls g ->
    consistent files g ->
    calls !! i = Some c ->
    calls !! j = Some c' ->
    call_path c = call_path c' ->
    i <> j ->
    ~ overlap i j g /\ ~ overlap j i g /\ (precedes i j g \/ precedes j i g).
Proof.
  intros calls files g i j c c' Hcalls Hg Hcons Hc Hc' Hpath Hij.
  pose proof (interleaves_follows_phases calls g Hcalls Hg) as Hacc.
  assert (Hno : ~ overlap i j g).
  { apply (no_overlap calls files g i j c c'); assumption. }
  assert (Hno' : ~ overlap j i g).
  { apply (no_overlap calls files g j i c' c); try assumption; congruence. }
  split; [exact Hno|]. split; [exact Hno'|].
  destruct (first_sequence_step i j g)
    as [Hnone | (g1 & x & e & g2 & Hsplit & [-> | ->] & He & Hg1)].
  - left. intros h1 ej h2 ei -> _ Hin.
    apply (Hnone i ei); [|left; reflexivity].
    apply in_or_app. right. right. exact Hin.
  - left. apply (first_precedes i j g g1 g2 e); assumption.
  - right. apply (first_precedes j i g g1 g2 e); try assumption; [congruence|].
    intros y e' Hin [H|H]; apply (Hg1 y e' Hin); [right|left]; exact H.
Qed.


Lemma modify_sequences_never_interleave_witness :
  let calls := [first_call; second_call] in
  Forall is_modify_call calls /\
  interleaves calls one_after_the_other /\
  consistent ∅ one_after_the_other /\
  ~ overlap 0 1 one_after_the_other /\
  ~ overlap 1 0 one_after_the_other /\
  precedes 0 1 one_after_the_other.
Proof.
  cbv zeta.
  assert (Hcalls : Forall is_modify_call [first_call; second_call]).
  { repeat constructor.
    - exists bytes, Demo.text_cache, Demo.quiet, 30%nat, "RefreshToken", None,
        (Some [("secret", "x")]), (Demo.fresh Demo.quiet).
      split; vm_compute; reflexivity.
    - exists bytes, Demo.text_cache, Demo.second_process, 30%nat, "IdToken", None,
        (Some [("secret", "y")]), (Demo.fresh Demo.second_process).
      split; vm_compute; reflexivity. }
  assert (Hg : interleaves [first_call; second_call] one_after_the_other).
  { intros [|[|i]]; cbn [lookup list_lookup].
    - exists []. vm_compute. reflexivity.
    - exists []. vm_compute. reflexivity.
    - reflexivity. }
  assert (Hcons : consistent ∅ one_after_the_other).
  { eexists. vm_compute. reflexivity. }
  destruct (modify_sequences_never_interleave
              [first_call; second_call] ∅ one_after_the_other 0 1
              first_call second_call Hcalls Hg Hcons eq_refl eq_refl eq_refl
              ltac:(discriminate))
    as (Hno & Hno' & Horder).
  split; [exact Hcalls|]. split; [exact Hg|]. split; [exact Hcons|].
  split; [exact Hno|]. split; [exact Hno'|].
  destruct Horder as [H|H]; [exact H|].
  exfalso.
  specialize (H (firstn 8 one_after_the_other)
                (EvTimeLastModified (inr 50%Q))
                (skipn 9 one_after_the_other)
                (EvTimeLastModified (inr 101%Q))
                eq_refl eq_refl).
  discriminate H.
  cbn. do 16 right. left. reflexivity.
Defined.

(** A schedule in which two sequences interleave is not one the file system
    allows: the second call would have to create the lock file that the
    first has. *)
Lemma overlapping_is_refused :
  interleaves [first_call; first_call] overlapping /\
  overlap 0 1 overlapping /\
  ~ consistent ∅ overlapping.
Proof.
  split; [|split].
  - intros [|[|i]]; cbn [lookup list_lookup]; [| |reflexivity].
    + exists (skipn 11 (call_log first_call)). reflexivity.
    + exists (skipn 6 (call_log first_call)). reflexivity.
  - exists (firstn 4 overlapping), (EvTimeLastModified (inr 50%Q)),
      (firstn 5 (skipn 5 overlapping)), (EvTimeLastModified (inr 50%Q)),
      [(1%nat, EvLoad (inr "{}"))], (EvDeserialize "{}" None),
      (skipn 13 overlapping).
    repeat split; reflexivity.
  - intros [files H]. vm_compute in H. discriminate H.
Qed.

End Exclusion.

(** * Further properties of the lock *)

Section Retry.

Context {C : Type} {base : SerializableTokenCache C}.
Variable env : Env.
Variables (lockpath : string) (content : bytes).

Lemma after_failed_attempt_effect (s : State C) :
  let s' := after_failed_attempt env lockpath s in
  self s' = self s /\
  n_clock env (world s') = S (n_clock env (world s)) /\
  n_open (world s') = S (n_open (world s)) /\
  n_write (world s') = n_write (world s) /\
  trace (world s') =
    trace (world s) ++
      [EvClock env (clock env (n_clock env (world s)));
       EvOpenX lockpath (Some FileExistsError);
       EvDebug found_lock_fmt; EvSleep check_interval].
Proof.
  cbv zeta. unfold after_failed_attempt. rewrite current_time_effect.
  unfold n_clock, clock, EvClock.
  destruct (has_monotonic env); cbn; rewrite <- !app_assoc; repeat split.
Qed.

(** After [rounds] failed turns: [rounds] clock readings and creation
    attempts were made, nothing was written, and the log is the log of the
    wait without the clock reading of the next loop test. *)
Lemma waited_effect (rounds : nat) :
  forall s : State C,
    let s' := waited env lockpath rounds s in
    self s' = self s /\
    n_clock env (world s') = (n_clock env (world s) + rounds)%nat /\
    n_open (world s') = (n_open (world s) + rounds)%nat /\
    n_write (world s') = n_write (world s) /\
    trace (world s') ++ [EvClock env (clock env (n_clock env (world s) + rounds))] =
      trace (world s) ++ waiting_events env lockpath (n_clock env (world s)) rounds.
Proof.
  induction rounds as [|r IH]; intros s; cbv zeta.
  - cbn. rewrite !Nat.add_0_r. repeat split.
  - cbn [waited waiting_events].
    destruct (after_failed_attempt_effect s) as (Hs & Hk & Ho & Hw & Htr).
    destruct (IH (after_failed_attempt env lockpath s)) as (Hs' & Hk' & Ho' & Hw' & Htr').
    split; [congruence|]. split; [rewrite Hk', Hk; lia|].
    split; [rewrite Ho', Ho; lia|]. split; [congruence|].
    rewrite Hk in Htr'.
    replace (n_clock env (world s) + S r)%nat with (S (n_clock env (world s)) + r)%nat
      by lia.
    rewrite Htr', Htr, <- app_assoc. reflexivity.
Qed.

(** The loop goes through every turn whose test finds the deadline ahead
    and whose creation attempt fails with [FileExistsError]. *)
Lemma lock_loop_waited (deadline : Q) (rounds : nat) :
  forall (fuel : nat) (s : State C),
    (forall i, (i < rounds)%nat ->
               os_open_x env (n_open (world s) + i) = Some FileExistsError) ->
    (forall i, (i < rounds)%nat ->
               clock env (n_clock env (world s) + i) < deadline) ->
    lock_loop env (rounds + fuel) lockpath content deadline s =
    lock_loop env fuel lockpath content deadline (waited env lockpath rounds s).
Proof.
  induction rounds as [|r IH]; intros fuel s Hopen Hbefore; [reflexivity|].
  cbn [Nat.add waited]. rewrite lock_loop_turn. cbv zeta.
  pose proof (Hbefore 0%nat ltac:(lia)) as H0. rewrite Nat.add_0_r in H0.
  apply Qltb_lt in H0. rewrite H0.
  pose proof (Hopen 0%nat ltac:(lia)) as Ho. rewrite Nat.add_0_r in Ho.
  rewrite Ho. cbn [is_ValueError FileExistsError is_FileExistsError].
  change (Z.eqb EEXIST EEXIST) with true. cbn iota.
  destruct (after_failed_attempt_effect s) as (_ & Hk & Hno & _).
  rewrite <- IH.
  - reflexivity.
  - intros i Hi. rewrite Hno. rewrite <- (Hopen (S i)) by lia. f_equal. lia.
  - intros i Hi. rewrite Hk.
    replace (S (n_clock env (world s)) + i)%nat
      with (n_clock env (world s) + S i)%nat by lia.
    apply Hbefore. lia.
Qed.

(** [_create_lock_file] is its loop, run after the first clock reading. *)
Lemma create_lock_file_start (fuel : nat) (s : State C) :
  _create_lock_file env fuel lockpath content s =
    lock_loop env fuel lockpath content
      (float_add (clock env (n_clock env (world s))) timeout)
      (snd (current_time env s)).
Proof.
  unfold _create_lock_file, bind. rewrite current_time_effect. reflexivity.
Qed.

Lemma current_time_counters (s : State C) :
  let s' := snd (current_time env s) in
  self s' = self s /\
  n_clock env (world s') = S (n_clock env (world s)) /\
  n_open (world s') = n_open (world s) /\
  n_write (world s') = n_write (world s) /\
  trace (world s') = trace (world s) ++ [EvClock env (clock env (n_clock env (world s)))].
Proof.
  cbv zeta. rewrite current_time_effect. unfold n_clock, clock, EvClock.
  destruct (has_monotonic env); cbn; repeat split.
Qed.

End Retry.



(** X2. A creation attempt that fails with anything but [FileExistsError]
    ends the acquisition at once, also after [rounds] turns of waiting
    (their loop tests, and the one of the last turn, reading the clock
    before the deadline [timeout_end], the float sum of the first reading
    and 5): nothing is written, there is no sleep after it and no further attempt.
    A [ValueError] becomes the [LockError] about Python 2; any other
    exception is raised as it is. *)
Theorem lock_creation_errors_are_not_retried :
  forall (C : Type) (base : SerializableTokenCache C) (env : Env)
         (lockpath : string) (content : bytes) (s : State C) (rounds fuel : nat)
         (e : exn),
    let k0 := n_clock env (world s) in
    let deadline := float_add (clock env k0) timeout in
    (forall i, (i < rounds)%nat ->
               os_open_x env (n_open (world s) + i) = Some FileExistsError) ->
    os_open_x env (n_open (world s) + rounds) = Some e ->
    is_FileExistsError e = false ->
    (forall i, (i <= rounds)%nat -> clock env (S k0 + i) < deadline) ->
    (rounds < fuel)%nat ->
    let run := _create_lock_file env fuel lockpath content s in
    fst run = Raise (if is_ValueError e then LockError python2_message else e) /\
    self (snd run) = self s /\
    n_open (world (snd run)) = S (n_open (world s) + rounds) /\
    n_write (world (snd run)) = n_write (world s) /\
    trace (world (snd run)) =
      trace (world s) ++
        (EvClock env (clock env k0) :: waiting_events env lockpath (S k0) rounds) ++
        [EvOpenX lockpath (Some e)] /\
    sleeps (EvClock env (clock env k0) :: waiting_events env lockpath (S k0) rounds)
      = repeat check_interval rounds.
Proof.
  intros C base env lockpath content s rounds fuel e k0 deadline
         Hopen Hfail Hnot Hbefore Hfuel run.
  subst run. rewrite create_lock_file_start. fold k0. fold deadline.
  destruct (current_time_counters env s) as (Hs1 & Hk1 & Ho1 & Hw1 & Htr1).
  set (s1 := snd (current_time env s)) in *.
  replace fuel with (rounds + S (fuel - rounds - 1))%nat by lia.
  rewrite lock_loop_waited.
  2: { intros i Hi. rewrite Ho1. apply Hopen. exact Hi. }
  2: { intros i Hi. rewrite Hk1. apply Hbefore. lia. }
  destruct (waited_effect env lockpath rounds s1) as (Hsw & Hkw & How & Hww & Htrw).
  set (sw := waited env lockpath rounds s1) in *.
  rewrite lock_loop_turn. cbv zeta.
  assert (Ht : Qltb (clock env (n_clock env (world sw))) deadline = true).
  { apply Qltb_lt. rewrite Hkw, Hk1. apply Hbefore. lia. }
  rewrite Ht. rewrite How, Ho1, Hfail, Hnot.
  destruct (current_time_counters env sw) as (Hs2 & _ & Ho2 & Hw2 & Htr2).
  assert (Hend :
    forall out : outcome unit,
      let s2 := mkState (self sw)
                  (log (EvOpenX lockpath (Some e))
                     (tick_open (world (snd (current_time env sw))))) in
      self s2 = self s /\
      n_open (world s2) = S (n_open (world s) + rounds) /\
      n_write (world s2) = n_write (world s) /\
      trace (world s2) =
        trace (world s) ++
          (EvClock env (clock env k0) :: waiting_events env lockpath (S k0) rounds) ++
          [EvOpenX lockpath (Some e)]).
  { intros _. cbn [self world log tick_open trace n_open n_write].
    split; [congruence|]. split; [rewrite Ho2, How, Ho1; reflexivity|].
    split; [rewrite Hw2, Hww, Hw1; reflexivity|].
    rewrite Htr2, Hkw, Htrw, Hk1, Htr1, <- !app_assoc. reflexivity. }
  specialize (Hend (Val tt)). cbv zeta in Hend.
  destruct Hend as (He1 & He2 & He3 & He4).
  assert (Hsl : sleeps (EvClock env (clock env k0)
                          :: waiting_events env lockpath (S k0) rounds)
                = repeat check_interval rounds).
  { change (EvClock env (clock env k0) :: waiting_events env lockpath (S k0) rounds)
      with ([EvClock env (clock env k0)] ++ waiting_events env lockpath (S k0) rounds).
    rewrite sleeps_app, sleeps_waiting_events.
    unfold EvClock. destruct (has_monotonic env); reflexivity. }
  destruct (is_ValueError e); cbn [fst snd];
    (split; [reflexivity|]); repeat (split; [assumption|]); exact Hsl.
Qed.

Lemma lock_creation_errors_are_not_retried_witness :
  let env := Demo.python2 in
  let run := _create_lock_file env 30 Demo.shared_lock "4242 app.py" (Demo.fresh env) in
  fst run = Raise (LockError python2_message) /\
  n_open (world (snd run)) = 1%nat /\
  n_write (world (snd run)) = 0%nat.
Proof.
  cbv zeta.
  set (env := Demo.python2). set (s := Demo.fresh env).
  assert (Hopen : forall i, (i < 0)%nat ->
            os_open_x env (n_open (world s) + i) = Some FileExistsError)
    by (intros i Hi; lia).
  assert (Hbefore : forall i, (i <= 0)%nat ->
            clock env (S (n_clock env (world s)) + i)
            < float_add (clock env (n_clock env (world s))) timeout).
  { intros i Hi. destruct i as [|i]; [vm_compute; reflexivity | lia]. }
  pose proof (lock_creation_errors_are_not_retried bytes Demo.text_cache env
                Demo.shared_lock "4242 app.py" s 0 30 ValueError Hopen eq_refl eq_refl
                Hbefore ltac:(lia)) as H.
  cbv zeta in H. destruct H as (Hout & _ & Hn & Hw & _).
  split; [exact Hout|]. split; [rewrite Hn | rewrite Hw]; reflexivity.
Defined.

Section Frame.

Context {C : Type} {base : SerializableTokenCache C}.
Variable env : Env.

Lemma untouched_refl (s : State C) : untouched_by_lock s s.
Proof.
  repeat split. exists []. split; [rewrite app_nil_r|]; reflexivity.
Qed.

Lemma untouched_trans (s s' s'' : State C) :
  untouched_by_lock s s' -> untouched_by_lock s' s'' -> untouched_by_lock s s''.
Proof.
  intros (H1 & H2 & H3 & H4 & H5 & evs & H6 & H7)
         (G1 & G2 & G3 & G4 & G5 & evs' & G6 & G7).
  split; [congruence|]. split; [congruence|]. split; [congruence|].
  split; [congruence|]. split; [congruence|].
  exists (evs ++ evs'). split.
  - rewrite G6, H6, app_assoc. reflexivity.
  - rewrite forallb_app, H7, G7. reflexivity.
Qed.

Lemma untouched_events (s : State C) (w : World) (evs : list event) :
  n_tlm w = n_tlm (world s) -> n_load w = n_load (world s) ->
  n_save w = n_save (world s) -> n_remove w = n_remove (world s) ->
  trace w = trace (world s) ++ evs ->
  forallb is_acquire_event evs = true ->
  untouched_by_lock s (mkState (self s) w).
Proof.
  intros. repeat split; try assumption. exists evs. split; assumption.
Qed.

Lemma current_time_untouched (s : State C) :
  untouched_by_lock s (snd (current_time env s)).
Proof.
  rewrite current_time_effect. cbn [snd]. unfold EvClock.
  destruct (has_monotonic env);
    (eapply untouched_events; [reflexivity..| cbn; reflexivity | reflexivity]).
Qed.

Lemma lock_loop_untouched (lockpath : string) (content : bytes) (deadline : Q)
    (fuel : nat) :
  forall s : State C,
    untouched_by_lock s (snd (lock_loop env fuel lockpath content deadline s)).
Proof.
  induction fuel as [|fuel IH]; intros s; [apply untouched_refl|].
  rewrite lock_loop_turn. cbv zeta.
  pose proof (current_time_untouched s) as H0.
  set (s0 := snd (current_time env s)) in *.
  assert (Hself0 : self s0 = self s) by apply H0.
  assert (Hadd : forall evs w,
            n_tlm w = n_tlm (world s0) -> n_load w = n_load (world s0) ->
            n_save w = n_save (world s0) -> n_remove w = n_remove (world s0) ->
            trace w = trace (world s0) ++ evs ->
            forallb is_acquire_event evs = true ->
            untouched_by_lock s (mkState (self s) w)).
  { intros evs w T1 T2 T3 T4 T5 T6.
    apply (untouched_trans _ _ _ H0). rewrite <- Hself0.
    apply (untouched_events s0 w evs); assumption. }
  assert (Hnext : forall evs w,
            n_tlm w = n_tlm (world s0) -> n_load w = n_load (world s0) ->
            n_save w = n_save (world s0) -> n_remove w = n_remove (world s0) ->
            trace w = trace (world s0) ++ evs ->
            forallb is_acquire_event evs = true ->
            untouched_by_lock s
              (snd (lock_loop env fuel lockpath content deadline (mkState (self s) w)))).
  { intros evs w T1 T2 T3 T4 T5 T6.
    eapply untouched_trans; [|apply IH].
    apply (Hadd evs w); assumption. }
  destruct (Qltb _ deadline); [|exact H0].
  destruct (os_open_x env (n_open (world s))) as [ex|].
  - destruct (is_ValueError ex); [|destruct (is_FileExistsError ex)]; cbn [snd].
    + apply (Hadd [EvOpenX lockpath (Some ex)]); reflexivity.
    + apply (Hnext [EvOpenX lockpath (Some ex); EvDebug found_lock_fmt;
                    EvSleep check_interval]); try reflexivity.
      cbn. rewrite <- !app_assoc. reflexivity.
    + apply (Hadd [EvOpenX lockpath (Some ex)]); reflexivity.
  - destruct (file_write env (n_write (world s))) as [ex|]; cbn [snd].
    + destruct (is_ValueError ex); [|destruct (is_FileExistsError ex)]; cbn [snd].
      * apply (Hadd [EvOpenX lockpath None; EvWrite content (Some ex)]);
          try reflexivity.
        cbn. rewrite <- !app_assoc. reflexivity.
      * apply (Hnext [EvOpenX lockpath None; EvWrite content (Some ex);
                      EvDebug found_lock_fmt; EvSleep check_interval]);
          try reflexivity.
        cbn. rewrite <- !app_assoc. reflexivity.
      * apply (Hadd [EvOpenX lockpath None; EvWrite content (Some ex)]);
          try reflexivity.
        cbn. rewrite <- !app_assoc. reflexivity.
    + apply (Hadd [EvOpenX lockpath None; EvWrite content None]); try reflexivity.
      cbn. rewrite <- !app_assoc. reflexivity.
Qed.

Lemma enter_untouched (fuel : nat) (lockpath : string) (s : State C) :
  untouched_by_lock s (snd (__enter__ env fuel lockpath s)).
Proof.
  unfold __enter__. rewrite create_lock_file_start.
  eapply untouched_trans; [apply current_time_untouched | apply lock_loop_untouched].
Qed.

End Frame.

(** X3. A call of [modify] that does not get the lock does nothing else:
    it ends as the acquisition ended, the cache object is unchanged, the
    backend is neither asked for its modification time nor loaded nor
    saved, and [os.remove] is not called, not even when the lock file had
    been created and writing its content failed. *)
Theorem modify_without_lock_does_nothing :
  forall (C : Type) (base : SerializableTokenCache C) (env : Env) (fuel : nat)
         (credential_type : string) (old_entry : option dict)
         (new_key_value_pairs : option dict) (s : State C),
    let acquire := __enter__ env fuel (_lock_location (self s)) s in
    let run := modify env fuel credential_type old_entry new_key_value_pairs s in
    fst acquire <> Val tt ->
    (fst run = fst acquire /\ fst run <> Val tt) /\
    self (snd run) = self s /\
    n_tlm (world (snd run)) = n_tlm (world s) /\
    n_load (world (snd run)) = n_load (world s) /\
    n_save (world (snd run)) = n_save (world s) /\
    n_remove (world (snd run)) = n_remove (world s) /\
    exists evs, trace (world (snd run)) = trace (world s) ++ evs /\
                forallb is_acquire_event evs = true.
Proof.
  intros C base env fuel ct old new s acquire run Hfail.
  pose proof (enter_untouched env fuel (_lock_location (self s)) s) as Hu.
  subst run. rewrite modify_unfold. fold acquire in Hu |- *.
  destruct acquire as [[[]|e|] s1]; cbn [fst snd] in *; [congruence| |];
    (split; [split; [reflexivity | discriminate] | exact Hu]).
Qed.

Lemma modify_without_lock_does_nothing_witness :
  let env := Demo.stale in
  let s := Demo.fresh env in
  let run := modify env 30 "RefreshToken" None None s in
  fst run = Raise (LockError (stale_message Demo.shared_lock)) /\
  self (snd run) = self s /\
  n_save (world (snd run)) = 0%nat /\
  n_remove (world (snd run)) = 0%nat.
Proof.
  cbv zeta.
  assert (Hfail : fst (__enter__ Demo.stale 30 (_lock_location (self (Demo.fresh Demo.stale)))
                         (Demo.fresh Demo.stale)) <> Val tt)
    by (vm_compute; discriminate).
  pose proof (modify_without_lock_does_nothing bytes Demo.text_cache Demo.stale 30
                "RefreshToken" None None (Demo.fresh Demo.stale) Hfail) as H.
  cbv zeta in H. destruct H as ((Hout & _) & Hself & _ & _ & Hsave & Hrem & _).
  split; [rewrite Hout; vm_compute; reflexivity|]. split; [exact Hself|].
  split; [rewrite Hsave | rewrite Hrem]; reflexivity.
Defined.

(** * Further properties of find *)

Section ReadOnly.

Context {C : Type} {base : SerializableTokenCache C}.
Variable env : Env.
Variables (credential_type : string) (kwargs : dict).

Lemma read_only_refl (s : State C) : read_only_between s s.
Proof.
  repeat split. exists []. split; [rewrite app_nil_r|]; reflexivity.
Qed.

Lemma read_only_trans (s s' s'' : State C) :
  read_only_between s s' -> read_only_between s' s'' -> read_only_between s s''.
Proof.
  intros (H1 & H2 & H3 & H4 & H5 & H6 & H7 & H8 & evs & H9 & H10)
         (G1 & G2 & G3 & G4 & G5 & G6 & G7 & G8 & evs' & G9 & G10).
  do 8 (split; [congruence|]).
  exists (evs ++ evs'). split.
  - rewrite G9, H9, app_assoc. reflexivity.
  - rewrite forallb_app, H10, G10. reflexivity.
Qed.

Lemma reload_read_only (s : State C) :
  read_only_between s (snd (_reload_if_necessary env s)).
Proof.
  unfold read_only_between, _reload_if_necessary. run.
  destruct (p_time_last_modified env (n_tlm (world s))) as [e|t]; cbn;
    [destruct (is_PersistenceNotFound e)
    |destruct (Qltb (_last_sync (self s)) t); cbn;
     [destruct (p_load env (n_load (world s))) as [e|data]; cbn;
      [destruct (is_PersistenceNotFound e)
      |destruct (base_deserialize data (_cache (self s))) as [[e|] c]; cbn;
       [destruct (is_PersistenceNotFound e)|]]
     |]];
    cbn;
    (do 8 (split; [reflexivity|]);
     eexists; split; [rewrite <- ?app_assoc; reflexivity | reflexivity]).
Qed.

Lemma super_find_read_only (s : State C) :
  read_only_between s (snd (super_find credential_type kwargs s)).
Proof.
  unfold read_only_between. run.
  destruct (base_find credential_type kwargs (_cache (self s))) as [[e|l] c]; cbn;
    (do 8 (split; [reflexivity|]); eexists; split; reflexivity).
Qed.

Lemma after_pause_read_only (s : State C) : read_only_between s (after_pause s).
Proof.
  unfold read_only_between, after_pause. run. cbn.
  do 8 (split; [reflexivity|]).
  exists [EvDebug unable_to_load_fmt; EvSleep (1 # 2)].
  split; [rewrite <- app_assoc|]; reflexivity.
Qed.

Lemma find_loop_read_only (attempts : list nat) :
  forall s : State C,
    read_only_between s (snd (find_loop env attempts credential_type kwargs s)).
Proof.
  induction attempts as [|attempt rest IH]; intros s; [apply read_only_refl|].
  rewrite find_loop_turn.
  pose proof (reload_read_only s) as Hr.
  destruct (_reload_if_necessary env s) as [[[]|ex|] s1]; cbn [snd] in *.
  - apply (read_only_trans _ _ _ Hr).
    pose proof (super_find_read_only s1) as Hf. unfold bind, ret.
    destruct (super_find credential_type kwargs s1) as [[l|e|] s2]; exact Hf.
  - destruct (is_Exception ex && (attempt <? retry)%nat); [|exact Hr].
    apply (read_only_trans _ _ _ Hr).
    apply (read_only_trans _ _ _ (after_pause_read_only s1)). apply IH.
  - exact Hr.
Qed.

(** A loop of [find] that does not reach the lookup raises and leaves
    [_last_sync] and the wall clock as they were. *)
Lemma find_loop_lookup_or_unsynced (k : nat) :
  forall (first : nat) (s : State C),
    (first + k = retry)%nat ->
    let run := (r <- find_loop env (seq first (S k)) credential_type kwargs ;;
                ret (find_value r)) s in
    (exists s0 s1, _reload_if_necessary env s0 = (Val tt, s1) /\
                   run = super_find credential_type kwargs s1) \/
    (exists e, fst run = Raise e /\
               _last_sync (self (snd run)) = _last_sync (self s) /\
               n_time (world (snd run)) = n_time (world s)).
Proof.
  induction k as [|k IH]; intros first s Hk run; subst run.
  all: match goal with
       | |- context [seq ?a (S ?n)] =>
           change (seq a (S n)) with (a :: seq (S a) n)
       end.
  all: pose proof (reload_effect env s) as Hre; cbv zeta in Hre.
  all: destruct Hre as (Hfuel & _ & _ & _ & _ & _ & _ & _ & _ & Hsync).
  all: destruct (_reload_if_necessary env s) as [[[]|ex|] s1] eqn:Er;
    cbn [fst snd] in *; [| |congruence].
  - left. exists s, s1. split; [exact Er | apply find_loop_success; exact Er].
  - destruct Hsync as [(Hls & Hnt) | (Hval & _)]; [|discriminate].
    right. exists ex.
    assert (Hrun : (r <- find_loop env (first :: seq (S first) 0) credential_type kwargs ;;
                    ret (find_value r)) s = (Raise ex, s1)).
    { unfold bind at 1. rewrite find_loop_turn, Er.
      assert (Hlast : (first <? retry)%nat = false) by (apply Nat.ltb_ge; lia).
      rewrite Hlast, andb_false_r. reflexivity. }
    rewrite Hrun. cbn [fst snd]. split; [reflexivity | split; assumption].
  - left. exists s, s1. split; [exact Er | apply find_loop_success; exact Er].
  - destruct Hsync as [(Hls & Hnt) | (Hval & _)]; [|discriminate].
    destruct (is_Exception ex) eqn:Hex.
    + rewrite (find_loop_retry env credential_type kwargs _ _ s s1 ex Er Hex)
        by lia.
      destruct (IH (S first) (after_pause s1) ltac:(lia))
        as [Hlook | (e & He & Hls' & Hnt')].
      * left. exact Hlook.
      * right. exists e. split; [exact He|].
        split; [rewrite Hls', <- Hls | rewrite Hnt', <- Hnt]; reflexivity.
    + right. exists ex.
      assert (Hrun : (r <- find_loop env (first :: seq (S first) (S k))
                              credential_type kwargs ;;
                      ret (find_value r)) s = (Raise ex, s1)).
      { unfold bind at 1. rewrite find_loop_turn, Er, Hex. reflexivity. }
      rewrite Hrun. cbn [fst snd]. split; [reflexivity | split; assumption].
Qed.

End ReadOnly.

(** X4. [find] is a read without the lock: it never reads the monotonic
    clock, never tries to create, write or remove the lock file, never
    saves to the backend, and leaves the lock location and [is_encrypted]
    of the object alone.  All it does is ask the backend for its
    modification time, load, deserialize, read the wall clock, log, sleep
    and look up in memory. *)
Theorem find_never_locks_or_writes :
  forall (C : Type) (base : SerializableTokenCache C) (env : Env)
         (credential_type : string) (kwargs : dict) (s : State C),
    let s' := snd (find env credential_type kwargs s) in
    n_monotonic (world s') = n_monotonic (world s) /\
    n_open (world s') = n_open (world s) /\
    n_write (world s') = n_write (world s) /\
    n_remove (world s') = n_remove (world s) /\
    n_mkdir (world s') = n_mkdir (world s) /\
    n_save (world s') = n_save (world s) /\
    _lock_location (self s') = _lock_location (self s) /\
    is_encrypted (self s') = is_encrypted (self s) /\
    exists evs, trace (world s') = trace (world s) ++ evs /\
                forallb is_find_event evs = true.
Proof.
  intros C base env ct kw s s'. subst s'. rewrite find_state.
  apply find_loop_read_only.
Qed.

(** X5. An exception of the reload that is not an [Exception] (a
    [KeyboardInterrupt], say) is not caught by [find]: it is raised at once,
    at the first attempt or at a later one, without the debug line and the
    0.5 s sleep that follow a caught failure. *)
Theorem find_does_not_retry_base_exceptions :
  forall (C : Type) (base : SerializableTokenCache C) (env : Env)
         (credential_type : string) (kwargs : dict) (s : State C),
    let reload := _reload_if_necessary env in
    (forall e s1,
        reload s = (Raise e, s1) -> is_Exception e = false ->
        find env credential_type kwargs s = (Raise e, s1)) /\
    (forall e1 s1 e s2,
        reload s = (Raise e1, s1) -> is_Exception e1 = true ->
        reload (after_pause s1) = (Raise e, s2) -> is_Exception e = false ->
        find env credential_type kwargs s = (Raise e, s2)).
Proof.
  intros C base env ct kw s reload. subst reload.
  unfold find, find_tagged. change (seq 1 retry) with [1; 2; 3]%nat.
  split.
  - intros e s1 Hr He. unfold bind at 1. rewrite find_loop_turn, Hr, He. reflexivity.
  - intros e1 s1 e s2 H1 E1 H2 E2.
    rewrite (find_loop_retry env ct kw _ _ s s1 e1 H1 E1) by (unfold retry; lia).
    unfold bind at 1. rewrite find_loop_turn, H2, E2. reflexivity.
Qed.

Lemma find_does_not_retry_base_exceptions_witness :
  let env := Demo.interrupted in
  let run := find env "RefreshToken" [] (Demo.fresh env) in
  fst run = Raise KeyboardInterrupt /\
  sleeps (trace (world (snd run))) = [] /\
  attempts_between (Demo.fresh env) (snd run) = 1%nat.
Proof.
  cbv zeta.
  set (env := Demo.interrupted). set (s := Demo.fresh env).
  set (s1 := snd (_reload_if_necessary env s)).
  assert (E1 : _reload_if_necessary env s = (Raise KeyboardInterrupt, s1))
    by (vm_compute; reflexivity).
  destruct (find_does_not_retry_base_exceptions bytes Demo.text_cache env
              "RefreshToken" [] s) as [Hfirst _].
  rewrite (Hfirst KeyboardInterrupt s1 E1 eq_refl).
  split; [reflexivity|]. split; vm_compute; reflexivity.
Defined.

(** X6. A call of [find] either reaches the in-memory lookup, after a
    reload that returned, and is that lookup; or it raises, and then it has
    not read the wall clock and [_last_sync] is what it was: a reload that
    fails never marks the snapshot as synchronised. *)
Theorem find_without_lookup_keeps_last_sync :
  forall (C : Type) (base : SerializableTokenCache C) (env : Env)
         (credential_type : string) (kwargs : dict) (s : State C),
    let run := find env credential_type kwargs s in
    (exists s0 s1,
        _reload_if_necessary env s0 = (Val tt, s1) /\
        run = super_find credential_type kwargs s1) \/
    (exists e,
        fst run = Raise e /\
        _last_sync (self (snd run)) = _last_sync (self s) /\
        n_time (world (snd run)) = n_time (world s)).
Proof.
  intros C base env ct kw s run. subst run.
  exact (find_loop_lookup_or_unsynced env ct kw 2 1 s eq_refl).
Qed.

(** * Further properties of modify *)

Section Flush.

Context {C : Type} {base : SerializableTokenCache C}.
Variable env : Env.

(** The release changes neither the object nor what the backend was asked
    to do. *)
Lemma leave_counters {A} (lockpath : string) (out : outcome A) (s2 : State C) :
  let s' := snd (leave env lockpath (out, s2)) in
  out <> OutOfFuel ->
  self s' = self s2 /\
  n_save (world s') = n_save (world s2) /\
  n_tlm (world s') = n_tlm (world s2) /\
  n_load (world s') = n_load (world s2) /\
  n_time (world s') = n_time (world s2).
Proof.
  cbv zeta. intros Hfuel. unfold leave.
  destruct out as [a|e|]; [| |congruence]; unfold bind; rewrite exit_cases;
    cbv zeta.
  all: destruct (os_remove env (n_remove (world s2))) as [[| |errno| | |]|];
    try (destruct (Z.eqb errno ENOENT || Z.eqb errno EACCES)); cbn.
  all: repeat split.
Qed.

(** The outcome of leaving the [with] statement, by the outcome of the
    removal. *)
Lemma leave_outcome {A} (lockpath : string) (out : outcome A) (s2 : State C) :
  out <> OutOfFuel ->
  match os_remove env (n_remove (world s2)) with
  | None => fst (leave env lockpath (out, s2)) = out
  | Some e =>
      if match e with
         | OSError errno => Z.eqb errno ENOENT || Z.eqb errno EACCES
         | _ => false
         end
      then fst (leave env lockpath (out, s2)) = out
      else fst (leave env lockpath (out, s2)) = Raise e
  end.
Proof.
  intros Hfuel. unfold leave.
  destruct out as [a|e|]; [| |congruence]; unfold bind; rewrite exit_cases;
    cbv zeta.
  all: destruct (os_remove env (n_remove (world s2))) as [[| |errno| | |]|];
    try (destruct (Z.eqb errno ENOENT || Z.eqb errno EACCES)); reflexivity.
Qed.

(** The statements after the reload save at most once, and what they save
    is what the serialization returned, after a mutation that returned. *)
Lemma mutate_and_flush_saves (credential_type : string) (old_entry : option dict)
    (new_key_value_pairs : option dict) (t : State C) :
  let run := mutate_and_flush env credential_type old_entry new_key_value_pairs t in
  n_tlm (world (snd run)) = n_tlm (world t) /\
  n_load (world (snd run)) = n_load (world t) /\
  (n_save (world (snd run)) = n_save (world t) \/
   n_save (world (snd run)) = S (n_save (world t)) /\
   exists data r rest,
     trace (world (snd run)) =
       trace (world t) ++
         [EvBaseModify credential_type old_entry new_key_value_pairs None;
          EvSerialize (inr data); EvSave data r] ++ rest /\
     fst (base_modify credential_type old_entry new_key_value_pairs (_cache (self t)))
       = None /\
     fst (base_serialize
            (snd (base_modify credential_type old_entry new_key_value_pairs
                    (_cache (self t))))) = inr data) /\
  (fst run = Val tt -> n_save (world (snd run)) = S (n_save (world t))).
Proof.
  cbv zeta. unfold mutate_and_flush. run.
  destruct (base_modify credential_type old_entry new_key_value_pairs
              (_cache (self t))) as [[e|] c]; cbn;
    [|destruct (base_serialize c) as [[e|data] c']; cbn;
      [|destruct (p_save env (n_save (world t))) as [e|]; cbn]].
  1-2: split; [reflexivity|]; split; [reflexivity|]; split;
    [left; reflexivity | discriminate].
  - split; [reflexivity|]. split; [reflexivity|]. split; [|discriminate].
    right. split; [reflexivity|]. exists data, (Some e), [].
    rewrite <- !app_assoc. repeat split.
  - split; [reflexivity|]. split; [reflexivity|]. split; [|reflexivity].
    right. split; [reflexivity|].
    exists data, None, [EvTime (time_time env (n_time (world t)))].
    rewrite <- !app_assoc. repeat split.
Qed.

End Flush.



(** X8. If the lock is acquired and [os.remove] then fails with anything
    but ENOENT or EACCES, [modify] raises that failure, whatever the body
    did: it replaces an exception of the body, and when the body had
    completed, the caller gets the exception although the data has been
    saved and [_last_sync] has been advanced. *)
Theorem modify_raises_removal_failure_after_saving :
  forall (C : Type) (base : SerializableTokenCache C) (env : Env) (fuel : nat)
         (credential_type : string) (old_entry : option dict)
         (new_key_value_pairs : option dict) (s s1 : State C) (e : exn),
    __enter__ env fuel (_lock_location (self s)) s = (Val tt, s1) ->
    os_remove env (n_remove (world s)) = Some e ->
    e <> OSError ENOENT -> e <> OSError EACCES ->
    let body := modify_body env credential_type old_entry new_key_value_pairs s1 in
    let run := modify env fuel credential_type old_entry new_key_value_pairs s in
    fst run = Raise e /\
    self (snd run) = self (snd body) /\
    n_save (world (snd run)) = n_save (world (snd body)) /\
    (fst body = Val tt ->
     n_save (world (snd run)) = S (n_save (world s)) /\
     exists k, (n_time (world s) <= k)%nat /\
               _last_sync (self (snd run)) = time_time env k).
Proof.
  intros C base env fuel ct old new s s1 e Henter Hrem Hn1 Hn2 body run.
  pose proof (enter_untouched env fuel (_lock_location (self s)) s) as Hu.
  rewrite Henter in Hu. cbn [snd] in Hu.
  destruct Hu as (Hself1 & _ & _ & Hsave1 & Hrem1 & _).
  pose proof (enter_synced env fuel (_lock_location (self s)) s) as [Hnt1 _].
  rewrite Henter in Hnt1. cbn [snd] in Hnt1.
  subst run. rewrite modify_unfold, Henter. fold body.
  (* the body: it does not call os.remove and does not run out of fuel *)
  pose proof (modify_body_synced env ct old new s1) as [Hbfuel _]. fold body in Hbfuel.
  assert (Hbrem : n_remove (world (snd body)) = n_remove (world s1)).
  { subst body. unfold modify_body, bind.
    pose proof (reload_effect env s1) as Hre. cbv zeta in Hre.
    destruct Hre as (_ & _ & _ & _ & _ & _ & _ & Hrr & _).
    destruct (_reload_if_necessary env s1) as [[[]|e1|] s2]; cbn [snd] in *;
      try exact Hrr.
    pose proof (mutate_and_flush_effect env ct old new s2) as Hmf.
    cbv zeta in Hmf. destruct Hmf as (_ & Hmr & _). congruence. }
  pose proof (leave_counters env (_lock_location (self s)) (fst body) (snd body)) as Hl.
  cbv zeta in Hl. rewrite <- surjective_pairing in Hl.
  destruct (Hl Hbfuel) as (Hlself & Hlsave & _).
  pose proof (leave_outcome env (_lock_location (self s)) (fst body) (snd body) Hbfuel)
    as Hlo.
  rewrite <- surjective_pairing in Hlo.
  rewrite Hbrem, Hrem1, Hrem in Hlo.
  assert (Hother : match e with
                   | OSError errno => Z.eqb errno ENOENT || Z.eqb errno EACCES
                   | _ => false
                   end = false).
  { destruct e as [| |errno| | |]; try reflexivity.
    apply orb_false_iff. split; apply Z.eqb_neq; intros ->; [apply Hn1 | apply Hn2];
      reflexivity. }
  rewrite Hother in Hlo.
  split; [exact Hlo|]. split; [exact Hlself|]. split; [exact Hlsave|].
  intros Hok. rewrite Hlsave, Hlself.
  subst body. unfold modify_body, bind in *.
  pose proof (reload_effect env s1) as Hre. cbv zeta in Hre.
  destruct Hre as (_ & _ & _ & _ & _ & _ & _ & _ & Hrs & Hsync).
  destruct (_reload_if_necessary env s1) as [[[]|e1|] s2]; cbn [fst snd] in *;
    try discriminate.
  pose proof (mutate_and_flush_saves env ct old new s2) as Hmf. cbv zeta in Hmf.
  destruct Hmf as (_ & _ & _ & Hval).
  pose proof (mutate_and_flush_effect env ct old new s2) as Hme. cbv zeta in Hme.
  destruct Hme as (_ & _ & _ & [(e2 & He2 & _) | (_ & Hls & _)]); [congruence|].
  split; [rewrite (Hval Hok); congruence|].
  exists (n_time (world s2)). split; [|exact Hls].
  destruct Hsync as [(_ & Hnt) | (_ & _ & Hnt)]; lia.
Qed.

Lemma modify_raises_removal_failure_after_saving_witness :
  let env := Demo.remove_fails (OSError 16) in
  let run := modify env 30 "RefreshToken" None None (Demo.fresh env) in
  fst run = Raise (OSError 16) /\
  n_save (world (snd run)) = 1%nat.
Proof.
  cbv zeta.
  set (env := Demo.remove_fails (OSError 16)). set (s := Demo.fresh env).
  set (s1 := snd (__enter__ env 30 (_lock_location (self s)) s)).
  assert (Henter : __enter__ env 30 (_lock_location (self s)) s = (Val tt, s1))
    by (vm_compute; reflexivity).
  pose proof (modify_raises_removal_failure_after_saving bytes Demo.text_cache env 30
                "RefreshToken" None None s s1 (OSError 16) Henter eq_refl
                ltac:(discriminate) ltac:(discriminate)) as H.
  cbv zeta in H. destruct H as (Hout & _ & _ & Hok).
  split; [exact Hout|].
  destruct (Hok ltac:(vm_compute; reflexivity)) as [Hn _].
  rewrite Hn. reflexivity.
Defined.

(** X9. After a call of [modify] that returns, [_last_sync] is the last
    reading taken from the wall clock, the one after the save.  As long as
    the backend reports a modification time that is not later than this
    reading, the next [find] on the same object does not load the backend:
    it asks for the modification time once and is the in-memory lookup. *)
Theorem find_after_modify_does_not_reload :
  forall (C : Type) (base : SerializableTokenCache C) (env : Env) (fuel : nat)
         (credential_type : string) (old_entry : option dict)
         (new_key_value_pairs : option dict) (s : State C)
         (found_type : string) (kwargs : dict) (t : Q),
    let s' := snd (modify env fuel credential_type old_entry new_key_value_pairs s) in
    let synced := time_time env (Nat.pred (n_time (world s'))) in
    fst (modify env fuel credential_type old_entry new_key_value_pairs s) = Val tt ->
    p_time_last_modified env (n_tlm (world s')) = inr t ->
    t <= synced ->
    _last_sync (self s') = synced /\
    find env found_type kwargs s' = super_find found_type kwargs (after_tlm env s') /\
    n_load (world (snd (find env found_type kwargs s'))) = n_load (world s').
Proof.
  intros C base env fuel ct old new s ft kw t s' synced Hok Ht Hle.
  assert (Hsync : _last_sync (self s') = synced).
  { subst synced s'. revert Hok. rewrite modify_unfold.
    destruct (__enter__ env fuel (_lock_location (self s)) s) as [[[]|e|] s1];
      cbn [fst snd]; try discriminate.
    pose proof (modify_body_synced env ct old new s1) as [Hbfuel _].
    set (body := modify_body env ct old new s1) in *.
    pose proof (leave_counters env (_lock_location (self s)) (fst body) (snd body)) as Hl.
    cbv zeta in Hl. rewrite <- surjective_pairing in Hl.
    destruct (Hl Hbfuel) as (Hlself & _ & _ & _ & Hlnt).
    pose proof (leave_outcome env (_lock_location (self s)) (fst body) (snd body) Hbfuel)
      as Hlo.
    rewrite <- surjective_pairing in Hlo.
    intros Hok. rewrite Hlself, Hlnt.
    assert (Hb : fst body = Val tt).
    { destruct (os_remove env (n_remove (world (snd body)))) as [e'|];
        [destruct (match e' with
                   | OSError errno => Z.eqb errno ENOENT || Z.eqb errno EACCES
                   | _ => false
                   end)|]; congruence. }
    clear Hlo Hl Hlself Hlnt Hok. subst body. unfold modify_body, bind in *.
    destruct (_reload_if_necessary env s1) as [[[]|e1|] s2]; cbn [fst snd] in *;
      try discriminate.
    pose proof (mutate_and_flush_effect env ct old new s2) as Hme. cbv zeta in Hme.
    destruct Hme as (_ & _ & _ & [(e2 & He2 & _) | (_ & Hls & Hnt & _)]); [congruence|].
    rewrite Hls, Hnt. reflexivity. }
  split; [exact Hsync|].
  assert (Hfresh : t <= _last_sync (self s')) by (rewrite Hsync; exact Hle).
  pose proof (reload_fresh env s' t Ht Hfresh) as Hr.
  assert (Hfind : find env ft kw s' = super_find ft kw (after_tlm env s')).
  { unfold find, find_tagged. change (seq 1 retry) with [1; 2; 3]%nat.
    apply find_loop_success. exact Hr. }
  split; [exact Hfind|].
  rewrite Hfind. run.
  destruct (base_find ft kw (_cache (self (after_tlm env s')))) as [[e|l] c];
    reflexivity.
Qed.

Lemma find_after_modify_does_not_reload_witness :
  let env := Demo.quiet in
  let s' := snd (modify env 30 "RefreshToken" None None (Demo.fresh env)) in
  _last_sync (self s') = 101 /\
  n_load (world (snd (find env "RefreshToken" [] s'))) = 1%nat.
Proof.
  cbv zeta.
  assert (Hle : 50 <= time_time Demo.quiet
                  (Nat.pred (n_time (world (snd (modify Demo.quiet 30 "RefreshToken"
                                                   None None (Demo.fresh Demo.quiet)))))))
    by (vm_compute; discriminate).
  pose proof (find_after_modify_does_not_reload bytes Demo.text_cache Demo.quiet 30
                "RefreshToken" None None (Demo.fresh Demo.quiet) "RefreshToken" [] 50
                ltac:(vm_compute; reflexivity) eq_refl Hle) as H.
  cbv zeta in H. destruct H as (Hsync & _ & Hload).
  split; [rewrite Hsync; vm_compute; reflexivity|].
  rewrite Hload. vm_compute. reflexivity.
Defined.

(** * Further properties of the lock files shared by processes *)

Module LockFiles.

Import Interleaving.

(** A step keeps a lock file that nobody owns, and makes nobody its owner. *)
Lemma step_keeps_abandoned (path : string) (i : nat) (sys sys' : system) :
  step i sys sys' -> abandoned path sys -> abandoned path sys'.
Proof.
  intros Hstep [Hfile Hnone].
  assert (Hmove : forall p to,
            procs sys !! i = Some p ->
            (lockpath p = path -> owns_lock to = false) ->
            abandoned path (move i p to sys)).
  { intros p to Hp Hto. split; [exact Hfile|].
    intros j q Hq Hpath. cbn in Hq.
    destruct (decide (i = j)) as [<-|Hne].
    - rewrite lookup_insert_eq in Hq. injection Hq as <-. cbn in *. auto.
    - rewrite lookup_insert_ne in Hq by exact Hne. eauto. }
  destruct Hstep as
    [sys p last Hp Hat | sys p Hp Hat | sys p Hp Hat | sys p Hp Hat
    | sys p Hp Hat Hin | sys p Hp Hat Hnotin | sys p e Hp Hat He
    | sys p Hp Hat | sys p e Hp Hat He | sys p Hp Hat | sys p Hp Hat
    | sys p Hp Hat | sys p Hp Hat | sys p Hp Hat | sys p Hp Hat
    | sys p Hp Hat | sys p e Hp Hat
    | sys p pending Hp Hat Hin | sys p pending Hp Hat
    | sys p pending errno Hp Hat Hn1 Hn2].
  all: try (apply Hmove; [eassumption | intros _; reflexivity]).
  all: try (apply Hmove; [eassumption|]; intros Hpath;
            repeat match goal with
                   | H : _ \/ _ |- _ => destruct H
                   end;
            match goal with
            | H : procs _ !! ?j = Some ?q, H' : at_pc ?q = _ |- _ =>
                pose proof (Hnone j q H Hpath) as Hown;
                rewrite H' in Hown; discriminate
            end).
  - (* the creation: it is the file of another location *)
    split.
    + cbn. apply elem_of_union_r. exact Hfile.
    + intros j q Hq Hpath. cbn in Hq.
      destruct (decide (i = j)) as [<-|Hne].
      * rewrite lookup_insert_eq in Hq. injection Hq as <-. cbn in *.
        exfalso. apply Hnotin. rewrite Hpath. exact Hfile.
      * rewrite lookup_insert_ne in Hq by exact Hne. eauto.
  - (* the removal: only an owner removes, so it is another location *)
    assert (Hother : lockpath p <> path).
    { intros Hpath. pose proof (Hnone i p Hp Hpath) as Hown.
      rewrite Hat in Hown. discriminate. }
    split.
    + cbn. apply elem_of_difference. split; [exact Hfile|].
      intros Hin'. apply elem_of_singleton in Hin'. congruence.
    + intros j q Hq Hpath. cbn in Hq.
      destruct (decide (i = j)) as [<-|Hne].
      * rewrite lookup_insert_eq in Hq. injection Hq as <-. reflexivity.
      * rewrite lookup_insert_ne in Hq by exact Hne. eauto.
Qed.

(** X10. A lock file that exists while no process owns it (left behind by
    a process that died, or whose write or removal failed) is never
    recovered by the code: whatever the processes do from then on, the file
    stays, and no process with this lock location ever owns the lock or
    enters its reload-mutate-save sequence again. *)
Theorem abandoned_lock_is_never_recovered :
  forall (path : string) (sys sys' : system),
    abandoned path sys ->
    rtc any_step sys sys' ->
    path ∈ files sys' /\
    forall i p, procs sys' !! i = Some p -> lockpath p = path ->
                owns_lock (at_pc p) = false /\ in_sequence (at_pc p) = false.
Proof.
  intros path sys sys' Hab Hsteps.
  assert (Hab' : abandoned path sys').
  { induction Hsteps as [sys | sys mid sys' [i Hstep] _ IH]; [exact Hab|].
    apply IH. apply (step_keeps_abandoned path i sys mid Hstep Hab). }
  destruct Hab' as [Hfile Hnone]. split; [exact Hfile|].
  intros i p Hp Hpath. pose proof (Hnone i p Hp Hpath) as Hown.
  split; [exact Hown|].
  destruct (in_sequence (at_pc p)) eqn:Hseq; [|reflexivity].
  apply MutualExclusion.in_sequence_owns in Hseq. congruence.
Qed.

Lemma left_behind_abandoned : abandoned Demo.shared_lock Demo.left_behind.
Proof.
  split.
  - unfold Demo.left_behind. cbn. apply elem_of_singleton. reflexivity.
  - intros i p Hp _. unfold Demo.left_behind in Hp. cbn [procs] in Hp.
    destruct (decide (i = 0%nat)) as [->|Hne].
    + rewrite lookup_insert_eq in Hp. injection Hp as <-. reflexivity.
    + rewrite lookup_insert_ne in Hp by congruence.
      rewrite lookup_empty in Hp. discriminate.
Qed.

Lemma abandoned_lock_is_never_recovered_witness :
  let waiting :=
    move 0 (mkProc Demo.shared_lock Open) Sleep
      (move 0 (mkProc Demo.shared_lock LoopTest) Open
         (move 0 (mkProc Demo.shared_lock Enter) LoopTest
            (move 0 (mkProc Demo.shared_lock (Outside None)) Enter
               Demo.left_behind))) in
  rtc any_step Demo.left_behind waiting /\
  Demo.shared_lock ∈ files waiting.
Proof.
  cbv zeta.
  assert (Hsteps :
    rtc any_step Demo.left_behind
      (move 0 (mkProc Demo.shared_lock Open) Sleep
         (move 0 (mkProc Demo.shared_lock LoopTest) Open
            (move 0 (mkProc Demo.shared_lock Enter) LoopTest
               (move 0 (mkProc Demo.shared_lock (Outside None)) Enter
                  Demo.left_behind))))).
  { eapply rtc_l; [exists 0%nat; eapply (step_call 0); reflexivity|].
    eapply rtc_l; [exists 0%nat; eapply (step_start 0); reflexivity|].
    eapply rtc_l; [exists 0%nat; eapply (step_test_in_time 0); reflexivity|].
    eapply rtc_l; [|apply rtc_refl].
    exists 0%nat. eapply (step_open_exists 0); [reflexivity | reflexivity |].
    cbn. apply elem_of_singleton. reflexivity. }
  split; [exact Hsteps|].
  exact (proj1 (abandoned_lock_is_never_recovered Demo.shared_lock _ _
                  left_behind_abandoned Hsteps)).
Defined.

(** X11. The lock excludes per lock location only: two processes whose
    cache objects have different lock locations (by an explicit
    [lock_location], say, on the same backend) can both be inside their
    reload-mutate-save sequences at the same time. *)
Theorem distinct_lock_locations_do_not_exclude :
  forall a b : string,
    a <> b ->
    exists (h : list entry) (sys : system),
      exec h sys /\
      exists p q : proc,
        procs sys !! 0%nat = Some p /\ procs sys !! 1%nat = Some q /\
        lockpath p = a /\ lockpath q = b /\
        in_sequence (at_pc p) = true /\ in_sequence (at_pc q) = true.
Proof.
  intros a b Hab.
  set (s0 := two_outside a b).
  set (s1 := move 0 (mkProc a (Outside None)) Enter s0).
  set (s2 := move 0 (mkProc a Enter) LoopTest s1).
  set (s3 := move 0 (mkProc a LoopTest) Open s2).
  set (s4 := move_create 0 (mkProc a Open) Write s3).
  set (s5 := move 0 (mkProc a Write) Reload s4).
  set (t1 := move 1 (mkProc b (Outside None)) Enter s5).
  set (t2 := move 1 (mkProc b Enter) LoopTest t1).
  set (t3 := move 1 (mkProc b LoopTest) Open t2).
  set (t4 := move_create 1 (mkProc b Open) Write t3).
  set (t5 := move 1 (mkProc b Write) Reload t4).
  assert (H0 : exec [] s0).
  { apply exec_initial. intros i p Hp. unfold s0, two_outside in Hp. cbn [procs] in Hp.
    destruct (decide (i = 1%nat)) as [->|H1].
    - rewrite lookup_insert_eq in Hp. injection Hp as <-. eexists. reflexivity.
    - rewrite lookup_insert_ne in Hp by congruence.
      destruct (decide (i = 0%nat)) as [->|H0].
      + rewrite lookup_insert_eq in Hp. injection Hp as <-. eexists. reflexivity.
      + rewrite lookup_insert_ne in Hp by congruence.
        rewrite lookup_empty in Hp. discriminate. }
  assert (H1 : exec [] s1).
  { apply (exec_step [] s0 s1 0 (mkProc a (Outside None)) H0); [reflexivity|].
    eapply (step_call 0); reflexivity. }
  assert (H2 : exec [] s2).
  { apply (exec_step [] s1 s2 0 (mkProc a Enter) H1); [reflexivity|].
    eapply (step_start 0); reflexivity. }
  assert (H3 : exec [] s3).
  { apply (exec_step [] s2 s3 0 (mkProc a LoopTest) H2); [reflexivity|].
    eapply (step_test_in_time 0); reflexivity. }
  assert (H4 : exec [] s4).
  { apply (exec_step [] s3 s4 0 (mkProc a Open) H3); [reflexivity|].
    eapply (step_open_created 0); [reflexivity | reflexivity |].
    cbn. apply not_elem_of_empty. }
  assert (H5 : exec [] s5).
  { apply (exec_step [] s4 s5 0 (mkProc a Write) H4); [reflexivity|].
    eapply (step_write_ok 0); reflexivity. }
  assert (G1 : exec [] t1).
  { apply (exec_step [] s5 t1 1 (mkProc b (Outside None)) H5); [reflexivity|].
    eapply (step_call 1); reflexivity. }
  assert (G2 : exec [] t2).
  { apply (exec_step [] t1 t2 1 (mkProc b Enter) G1); [reflexivity|].
    eapply (step_start 1); reflexivity. }
  assert (G3 : exec [] t3).
  { apply (exec_step [] t2 t3 1 (mkProc b LoopTest) G2); [reflexivity|].
    eapply (step_test_in_time 1); reflexivity. }
  assert (G4 : exec [] t4).
  { apply (exec_step [] t3 t4 1 (mkProc b Open) G3); [reflexivity|].
    eapply (step_open_created 1); [reflexivity | reflexivity |].
    cbn. intros Hin. apply elem_of_union in Hin as [Hin|Hin].
    - apply elem_of_singleton in Hin. congruence.
    - exact (not_elem_of_empty _ Hin). }
  assert (G5 : exec [] t5).
  { apply (exec_step [] t4 t5 1 (mkProc b Write) G4); [reflexivity|].
    eapply (step_write_ok 1); reflexivity. }
  exists [], t5. split; [exact G5|].
  exists (mkProc a Reload), (mkProc b Reload). repeat split.
Qed.

Lemma distinct_lock_locations_do_not_exclude_witness :
  exists (h : list entry) (sys : system),
    exec h sys /\
    exists p q : proc,
      procs sys !! 0%nat = Some p /\ procs sys !! 1%nat = Some q /\
      lockpath p = "/tmp/a.lockfile"%string /\ lockpath q = "/tmp/b.lockfile"%string /\
      in_sequence (at_pc p) = true /\ in_sequence (at_pc q) = true.
Proof.
  apply distinct_lock_locations_do_not_exclude. discriminate.
Defined.

End LockFiles.

(** * The lock location over the life of the object *)

Section LockLocation.

Context {C : Type} {base : SerializableTokenCache C}.
Variable env : Env.

Lemma logs_only_refl (P : event -> bool) (s : State C) : logs_only P s s.
Proof.
  split; [reflexivity|]. exists []. split; [rewrite app_nil_r|]; reflexivity.
Qed.

Lemma logs_only_trans (P : event -> bool) (s s' s'' : State C) :
  logs_only P s s' -> logs_only P s' s'' -> logs_only P s s''.
Proof.
  intros (H1 & evs & H2 & H3) (G1 & evs' & G2 & G3).
  split; [congruence|]. exists (evs ++ evs'). split.
  - rewrite G2, H2, app_assoc. reflexivity.
  - rewrite forallb_app, H3, G3. reflexivity.
Qed.

Lemma logs_only_weaken (P Q : event -> bool) (s s' : State C) :
  (forall ev, P ev = true -> Q ev = true) ->
  logs_only P s s' -> logs_only Q s s'.
Proof.
  intros HPQ (H1 & evs & H2 & H3). split; [exact H1|].
  exists evs. split; [exact H2|].
  apply forallb_forall. intros ev Hin. apply HPQ.
  rewrite forallb_forall in H3. apply H3. exact Hin.
Qed.

Lemma logs_only_events (P : event -> bool) (s : State C) (w : World)
    (evs : list event) :
  trace w = trace (world s) ++ evs -> forallb P evs = true ->
  logs_only P s (mkState (self s) w).
Proof.
  intros Htr HP. split; [reflexivity|]. exists evs. split; assumption.
Qed.

Lemma current_time_logs (path : string) (s : State C) :
  logs_only (locks_only_at path) s (snd (current_time env s)).
Proof.
  rewrite current_time_effect. cbn [snd]. unfold EvClock.
  destruct (has_monotonic env);
    (eapply logs_only_events; [cbn; reflexivity | reflexivity]).
Qed.

(** The acquisition creates no file but the lock file. *)
Lemma lock_loop_logs (lockpath : string) (content : bytes) (deadline : Q)
    (fuel : nat) :
  forall s : State C,
    logs_only (locks_only_at lockpath) s
      (snd (lock_loop env fuel lockpath content deadline s)).
Proof.
  induction fuel as [|fuel IH]; intros s; [apply logs_only_refl|].
  rewrite lock_loop_turn. cbv zeta.
  pose proof (current_time_logs lockpath s) as H0.
  set (s0 := snd (current_time env s)) in *.
  assert (Hself0 : self s0 = self s).
  { unfold s0. rewrite current_time_effect. reflexivity. }
  assert (Hpath : String.eqb lockpath lockpath = true) by apply String.eqb_refl.
  assert (Hadd : forall evs w,
            trace w = trace (world s0) ++ evs ->
            forallb (locks_only_at lockpath) evs = true ->
            logs_only (locks_only_at lockpath) s (mkState (self s) w)).
  { intros evs w T1 T2. apply (logs_only_trans _ _ _ _ H0). rewrite <- Hself0.
    apply (logs_only_events _ s0 w evs); assumption. }
  assert (Hnext : forall evs w,
            trace w = trace (world s0) ++ evs ->
            forallb (locks_only_at lockpath) evs = true ->
            logs_only (locks_only_at lockpath) s
              (snd (lock_loop env fuel lockpath content deadline (mkState (self s) w)))).
  { intros evs w T1 T2. eapply logs_only_trans; [|apply IH].
    apply (Hadd evs w); assumption. }
  destruct (Qltb _ deadline); [|exact H0].
  destruct (os_open_x env (n_open (world s))) as [ex|].
  - destruct (is_ValueError ex); [|destruct (is_FileExistsError ex)]; cbn [snd].
    + apply (Hadd [EvOpenX lockpath (Some ex)]); [reflexivity|].
      cbn. rewrite Hpath. reflexivity.
    + apply (Hnext [EvOpenX lockpath (Some ex); EvDebug found_lock_fmt;
                    EvSleep check_interval]).
      * cbn. rewrite <- !app_assoc. reflexivity.
      * cbn. rewrite Hpath. reflexivity.
    + apply (Hadd [EvOpenX lockpath (Some ex)]); [reflexivity|].
      cbn. rewrite Hpath. reflexivity.
  - destruct (file_write env (n_write (world s))) as [ex|]; cbn [snd].
    + destruct (is_ValueError ex); [|destruct (is_FileExistsError ex)]; cbn [snd].
      * apply (Hadd [EvOpenX lockpath None; EvWrite content (Some ex)]).
        -- cbn. rewrite <- !app_assoc. reflexivity.
        -- cbn. rewrite Hpath. reflexivity.
      * apply (Hnext [EvOpenX lockpath None; EvWrite content (Some ex);
                      EvDebug found_lock_fmt; EvSleep check_interval]).
        -- cbn. rewrite <- !app_assoc. reflexivity.
        -- cbn. rewrite Hpath. reflexivity.
      * apply (Hadd [EvOpenX lockpath None; EvWrite content (Some ex)]).
        -- cbn. rewrite <- !app_assoc. reflexivity.
        -- cbn. rewrite Hpath. reflexivity.
    + apply (Hadd [EvOpenX lockpath None; EvWrite content None]).
      * cbn. rewrite <- !app_assoc. reflexivity.
      * cbn. rewrite Hpath. reflexivity.
Qed.

Lemma enter_logs (fuel : nat) (lockpath : string) (s : State C) :
  logs_only (locks_only_at lockpath) s (snd (__enter__ env fuel lockpath s)).
Proof.
  unfold __enter__. rewrite create_lock_file_start.
  eapply logs_only_trans; [apply current_time_logs | apply lock_loop_logs].
Qed.

Lemma find_event_locks_nothing (path : string) (ev : event) :
  is_find_event ev = true -> locks_only_at path ev = true.
Proof. destruct ev; cbn; congruence. Qed.

Lemma body_event_locks_nothing (path : string) (ev : event) :
  is_reload_event ev || is_flush_event ev = true -> locks_only_at path ev = true.
Proof. destruct ev; cbn; congruence. Qed.

Lemma find_logs (credential_type : string) (kwargs : dict) (s : State C) :
  logs_only (locks_only_at (_lock_location (self s))) s
    (snd (find env credential_type kwargs s)).
Proof.
  rewrite find_state.
  destruct (find_loop_read_only env credential_type kwargs (seq 1 retry) s)
    as (_ & _ & _ & _ & _ & _ & Hloc & _ & evs & Htr & Hevs).
  apply (logs_only_weaken is_find_event); [apply find_event_locks_nothing|].
  split; [exact Hloc|]. exists evs. split; assumption.
Qed.

Lemma reload_logs (path : string) (s : State C) :
  logs_only (locks_only_at path) s (snd (_reload_if_necessary env s)).
Proof.
  destruct (reload_read_only env s) as (_ & _ & _ & _ & _ & _ & Hloc & _ & evs & Htr & Hevs).
  apply (logs_only_weaken is_find_event); [apply find_event_locks_nothing|].
  split; [exact Hloc|]. exists evs. split; assumption.
Qed.

Lemma modify_body_logs (path : string) (credential_type : string)
    (old_entry : option dict) (new_key_value_pairs : option dict) (s : State C) :
  logs_only (locks_only_at path) s
    (snd (modify_body env credential_type old_entry new_key_value_pairs s)).
Proof.
  unfold modify_body, bind.
  pose proof (reload_logs path s) as Hr.
  destruct (_reload_if_necessary env s) as [[[]|e|] s1]; cbn [snd] in *;
    try exact Hr.
  apply (logs_only_trans _ _ _ _ Hr).
  pose proof (mutate_and_flush_effect env credential_type old_entry
                new_key_value_pairs s1) as Hmf.
  cbv zeta in Hmf. destruct Hmf as (Hloc & _ & (evs & Htr & Hevs) & _).
  apply (logs_only_weaken is_flush_event).
  - intros ev Hev. apply body_event_locks_nothing. rewrite Hev. apply orb_true_r.
  - split; [exact Hloc|]. exists evs. split; assumption.
Qed.

Lemma leave_logs {A} (lockpath : string) (out : outcome A) (s2 : State C) :
  logs_only (locks_only_at lockpath) s2 (snd (leave env lockpath (out, s2))).
Proof.
  assert (Hcase : out = OutOfFuel \/ out <> OutOfFuel)
    by (destruct out; [right; discriminate | right; discriminate | left; reflexivity]).
  destruct Hcase as [->|Hfuel]; [apply logs_only_refl|].
  pose proof (leave_removes env lockpath out s2 Hfuel) as Hl. cbv zeta in Hl.
  destruct Hl as (Hself & _ & _ & Htr & _).
  split; [rewrite Hself; reflexivity|].
  destruct Htr as [Htr|Htr]; eexists; (split; [exact Htr|]);
    cbn; rewrite String.eqb_refl; reflexivity.
Qed.

Lemma modify_logs (fuel : nat) (credential_type : string) (old_entry : option dict)
    (new_key_value_pairs : option dict) (s : State C) :
  logs_only (locks_only_at (_lock_location (self s))) s
    (snd (modify env fuel credential_type old_entry new_key_value_pairs s)).
Proof.
  rewrite modify_unfold.
  pose proof (enter_logs fuel (_lock_location (self s)) s) as He.
  destruct (__enter__ env fuel (_lock_location (self s)) s) as [[[]|e|] s1];
    cbn [snd] in *; try exact He.
  apply (logs_only_trans _ _ _ _ He).
  eapply logs_only_trans;
    [apply (modify_body_logs (_lock_location (self s)) credential_type old_entry
              new_key_value_pairs s1)|].
  rewrite (surjective_pairing
             (modify_body env credential_type old_entry new_key_value_pairs s1)) at 2.
  apply leave_logs.
Qed.

Lemma operation_logs (op : operation) (s : State C) :
  logs_only (locks_only_at (_lock_location (self s))) s (run_operation env op s).
Proof.
  destruct op; cbn [run_operation].
  - apply find_logs.
  - apply modify_logs.
  - apply reload_logs.
Qed.

Lemma operations_logs (ops : list operation) :
  forall s : State C,
    logs_only (locks_only_at (_lock_location (self s))) s (run_operations env ops s).
Proof.
  induction ops as [|op ops IH]; intros s; [apply logs_only_refl|].
  cbn [run_operations fold_left].
  pose proof (operation_logs op s) as Hop.
  apply (logs_only_trans _ _ _ _ Hop).
  specialize (IH (run_operation env op s)).
  destruct Hop as [Hloc _]. rewrite Hloc in IH. exact IH.
Qed.

End LockLocation.

(** X12. The lock location is fixed at construction: it is the given
    [lock_location] after [expanduser], or, when none or an empty one is
    given, the backend's location followed by [".lockfile"].  No later
    [find], [modify] or reload changes it, and the only files these
    operations ever try to create or remove are at this location. *)
Theorem lock_location_is_fixed_at_construction :
  forall (C : Type) (base : SerializableTokenCache C) (env : Env)
         (lock_location : option string) (w : World) (s0 : State C)
         (ops : list operation),
    __init__ env lock_location w = (Val tt, s0) ->
    let chosen :=
      match lock_location with
      | Some (String c l) => expanduser env (String c l)
      | _ => default_lock_location env
      end in
    let s := run_operations env ops s0 in
    _lock_location (self s0) = chosen /\
    _lock_location (self s) = chosen /\
    exists evs, trace (world s) = trace (world s0) ++ evs /\
                forallb (locks_only_at chosen) evs = true.
Proof.
  intros C base env lock_location w s0 ops Hinit chosen s.
  assert (H0 : _lock_location (self s0) = chosen).
  { subst chosen. revert Hinit. unfold __init__. run.
    destruct (mkdir_p env (n_mkdir w)); [discriminate|].
    intros H. injection H as <-. cbn.
    destruct lock_location as [[|c l]|]; reflexivity. }
  split; [exact H0|].
  destruct (operations_logs env ops s0) as (Hloc & evs & Htr & Hevs).
  fold s in Hloc, Htr. rewrite H0 in Hloc, Hevs.
  split; [exact Hloc|]. exists evs. split; assumption.
Qed.

Lemma lock_location_is_fixed_at_construction_witness :
  let env := Demo.quiet in
  let s := run_operations env
             [OpModify 30 "RefreshToken" None None; OpFind "RefreshToken" []]
             (Demo.fresh env) in
  _lock_location (self s) = "/tmp/cache.bin.lockfile"%string.
Proof.
  cbv zeta.
  assert (Hinit : __init__ Demo.quiet (Some EmptyString) world0
                  = (Val tt, Demo.fresh Demo.quiet))
    by (vm_compute; reflexivity).
  pose proof (lock_location_is_fixed_at_construction bytes Demo.text_cache Demo.quiet
                (Some EmptyString) world0 (Demo.fresh Demo.quiet)
                [OpModify 30 "RefreshToken" None None; OpFind "RefreshToken" []]
                Hinit) as H.
  cbv zeta in H. destruct H as (_ & Hloc & _).
  rewrite Hloc. reflexivity.
Defined.

(** * Failures of the reload *)

(** X13. Any failure of the backend other than [PersistenceNotFound] is
    raised by [_reload_if_necessary] as it is, from [time_last_modified] and
    from [load] alike, and leaves the object untouched: nothing is
    deserialized, the wall clock is not read and [_last_sync] stays.  A
    failure of the deserialization is raised as well and leaves [_last_sync]
    as it was. *)
Theorem reload_raises_other_failures :
  forall (C : Type) (base : SerializableTokenCache C) (env : Env) (s : State C)
         (e : exn),
    is_PersistenceNotFound e = false ->
    let run := _reload_if_necessary env s in
    (p_time_last_modified env (n_tlm (world s)) = inl e ->
     fst run = Raise e /\ self (snd run) = self s /\
     n_load (world (snd run)) = n_load (world s) /\
     n_time (world (snd run)) = n_time (world s)) /\
    (forall t,
        p_time_last_modified env (n_tlm (world s)) = inr t ->
        _last_sync (self s) < t ->
        p_load env (n_load (world s)) = inl e ->
        fst run = Raise e /\ self (snd run) = self s /\
        n_time (world (snd run)) = n_time (world s) /\
        trace (world (snd run)) =
          trace (world s) ++ [EvTimeLastModified (inr t); EvLoad (inl e)]) /\
    (forall t data,
        p_time_last_modified env (n_tlm (world s)) = inr t ->
        _last_sync (self s) < t ->
        p_load env (n_load (world s)) = inr data ->
        fst (base_deserialize data (_cache (self s))) = Some e ->
        fst run = Raise e /\
        _last_sync (self (snd run)) = _last_sync (self s) /\
        n_time (world (snd run)) = n_time (world s)).
Proof.
  intros C base env s e He run. subst run.
  split; [|split].
  - intros Ht. unfold _reload_if_necessary. run. rewrite Ht. cbn. rewrite He.
    destruct s as [[] ?]. repeat split.
  - intros t Ht Hlt Hl. apply Qltb_lt in Hlt.
    unfold _reload_if_necessary. run. rewrite Ht. cbn. rewrite Hlt. cbn.
    rewrite Hl. cbn. rewrite He. cbn. rewrite <- app_assoc.
    destruct s as [[] ?]. repeat split.
  - intros t data Ht Hlt Hl Hd. apply Qltb_lt in Hlt.
    unfold _reload_if_necessary. run. rewrite Ht. cbn. rewrite Hlt. cbn.
    rewrite Hl. cbn.
    destruct (base_deserialize data (_cache (self s))) as [r c]. cbn in Hd. subst r.
    cbn. rewrite He. repeat split.
Qed.

Lemma reload_raises_other_failures_witness :
  let env := Demo.unreadable in
  let run := _reload_if_necessary env (Demo.fresh env) in
  fst run = Raise (Exception "DecryptionError") /\
  self (snd run) = self (Demo.fresh env).
Proof.
  cbv zeta.
  destruct (reload_raises_other_failures bytes Demo.text_cache Demo.unreadable
              (Demo.fresh Demo.unreadable) (Exception "DecryptionError") eq_refl)
    as (_ & Hload & _).
  destruct (Hload 50 eq_refl eq_refl eq_refl) as (Hout & Hself & _).
  split; [exact Hout | exact Hself].
Defined.
